(** * A shallow embedding of [rag_engine.py] (class [RAGEngine])

    The engine loads a directory of text files, cuts them into chunks,
    embeds the chunks, and answers questions by retrieval, optional
    reranking and optional extractive question answering.

    Conventions of the embedding.
    - A Python [str] is a list of characters; a character is a code point
      below 256 (the Latin-1 part of Unicode), held in an [ascii].
    - A Python [int] is a [Z]; a Python [float] is a rational [Q] (no NaN,
      no rounding: only the order and the comparisons of scores are used).
    - The attributes of [self] are the fields of the record [Engine]; a
      method is a function in a monad that threads [self] and a trace of the
      calls made to the outside (models, file writes) and may raise.
    - The libraries (the file system, [numpy], the three models) are the
      fields of the record [World]. *)

From Stdlib Require Import List ZArith Lia Bool Ascii QArith.
From Stdlib Require String DecimalString DecimalZ.
Import String.StringSyntax.
From Stdlib Require Import Permutation Sorted.
Import ListNotations.
Local Open Scope Z_scope.

Set Implicit Arguments.

(* ================================================================== *)
(** * Python built-ins *)
(* ================================================================== *)

Module Py.

(** [str]: a sequence of code points. *)
Definition str := list ascii.

Definition lit (s : String.string) : str := String.list_ascii_of_string s.
Arguments lit s%_string_scope.

Definition chr (n : nat) : ascii := ascii_of_nat n.
Definition ord (c : ascii) : nat := nat_of_ascii c.

Definition len {A} (l : list A) : Z := Z.of_nat (length l).

(** An index of a slice, as Python normalises it against the length [n]:
    a negative index counts from the end, and both ends are clamped. *)
Definition norm_index (n i : Z) : Z :=
  if i <? 0 then Z.max 0 (i + n) else Z.min i n.

(** [l[lo:hi]] *)
Definition slice {A} (l : list A) (lo hi : Z) : list A :=
  let n := len l in
  let lo' := norm_index n lo in
  let hi' := norm_index n hi in
  firstn (Z.to_nat (hi' - lo')) (skipn (Z.to_nat lo') l).

(** [l[lo:]] *)
Definition slice_from {A} (l : list A) (lo : Z) : list A :=
  skipn (Z.to_nat (norm_index (len l) lo)) l.

(** [l[:hi]] *)
Definition slice_to {A} (l : list A) (hi : Z) : list A :=
  firstn (Z.to_nat (norm_index (len l) hi)) l.

(** [str.isspace] on one character (code points below 256). *)
Definition isspace (c : ascii) : bool :=
  let n := ord c in
  ((9 <=? n) && (n <=? 13) || (28 <=? n) && (n <=? 32)
   || (n =? 133) || (n =? 160))%nat.

Fixpoint lstrip (s : str) : str :=
  match s with
  | c :: s' => if isspace c then lstrip s' else s
  | [] => []
  end.

Definition rstrip (s : str) : str := rev (lstrip (rev s)).

(** [s.strip()] *)
Definition strip (s : str) : str := lstrip (rstrip s).

(** Truth value of a string or a list: non-empty. *)
Definition truthy {A} (l : list A) : bool :=
  match l with [] => false | _ => true end.

(** [s.split(sep)] for a one-character separator: the pieces between the
    separators, empty pieces included. *)
Fixpoint split (sep : ascii) (s : str) : list str :=
  match s with
  | [] => [[]]
  | c :: s' =>
      if Ascii.eqb c sep then [] :: split sep s'
      else match split sep s' with
           | p :: ps => (c :: p) :: ps
           | [] => [[c]]
           end
  end.

(** [sep.join(parts)] *)
Fixpoint join (sep : str) (parts : list str) : str :=
  match parts with
  | [] => []
  | [p] => p
  | p :: ps => p ++ sep ++ join sep ps
  end.

(** [s.rsplit(sep, 1)[0]]: the text before the last separator, or the
    whole of [s] when it holds no separator. *)
Fixpoint rsplit1_head (sep : ascii) (s : str) : str :=
  match s with
  | [] => []
  | c :: s' =>
      if existsb (Ascii.eqb sep) s' then c :: rsplit1_head sep s'
      else if Ascii.eqb c sep then [] else s
  end.

(** [s.endswith(c)] for a one-character suffix. *)
Definition endswith (s : str) (c : ascii) : bool :=
  match rev s with
  | d :: _ => Ascii.eqb d c
  | [] => false
  end.

Definition str_eqb (a b : str) : bool :=
  if list_eq_dec ascii_dec a b then true else false.

(** [sub in s] *)
Fixpoint startswith (s sub : str) : bool :=
  match sub, s with
  | [], _ => true
  | _ :: _, [] => false
  | a :: sub', b :: s' => Ascii.eqb a b && startswith s' sub'
  end.

Fixpoint contains (s sub : str) : bool :=
  startswith s sub ||
  match s with
  | [] => false
  | _ :: s' => contains s' sub
  end.

(** [list(dict.fromkeys(l))]: the first occurrence of each element, in
    order. *)
Fixpoint fromkeys (seen l : list str) : list str :=
  match l with
  | [] => []
  | x :: l' =>
      if existsb (str_eqb x) seen then fromkeys seen l'
      else x :: fromkeys (x :: seen) l'
  end.

End Py.

(* ================================================================== *)
(** * The data of the engine *)
(* ================================================================== *)

Import Py.

(** [{'title', 'content'}] *)
Record Document := { doc_title : str; content : str }.

(** [{'id', 'title', 'text'}] *)
Record Chunk := { id : Z; title : str; text : str }.

(* ================================================================== *)
(** * [_chunk_documents] *)
(* ================================================================== *)

Module Chunker.

(** [[p.strip() for p in content.split('\n') if p.strip()]] *)
Definition paragraphs (content : str) : list str :=
  map strip (filter (fun p => truthy (strip p)) (split (chr 10) content)).

(** The [while] loop of an over-long paragraph (lines 99-107), with the
    chunk list and the chunk counter passed along.  [None]: the loop is
    still running when the fuel is spent. *)
Fixpoint window_loop (fuel : nat) (chunk_chars chunk_overlap : Z)
         (ttl para : str) (start chunk_id : Z) (chunks : list Chunk)
  : option (list Chunk * Z) :=
  match fuel with
  | O => None
  | S fuel' =>
      if start <? len para then
        let end_ := Z.min (len para) (start + chunk_chars) in
        let txt := slice para start end_ in
        let chunks' := chunks ++ [{| id := chunk_id; title := ttl; text := txt |}] in
        let chunk_id' := chunk_id + 1 in
        if end_ =? len para then Some (chunks', chunk_id')
        else window_loop fuel' chunk_chars chunk_overlap ttl para
               (Z.max 0 (end_ - chunk_overlap)) chunk_id' chunks'
      else Some (chunks, chunk_id)
  end.

(** The values [start] takes at the head of the loop body during the
    first [fuel] iterations of that loop. *)
Fixpoint window_starts (fuel : nat) (chunk_chars chunk_overlap : Z)
         (para : str) (start : Z) : list Z :=
  match fuel with
  | O => []
  | S fuel' =>
      if start <? len para then
        let end_ := Z.min (len para) (start + chunk_chars) in
        start :: (if end_ =? len para then []
                  else window_starts fuel' chunk_chars chunk_overlap para
                         (Z.max 0 (end_ - chunk_overlap)))
      else []
  end.

(** The body of [for para in paragraphs] (lines 95-107). *)
Definition chunk_paragraph (fuel : nat) (chunk_chars chunk_overlap : Z)
           (ttl para : str) (chunk_id : Z) (chunks : list Chunk)
  : option (list Chunk * Z) :=
  if len para <=? chunk_chars then
    Some (chunks ++ [{| id := chunk_id; title := ttl; text := para |}],
          chunk_id + 1)
  else window_loop fuel chunk_chars chunk_overlap ttl para 0 chunk_id chunks.

Fixpoint chunk_paragraphs (fuel : nat) (chunk_chars chunk_overlap : Z)
         (ttl : str) (paras : list str) (chunk_id : Z) (chunks : list Chunk)
  : option (list Chunk * Z) :=
  match paras with
  | [] => Some (chunks, chunk_id)
  | para :: rest =>
      match chunk_paragraph fuel chunk_chars chunk_overlap ttl para
              chunk_id chunks with
      | Some (chunks', chunk_id') =>
          chunk_paragraphs fuel chunk_chars chunk_overlap ttl rest
            chunk_id' chunks'
      | None => None
      end
  end.

(** [for doc in self.documents] (lines 92-107). *)
Fixpoint chunk_docs (fuel : nat) (chunk_chars chunk_overlap : Z)
         (docs : list Document) (chunk_id : Z) (chunks : list Chunk)
  : option (list Chunk * Z) :=
  match docs with
  | [] => Some (chunks, chunk_id)
  | doc :: rest =>
      match chunk_paragraphs fuel chunk_chars chunk_overlap (doc_title doc)
              (paragraphs (content doc)) chunk_id chunks with
      | Some (chunks', chunk_id') =>
          chunk_docs fuel chunk_chars chunk_overlap rest chunk_id' chunks'
      | None => None
      end
  end.

(** The value [self.chunks] has when [_chunk_documents] returns; [None]
    when it does not return within [fuel] iterations of a [while] loop. *)
Definition chunk_documents (fuel : nat) (chunk_chars chunk_overlap : Z)
           (docs : list Document) : option (list Chunk) :=
  option_map fst (chunk_docs fuel chunk_chars chunk_overlap docs 0 []).

End Chunker.

(* ================================================================== *)
(** * [hashlib.sha256] and the encodings it is fed with *)
(* ================================================================== *)

Module Sha256.

(** A byte string: bytes are the integers 0..255. *)
Definition bytes := list Z.

Definition w32 (x : Z) : Z := x mod 4294967296.
Definition add32 (x y : Z) : Z := w32 (x + y).
Definition rotr (n x : Z) : Z :=
  Z.lor (Z.shiftr x n) (w32 (Z.shiftl x (32 - n))).
Definition xor3 (a b c : Z) : Z := Z.lxor (Z.lxor a b) c.

Definition Ch (x y z : Z) : Z :=
  Z.lxor (Z.land x y) (Z.land (w32 (Z.lnot x)) z).
Definition Maj (x y z : Z) : Z :=
  xor3 (Z.land x y) (Z.land x z) (Z.land y z).
Definition Sigma0 (x : Z) : Z := xor3 (rotr 2 x) (rotr 13 x) (rotr 22 x).
Definition Sigma1 (x : Z) : Z := xor3 (rotr 6 x) (rotr 11 x) (rotr 25 x).
Definition sigma0 (x : Z) : Z := xor3 (rotr 7 x) (rotr 18 x) (Z.shiftr x 3).
Definition sigma1 (x : Z) : Z := xor3 (rotr 17 x) (rotr 19 x) (Z.shiftr x 10).

(** Primality by trial division, and the primes below a bound. *)
Definition is_prime (n : nat) : bool :=
  (2 <=? n)%nat
  && forallb (fun d => negb (n mod d =? 0)%nat) (seq 2 (n - 2)).

Definition primes_below (bound : nat) : list Z :=
  map Z.of_nat (filter is_prime (seq 0 bound)).

(** The integer cube root of [x]: the bits of the root are tried from
    bit [bits - 1] down. *)
Fixpoint cube_root_bits (bits : nat) (x r : Z) : Z :=
  match bits with
  | O => r
  | S b =>
      let r' := r + 2 ^ Z.of_nat b in
      cube_root_bits b x (if r' * r' * r' <=? x then r' else r)
  end.

(** The first 32 bits of the fractional part of the cube root of [p]. *)
Definition frac_cube_root (p : Z) : Z := w32 (cube_root_bits 36 (p * 2 ^ 96) 0).

(** The first 32 bits of the fractional part of the square root of [p]. *)
Definition frac_square_root (p : Z) : Z := w32 (Z.sqrt (p * 2 ^ 64)).

(** The round constants: from the cube roots of the first 64 primes. *)
Definition K : list Z :=
  Eval vm_compute in map frac_cube_root (primes_below 312).

(** The eight working words. *)
Record regs := Regs { ra : Z; rb : Z; rc : Z; rd : Z;
                      re : Z; rf : Z; rg : Z; rh : Z }.

(** The initial hash value: from the square roots of the first 8 primes. *)
Definition H0 : regs :=
  Eval vm_compute in
    match map frac_square_root (primes_below 20) with
    | [a; b; c; d; e; f; g; h] => Regs a b c d e f g h
    | _ => Regs 0 0 0 0 0 0 0 0
    end.

(** Big-endian bytes of [x], [n] of them. *)
Fixpoint be_bytes (n : nat) (x : Z) : bytes :=
  match n with
  | O => []
  | S n' => ((x / 256 ^ Z.of_nat n') mod 256) :: be_bytes n' x
  end.

(** The padded message: a 1 bit, zeros up to 56 mod 64, the bit length. *)
Definition pad (msg : bytes) : bytes :=
  let n := Z.of_nat (length msg) in
  msg ++ [128] ++ repeat 0 (Z.to_nat ((55 - n) mod 64)) ++ be_bytes 8 (8 * n).

(** Big-endian 32-bit words of a byte string. *)
Fixpoint words (fuel : nat) (b : bytes) : list Z :=
  match fuel, b with
  | S fuel', b0 :: b1 :: b2 :: b3 :: rest =>
      (((b0 mod 256) * 256 + b1 mod 256) * 256 + b2 mod 256) * 256 + b3 mod 256
      :: words fuel' rest
  | _, _ => []
  end.

(** The message schedule, most recent word first. *)
Fixpoint extend (n : nat) (w : list Z) : list Z :=
  match n with
  | O => w
  | S n' =>
      let x := add32 (add32 (sigma1 (nth 1 w 0)) (nth 6 w 0))
                     (add32 (sigma0 (nth 14 w 0)) (nth 15 w 0)) in
      extend n' (x :: w)
  end.

Definition round (r : regs) (kw : Z * Z) : regs :=
  let t1 := add32 (add32 (add32 (rh r) (Sigma1 (re r)))
                         (add32 (Ch (re r) (rf r) (rg r)) (fst kw)))
                  (snd kw) in
  let t2 := add32 (Sigma0 (ra r)) (Maj (ra r) (rb r) (rc r)) in
  Regs (add32 t1 t2) (ra r) (rb r) (rc r) (add32 (rd r) t1) (re r) (rf r) (rg r).

Definition compress (h : regs) (block : list Z) : regs :=
  let w := rev (extend 48 (rev block)) in
  let r := fold_left round (combine K w) h in
  Regs (add32 (ra h) (ra r)) (add32 (rb h) (rb r)) (add32 (rc h) (rc r))
       (add32 (rd h) (rd r)) (add32 (re h) (re r)) (add32 (rf h) (rf r))
       (add32 (rg h) (rg r)) (add32 (rh h) (rh r)).

Fixpoint blocks (fuel : nat) (h : regs) (w : list Z) : regs :=
  match fuel, w with
  | S fuel', _ :: _ => blocks fuel' (compress h (firstn 16 w)) (skipn 16 w)
  | _, _ => h
  end.

Definition digest (msg : bytes) : regs :=
  let p := pad msg in
  blocks (length p) H0 (words (length p) p).

Definition hexdigit (n : Z) : ascii :=
  if n <? 10 then ascii_of_N (Z.to_N (48 + n)) else ascii_of_N (Z.to_N (87 + n)).

Definition hex32 (x : Z) : Py.str :=
  map (fun k => hexdigit ((x / 16 ^ k) mod 16)) [7; 6; 5; 4; 3; 2; 1; 0].

(** [m.hexdigest()]: 64 hexadecimal characters. *)
Definition hexdigest (msg : bytes) : Py.str :=
  let r := digest msg in
  hex32 (ra r) ++ hex32 (rb r) ++ hex32 (rc r) ++ hex32 (rd r) ++
  hex32 (re r) ++ hex32 (rf r) ++ hex32 (rg r) ++ hex32 (rh r).

(** [s.encode('utf-8')] for code points below 256. *)
Definition utf8_char (c : ascii) : bytes :=
  let n := Z.of_nat (Py.ord c) in
  if n <? 128 then [n] else [192 + n / 64; 128 + n mod 64].

Definition encode (s : Py.str) : bytes := flat_map utf8_char s.

End Sha256.

(* ================================================================== *)
(** * Exceptions, library objects and the outside world *)
(* ================================================================== *)

(** An exception, with the text [str(e)] gives. *)
Inductive exn := Exception (msg : str).

Definition exn_msg (e : exn) : str := let 'Exception m := e in m.

(** What a call into a library yields: a value or an exception. *)
Inductive Res (A : Type) : Type :=
| Ok (a : A)
| Err (e : exn).
Arguments Err {A} e.

Definition Vector := list Q.
Definition Matrix := list Vector.

(** [SentenceTransformer]: [encode(texts, normalize_embeddings=True)]. *)
Record Encoder := { encode : list str -> Res Matrix }.

(** The dictionary a question-answering pipeline returns; each key may be
    missing. *)
Record QAOut := { qa_answer : option str; qa_score : option Q }.

(** [pipeline("question-answering")]: [qa(question=..., context=...)]. *)
Record QAPipeline := { run_qa : str -> str -> Res QAOut }.

(** [CrossEncoder]: [predict(pairs)]. *)
Record Reranker := { predict : list (str * str) -> Res (list Q) }.

(** What [json.load] finds in a chunk-list file: a list of chunk records
    (what [_save_cache] writes) or some other JSON value. *)
Inductive Json :=
| JList (l : list Chunk)
| JOther.

(** [os.stat_result], the two fields read. *)
Record Stat := { st_size : Z; st_mtime : Q }.

(** The file system and the libraries, as the answers they give. *)
Record World := {
  glob : str -> list str;                       (* glob.glob(pattern) *)
  read_text : str -> Res str;                   (* open(p, 'r').read() *)
  os_stat : str -> Res Stat;                    (* os.stat(p) *)
  makedirs : str -> Res unit;                   (* os.makedirs(p, exist_ok=True) *)
  path_exists : str -> bool;                    (* os.path.exists(p) *)
  json_load : str -> Res Json;                  (* json.load(open(p)) *)
  np_load : str -> Res Matrix;                  (* np.load(p) *)
  np_save : str -> option Matrix -> Res unit;   (* np.save(p, a) *)
  json_dump : str -> list Chunk -> Res unit;    (* json.dump(c, open(p, 'w')) *)
  SentenceTransformer : str -> Res Encoder;
  pipeline : str -> Res QAPipeline;
  CrossEncoder : str -> Res Reranker;
  argsort : list Q -> list nat                  (* np.argsort(a) *)
}.

(** The constructor arguments that stay fixed. *)
Record Config := {
  knowledge_base_dir : str;
  model_name : str;
  qa_model_name : str;
  reranker_model_name : str;
  chunk_chars : Z;
  chunk_overlap : Z;
  batch_size : Z;
  top_k : Z;
  pre_k : Z;
  cache_dir : str
}.

(** The attributes of [self]. *)
Record Engine := {
  cfg : Config;
  documents : list Document;
  chunks : list Chunk;
  embeddings : option Matrix;
  model : option Encoder;
  qa : option QAPipeline;
  reranker : option Reranker;
  _fingerprint : option str;
  initialized : bool
}.

Definition set_documents (d : list Document) (s : Engine) : Engine :=
  {| cfg := cfg s; documents := d; chunks := chunks s;
     embeddings := embeddings s; model := model s; qa := qa s;
     reranker := reranker s; _fingerprint := _fingerprint s;
     initialized := initialized s |}.

Definition set_chunks (c : list Chunk) (s : Engine) : Engine :=
  {| cfg := cfg s; documents := documents s; chunks := c;
     embeddings := embeddings s; model := model s; qa := qa s;
     reranker := reranker s; _fingerprint := _fingerprint s;
     initialized := initialized s |}.

Definition set_embeddings (e : option Matrix) (s : Engine) : Engine :=
  {| cfg := cfg s; documents := documents s; chunks := chunks s;
     embeddings := e; model := model s; qa := qa s;
     reranker := reranker s; _fingerprint := _fingerprint s;
     initialized := initialized s |}.

Definition set_model (m : option Encoder) (s : Engine) : Engine :=
  {| cfg := cfg s; documents := documents s; chunks := chunks s;
     embeddings := embeddings s; model := m; qa := qa s;
     reranker := reranker s; _fingerprint := _fingerprint s;
     initialized := initialized s |}.

Definition set_qa (q : option QAPipeline) (s : Engine) : Engine :=
  {| cfg := cfg s; documents := documents s; chunks := chunks s;
     embeddings := embeddings s; model := model s; qa := q;
     reranker := reranker s; _fingerprint := _fingerprint s;
     initialized := initialized s |}.

Definition set_reranker (r : option Reranker) (s : Engine) : Engine :=
  {| cfg := cfg s; documents := documents s; chunks := chunks s;
     embeddings := embeddings s; model := model s; qa := qa s;
     reranker := r; _fingerprint := _fingerprint s;
     initialized := initialized s |}.

Definition set_fingerprint (f : option str) (s : Engine) : Engine :=
  {| cfg := cfg s; documents := documents s; chunks := chunks s;
     embeddings := embeddings s; model := model s; qa := qa s;
     reranker := reranker s; _fingerprint := f;
     initialized := initialized s |}.

Definition set_initialized (b : bool) (s : Engine) : Engine :=
  {| cfg := cfg s; documents := documents s; chunks := chunks s;
     embeddings := embeddings s; model := model s; qa := qa s;
     reranker := reranker s; _fingerprint := _fingerprint s;
     initialized := b |}.

(** [__init__]: [None] (or an empty name, or a zero [pre_k]) selects the
    default. *)
Definition or_default {A} (x : option (list A)) (d : list A) : list A :=
  match x with
  | Some (c :: l) => c :: l
  | _ => d
  end.

Definition init (kb_dir : str) (name qa_name : option str)
           (cc co bs tk : Z) (rr_name : option str) (pk : option Z)
           (cdir : str) : Engine :=
  {| cfg := {| knowledge_base_dir := kb_dir;
               model_name :=
                 or_default name (lit "sentence-transformers/all-mpnet-base-v2");
               qa_model_name :=
                 or_default qa_name (lit "deepset/roberta-base-squad2");
               reranker_model_name :=
                 or_default rr_name (lit "cross-encoder/ms-marco-MiniLM-L-6-v2");
               chunk_chars := cc;
               chunk_overlap := co;
               batch_size := bs;
               top_k := tk;
               pre_k := match pk with
                        | Some k => if k =? 0 then Z.max (tk * 3) tk else k
                        | None => Z.max (tk * 3) tk
                        end;
               cache_dir := cdir |};
     documents := [];
     chunks := [];
     embeddings := None;
     model := None;
     qa := None;
     reranker := None;
     _fingerprint := None;
     initialized := false |}.

(* ================================================================== *)
(** * The monad of the methods *)
(* ================================================================== *)

(** What a method does to the outside, in order. *)
Inductive Event :=
| CallEncode (texts : list str)
| CallPredict (pairs : list (str * str))
| CallQA (question context : str)
| LoadModel (name : str)
| MakeDirs (path : str)
| WriteFile (path : str).

Record Proc := { self : Engine; trace : list Event }.

(** How a method ends: it returns, it raises, or a loop of it is still
    running when the fuel is spent. *)
Inductive Outcome (A : Type) : Type :=
| Returns (a : A) (p : Proc)
| Raises (e : exn) (p : Proc)
| Spins.
Arguments Raises {A} e p.
Arguments Spins {A}.

Definition M (A : Type) : Type := Proc -> Outcome A.

Definition ret {A} (a : A) : M A := fun p => Returns a p.

Definition bind {A B} (m : M A) (k : A -> M B) : M B :=
  fun p => match m p with
           | Returns a p' => k a p'
           | Raises e p' => Raises e p'
           | Spins => Spins
           end.

Definition raise {A} (e : exn) : M A := fun p => Raises e p.

(** [try: body except Exception as e: handler(e)] *)
Definition try_except {A} (body : M A) (handler : exn -> M A) : M A :=
  fun p => match body p with
           | Raises e p' => handler e p'
           | o => o
           end.

Definition get : M Engine := fun p => Returns (self p) p.

Definition update (f : Engine -> Engine) : M unit :=
  fun p => Returns tt {| self := f (self p); trace := trace p |}.

Definition emit (ev : Event) : M unit :=
  fun p => Returns tt {| self := self p; trace := trace p ++ [ev] |}.

Definition lift {A} (r : Res A) : M A :=
  match r with
  | Ok a => ret a
  | Err e => raise e
  end.

Declare Scope py_scope.
Delimit Scope py_scope with py.
Notation "x <- m ;; k" := (bind m (fun x => k))
  (at level 61, m at next level, right associativity) : py_scope.
Notation "m ;; k" := (bind m (fun _ => k))
  (at level 61, right associativity) : py_scope.
Local Open Scope py_scope.

(* ================================================================== *)
(** * Paths, numbers as text, sorting of names *)
(* ================================================================== *)

(** [os.path.join(a, b)] (POSIX). *)
Definition path_join (a b : str) : str :=
  if startswith b (lit "/") then b
  else if negb (truthy a) || endswith a (chr 47) then a ++ b
  else a ++ lit "/" ++ b.

(** [os.path.basename(p)]: the text after the last slash. *)
Fixpoint basename (p : str) : str :=
  match p with
  | [] => []
  | c :: p' => if existsb (Ascii.eqb (chr 47)) p' then basename p'
               else if Ascii.eqb c (chr 47) then p' else p
  end.

(** [str(n)] for an [int]. *)
Definition str_of_int (n : Z) : str :=
  String.list_ascii_of_string
    (DecimalString.NilZero.string_of_int (Z.to_int n)).

(** [int(x)] for a [float]: truncation toward zero. *)
Definition int_of_float (x : Q) : Z := Z.quot (Qnum x) (Z.pos (Qden x)).

(** [a <= b] on strings: lexicographic by code point. *)
Fixpoint str_leb (a b : str) : bool :=
  match a, b with
  | [], _ => true
  | _ :: _, [] => false
  | x :: a', y :: b' =>
      if (ord x <? ord y)%nat then true
      else if (ord y <? ord x)%nat then false
      else str_leb a' b'
  end.

Fixpoint insert_str (x : str) (l : list str) : list str :=
  match l with
  | [] => [x]
  | y :: l' => if str_leb x y then x :: l else y :: insert_str x l'
  end.

(** [sorted(names)] *)
Definition sorted_str (l : list str) : list str :=
  fold_right insert_str [] l.

(* ================================================================== *)
(** * [_load_documents], [_ensure_cache_dir], [_compute_fingerprint] *)
(* ================================================================== *)

(** The body of [for file_path in files] (lines 77-86): the documents one
    file adds. *)
Definition read_document (w : World) (file_path : str) : list Document :=
  match read_text w file_path with
  | Ok raw =>
      let c := strip raw in
      if truthy c then [{| doc_title := basename file_path; content := c |}]
      else []
  | Err _ => []
  end.

Definition _load_documents (w : World) : M unit :=
  s <- get ;;
  let files := glob w (path_join (knowledge_base_dir (cfg s)) (lit "*.txt")) in
  update (set_documents (flat_map (read_document w) files)).

Definition _chunk_documents (fuel : nat) : M unit :=
  fun p =>
    match Chunker.chunk_documents fuel (chunk_chars (cfg (self p)))
            (chunk_overlap (cfg (self p))) (documents (self p)) with
    | Some c => update (set_chunks c) p
    | None => Spins
    end.

Definition _ensure_cache_dir (w : World) : M unit :=
  s <- get ;;
  emit (MakeDirs (cache_dir (cfg s))) ;;
  try_except (lift (makedirs w (cache_dir (cfg s)))) (fun _ => ret tt).

(** What one corpus file adds to the hash (lines 123-129): nothing when
    [os.stat] raises. *)
Definition file_block (w : World) (fp : str) : Sha256.bytes :=
  match os_stat w fp with
  | Ok st =>
      Sha256.encode (basename fp)
      ++ Sha256.encode (str_of_int (st_size st))
      ++ Sha256.encode (str_of_int (int_of_float (st_mtime st)))
  | Err _ => []
  end.

(** The bytes fed to [m.update], in order. *)
Definition fingerprint_stream (w : World) (c : Config) : Sha256.bytes :=
  Sha256.encode (model_name c)
  ++ Sha256.encode (str_of_int (chunk_chars c))
  ++ Sha256.encode (str_of_int (chunk_overlap c))
  ++ flat_map (file_block w)
       (sorted_str (glob w (path_join (knowledge_base_dir c) (lit "*.txt")))).

Definition _compute_fingerprint (w : World) (c : Config) : str :=
  slice_to (Sha256.hexdigest (fingerprint_stream w c)) 16.
Arguments _compute_fingerprint : simpl never.

(* ================================================================== *)
(** * The cache *)
(* ================================================================== *)

(** How an f-string prints [self._fingerprint]. *)
Definition fmt_fingerprint (f : option str) : str :=
  match f with
  | Some x => x
  | None => lit "None"
  end.

Definition _cache_paths (s : Engine) : str * str :=
  (path_join (cache_dir (cfg s))
     (lit "embeddings-" ++ fmt_fingerprint (_fingerprint s) ++ lit ".npy"),
   path_join (cache_dir (cfg s))
     (lit "chunks-" ++ fmt_fingerprint (_fingerprint s) ++ lit ".json")).
Arguments _cache_paths : simpl never.

Definition _load_cache (w : World) : M bool :=
  s <- get ;;
  let emb_path := fst (_cache_paths s) in
  let chunks_path := snd (_cache_paths s) in
  if path_exists w emb_path && path_exists w chunks_path then
    try_except
      (cached <- lift (json_load w chunks_path) ;;
       match cached with
       | JList cached_chunks =>
           if len cached_chunks =? len (chunks s) then
             update (set_chunks cached_chunks) ;;
             e <- lift (np_load w emb_path) ;;
             update (set_embeddings (Some e)) ;;
             ret true
           else ret false
       | JOther => ret false
       end)
      (fun _ => ret false)
  else ret false.

Definition _save_cache (w : World) : M unit :=
  s <- get ;;
  let emb_path := fst (_cache_paths s) in
  let chunks_path := snd (_cache_paths s) in
  try_except
    (emit (WriteFile emb_path) ;;
     lift (np_save w emb_path (embeddings s)) ;;
     emit (WriteFile chunks_path) ;;
     lift (json_dump w chunks_path (chunks s)))
    (fun _ => ret tt).

(* ================================================================== *)
(** * [initialize] *)
(* ================================================================== *)

(** Lines 44-51: the embeddings, from the cache or computed and saved. *)
Definition load_or_compute_embeddings (w : World) (m : Encoder) : M unit :=
  hit <- _load_cache w ;;
  if negb hit then
    s <- get ;;
    let texts := map text (chunks s) in
    emit (CallEncode texts) ;;
    e <- lift (encode m texts) ;;
    update (set_embeddings (Some e)) ;;
    _save_cache w
  else ret tt.

(** Lines 52-57 and 58-64: the two optional models. *)
Definition load_qa (w : World) : M unit :=
  s <- get ;;
  try_except
    (emit (LoadModel (qa_model_name (cfg s))) ;;
     q <- lift (pipeline w (qa_model_name (cfg s))) ;;
     update (set_qa (Some q)))
    (fun _ => update (set_qa None)).

Definition load_reranker (w : World) : M unit :=
  s <- get ;;
  try_except
    (emit (LoadModel (reranker_model_name (cfg s))) ;;
     r <- lift (CrossEncoder w (reranker_model_name (cfg s))) ;;
     update (set_reranker (Some r)))
    (fun _ => update (set_reranker None)).

(** Lines 35-66: the body of the [try]. *)
Definition initialize_body (fuel : nat) (w : World) : M unit :=
  _load_documents w ;;
  _chunk_documents fuel ;;
  _ensure_cache_dir w ;;
  s <- get ;;
  update (set_fingerprint (Some (_compute_fingerprint w (cfg s)))) ;;
  emit (LoadModel (model_name (cfg s))) ;;
  m <- lift (SentenceTransformer w (model_name (cfg s))) ;;
  update (set_model (Some m)) ;;
  load_or_compute_embeddings w m ;;
  load_qa w ;;
  load_reranker w ;;
  update (set_initialized true).

Definition initialize (fuel : nat) (w : World) : M unit :=
  try_except (initialize_body fuel w)
    (fun _ => update (set_initialized false)).

(* ================================================================== *)
(** * Text functions of the answer builder *)
(* ================================================================== *)

(** [c.lower()] on one character. *)
Definition lower_char (c : ascii) : ascii :=
  let n := ord c in
  if ((65 <=? n) && (n <=? 90)
      || (192 <=? n) && (n <=? 222) && negb (n =? 215))%nat
  then chr (n + 32) else c.

Definition lower (s : str) : str := map lower_char s.

(** The class [\w] of [re] on one character: letters, digits, numeric
    characters and the underscore. *)
Definition isword (c : ascii) : bool :=
  let n := ord c in
  ((48 <=? n) && (n <=? 57) || (65 <=? n) && (n <=? 90) || (n =? 95)
   || (97 <=? n) && (n <=? 122)
   || (n =? 170) || (n =? 178) || (n =? 179) || (n =? 181) || (n =? 185)
   || (n =? 186) || (188 <=? n) && (n <=? 190)
   || (192 <=? n) && (n <=? 214) || (216 <=? n) && (n <=? 246)
   || (248 <=? n))%nat.

(** [re.split(r"\W+", s)]: the pieces between the maximal runs of
    characters outside [\w].  [in_run]: the previous character was in such
    a run. *)
Fixpoint split_nonword (in_run : bool) (s : str) : list str :=
  match s with
  | [] => [[]]
  | c :: s' =>
      if isword c then
        match split_nonword false s' with
        | p :: ps => (c :: p) :: ps
        | [] => [[c]]
        end
      else if in_run then split_nonword true s'
      else [] :: split_nonword true s'
  end.

Definition is_stop (c : ascii) : bool :=
  let n := ord c in ((n =? 46) || (n =? 33) || (n =? 63))%nat.

(** [re.split(r"(?<=[.!?])\s+", s)]: the pieces between the runs of
    whitespace that follow a full stop, an exclamation or a question mark.
    [after_stop]: the previous character was such a mark; [in_run]: a
    separating run is being skipped. *)
Fixpoint split_sentences (after_stop in_run : bool) (s : str) : list str :=
  match s with
  | [] => [[]]
  | c :: s' =>
      if isspace c && (in_run || after_stop) then
        if in_run then split_sentences false true s'
        else [] :: split_sentences false true s'
      else
        match split_sentences (is_stop c) false s' with
        | p :: ps => (c :: p) :: ps
        | [] => [[c]]
        end
  end.

(** [re.sub(r"\s+", " ", s)]: each maximal run of whitespace becomes one
    space.  [in_run]: the previous character was whitespace. *)
Fixpoint collapse_ws (in_run : bool) (s : str) : str :=
  match s with
  | [] => []
  | c :: s' =>
      if isspace c then
        if in_run then collapse_ws true s' else chr 32 :: collapse_ws true s'
      else c :: collapse_ws false s'
  end.

(* ================================================================== *)
(** * [_build_answer] *)
(* ================================================================== *)

(** Lines 214-215. *)
Definition question_tokens (question : str) : list str :=
  filter (fun t => 2 <? len t) (split_nonword false (lower question)).

(** Lines 217-224. *)
Definition select_sentences (tokens : list str) (top_chunks : list Chunk)
  : list str :=
  flat_map
    (fun c =>
       flat_map
         (fun s =>
            let s_clean := strip s in
            if negb (truthy s_clean) then []
            else if existsb (fun tok => contains (lower s_clean) tok) tokens
                 then [s_clean] else [])
         (split_sentences false false (text c)))
    top_chunks.

(** Lines 229-232. *)
Definition summarize (selected_sentences : list str) : str :=
  let summary := join (lit " ") selected_sentences in
  let summary := strip (collapse_ws false summary) in
  if 800 <? len summary then rsplit1_head (chr 32) (slice summary 0 800)
  else summary.

Definition intro_default : str :=
  lit "De acordo com o Programa Farm" ++ [chr 225] ++ lit "cia Popular, ".

Definition _build_answer (question : str) (top_chunks : list Chunk)
           (base_answer : str) : str :=
  let tokens := question_tokens question in
  let selected_sentences := select_sentences tokens top_chunks in
  let selected_sentences :=
    if truthy selected_sentences then selected_sentences
    else map (fun c => strip (text c))
             (filter (fun c => truthy (strip (text c)))
                     (slice_to top_chunks 2)) in
  let summary := summarize selected_sentences in
  let intro :=
    if truthy base_answer then
      if endswith base_answer (chr 46) then base_answer ++ lit ". "
      else base_answer ++ lit ": "
    else intro_default in
  intro ++ summary.

(* ================================================================== *)
(** * [query] *)
(* ================================================================== *)

(** [{"answer": ..., "source": ...}] *)
Record Answer := { answer : str; source : str }.

Definition msg_not_initialized : str :=
  lit "Sistema RAG n" ++ [chr 227] ++ lit "o inicializado.".

Definition msg_no_content : str :=
  lit "Nenhum conte" ++ [chr 250] ++ lit "do dispon" ++ [chr 237]
  ++ lit "vel na base.".

Definition msg_error (e : exn) : str := lit "Erro ao processar: " ++ exn_msg e.

Definition Sistema : str := lit "Sistema".

Definition dot (u v : Vector) : Q :=
  fold_right Qplus 0%Q (map (fun ab => (fst ab * snd ab)%Q) (combine u v)).

(** [np.dot(matrix, vector)]: one product per row; the shapes must agree. *)
Definition np_dot (m : Matrix) (v : Vector) : Res (list Q) :=
  if forallb (fun row => (length row =? length v)%nat) m
  then Ok (map (fun row => dot row v) m)
  else Err (Exception (lit "shapes not aligned")).

(** [[l[i] for i in idx]] *)
Fixpoint index_all {A} (l : list A) (idx : list nat) : Res (list A) :=
  match idx with
  | [] => Ok []
  | i :: idx' =>
      match nth_error l i, index_all l idx' with
      | Some x, Ok xs => Ok (x :: xs)
      | None, _ => Err (Exception (lit "list index out of range"))
      | _, Err e => Err e
      end
  end.

Fixpoint insert_desc {A} (key : A -> Q) (x : A) (l : list A) : list A :=
  match l with
  | [] => [x]
  | y :: l' =>
      if Qle_bool (key y) (key x) then x :: l else y :: insert_desc key x l'
  end.

(** [sorted(l, key=key, reverse=True)]: descending, equal keys in their
    original order. *)
Definition sorted_desc {A} (key : A -> Q) (l : list A) : list A :=
  fold_right (insert_desc key) [] l.

(** Lines 170-171: [pre_k = min(len(self.chunks), self.pre_k)] and
    [np.argsort(sims)[-pre_k:][::-1]]. *)
Definition pre_indices_of (w : World) (sims : list Q) (n_chunks k : Z)
  : list nat :=
  rev (slice_from (argsort w sims) (- Z.min n_chunks k)).

(** Lines 168-172: the pre-shortlist. *)
Definition retrieve (w : World) (question : str) : M (list Chunk) :=
  s <- get ;;
  m <- match model s with
       | Some m => ret m
       | None => raise (Exception
                   (lit "'NoneType' object has no attribute 'encode'"))
       end ;;
  emit (CallEncode [question]) ;;
  vs <- lift (encode m [question]) ;;
  query_embedding <- match vs with
                     | v :: _ => ret v
                     | [] => raise (Exception (lit "index 0 is out of bounds"))
                     end ;;
  emb <- match embeddings s with
         | Some e => ret e
         | None => raise (Exception (lit "unsupported operand type(s)"))
         end ;;
  sims <- lift (np_dot emb query_embedding) ;;
  let pre_indices :=
    pre_indices_of w sims (len (chunks s)) (pre_k (cfg s)) in
  lift (index_all (chunks s) pre_indices).

(** Lines 174-184: the top chunks. *)
Definition rerank (question : str) (pre_chunks : list Chunk)
  : M (list Chunk) :=
  s <- get ;;
  match reranker s with
  | Some r =>
      try_except
        (let pairs := map (fun c => (question, text c)) pre_chunks in
         emit (CallPredict pairs) ;;
         scores <- lift (predict r pairs) ;;
         let ranked := sorted_desc snd (combine pre_chunks scores) in
         ret (map fst (slice_to ranked (top_k (cfg s)))))
        (fun _ => ret (slice_to pre_chunks (top_k (cfg s))))
  | None => ret (slice_to pre_chunks (top_k (cfg s)))
  end.

(** [", ".join(dict.fromkeys(sources))] *)
Definition sources_of (top_chunks : list Chunk) : str :=
  join (lit ", ") (fromkeys [] (map title top_chunks)).

(** The literal [0.15]: the double it denotes, 5404319552844595 / 2^55, so
    that [score >= 0.15] on doubles is [threshold <= score] on their
    values. *)
Definition threshold : Q := 5404319552844595 # 36028797018963968.

(** Line 185: the top chunks joined by blank lines. *)
Definition context_of (top_chunks : list Chunk) : str :=
  join [chr 10; chr 10] (map text top_chunks).

(** Lines 192-193: [qa_out.get('answer', '').strip()] and
    [qa_out.get('score', 0.0)]. *)
Definition qa_candidate (qa_out : QAOut) : str :=
  strip (match qa_answer qa_out with
         | Some a => a
         | None => []
         end).

Definition qa_confidence (qa_out : QAOut) : Q :=
  match qa_score qa_out with
  | Some x => x
  | None => 0%Q
  end.

(** Lines 189-201: the answer of the question-answering model, when it is
    accepted ([None]: go on to the fallback). *)
Definition focused_answer (question : str) (top_chunks : list Chunk)
  : M (option Answer) :=
  s <- get ;;
  match qa s with
  | Some q =>
      try_except
        (emit (CallQA question (context_of top_chunks)) ;;
         qa_out <- lift (run_qa q question (context_of top_chunks)) ;;
         let ans := qa_candidate qa_out in
         let score := qa_confidence qa_out in
         if truthy ans && Qle_bool threshold score then
           if len ans <? 40 then
             ret (Some {| answer := _build_answer question top_chunks ans;
                          source := sources_of top_chunks |})
           else
             ret (Some {| answer := ans; source := sources_of top_chunks |})
         else ret None)
        (fun _ => ret None)
  | None => ret None
  end.

(** Lines 185-205: the answer drawn from the top chunks. *)
Definition extract (question : str) (top_chunks : list Chunk) : M Answer :=
  focused <- focused_answer question top_chunks ;;
  match focused with
  | Some a => ret a
  | None =>
      ret {| answer := _build_answer question top_chunks [];
             source := sources_of top_chunks |}
  end.

(** Lines 165-205: the body of the outer [try]. *)
Definition query_body (w : World) (question : str) : M Answer :=
  s <- get ;;
  if negb (truthy (chunks s)) then
    ret {| answer := msg_no_content; source := Sistema |}
  else
    pre_chunks <- retrieve w question ;;
    top_chunks <- rerank question pre_chunks ;;
    extract question top_chunks.

Definition query (w : World) (question : str) : M Answer :=
  s <- get ;;
  if negb (initialized s) then
    ret {| answer := msg_not_initialized; source := Sistema |}
  else
    try_except (query_body w question)
      (fun e => ret {| answer := msg_error e; source := Sistema |}).

(* ================================================================== *)
(** * What the specification says of [np.argsort] and of the ranking *)
(* ================================================================== *)

(** The contract of [np.argsort]: the indices of the array, each once, in
    an order that makes the values ascend.  The default sort is not stable:
    nothing is promised on the order of equal values. *)
Definition ascending_on (a : list Q) (i j : nat) : Prop :=
  (nth i a 0 <= nth j a 0)%Q.

Definition is_argsort_of (a : list Q) (idx : list nat) : Prop :=
  Permutation idx (seq 0 (length a)) /\ StronglySorted (ascending_on a) idx.

Definition argsort_ok (f : list Q -> list nat) : Prop :=
  forall a, is_argsort_of a (f a).

Fixpoint insert_asc (x : nat * Q) (l : list (nat * Q)) : list (nat * Q) :=
  match l with
  | [] => [x]
  | y :: l' =>
      if Qle_bool (snd x) (snd y) then x :: l else y :: insert_asc x l'
  end.

(** A stable [argsort] ([kind='stable'], and what the default does on
    short arrays): equal values keep their index order. *)
Definition argsort_stable (a : list Q) : list nat :=
  map fst (fold_right insert_asc [] (combine (seq 0 (length a)) a)).

(** The ranking in the words of the specification: the [k] best scores in
    descending order, equal scores in original chunk order. *)
Definition spec_ranking (sims : list Q) (k : Z) : list nat :=
  firstn (Z.to_nat (Z.min k (len sims)))
         (map fst (sorted_desc snd (combine (seq 0 (length sims)) sims))).

(* ================================================================== *)
(** * What the specification says of the summary *)
(* ================================================================== *)

(** The text of lines 229-230: the sentences joined, the whitespace
    collapsed, the ends trimmed. *)
Definition collapsed_text (selected_sentences : list str) : str :=
  strip (collapse_ws false (join (lit " ") selected_sentences)).

(** Every whitespace character of [s] is a space, and no two spaces are
    adjacent.  [after_space]: the character before [s] was a space. *)
Fixpoint single_spaced (after_space : bool) (s : str) : bool :=
  match s with
  | [] => true
  | c :: s' =>
      if isspace c
      then Ascii.eqb c (chr 32) && negb after_space && single_spaced true s'
      else single_spaced false s'
  end.

(** [cut] is the start of [full] and stops where a word of [full] stops:
    at the end of [full] or in front of a space. *)
Definition at_word_end (full cut : str) : Prop :=
  exists rest, full = cut ++ rest
               /\ (rest = [] \/ exists rest', rest = chr 32 :: rest').

Definition has_space (s : str) : bool := existsb (Ascii.eqb (chr 32)) s.

(* ================================================================== *)
(** * What the specification says of the fingerprint *)
(* ================================================================== *)

(** A hexadecimal digit as [hexdigest] writes it. *)
Definition is_hex (c : ascii) : bool :=
  let n := ord c in
  ((48 <=? n) && (n <=? 57) || (97 <=? n) && (n <=? 102))%nat.

(** The corpus pattern of a configuration. *)
Definition corpus_pattern (c : Config) : str :=
  path_join (knowledge_base_dir c) (lit "*.txt").

(** The same inputs: model name, chunk size, overlap, and the files with
    their names, sizes and modification times (whatever [os.stat] gives for
    them). *)
Definition same_inputs (w : World) (c : Config) (w' : World) (c' : Config)
  : Prop :=
  model_name c = model_name c'
  /\ chunk_chars c = chunk_chars c'
  /\ chunk_overlap c = chunk_overlap c'
  /\ glob w (corpus_pattern c) = glob w' (corpus_pattern c')
  /\ forall fp, In fp (glob w (corpus_pattern c)) ->
                os_stat w fp = os_stat w' fp.

(** The same files, with the same [os.stat] everywhere but at [fp]. *)
Definition same_files_but (fp : str) (w : World) (c : Config)
           (w' : World) (c' : Config) : Prop :=
  glob w (corpus_pattern c) = glob w' (corpus_pattern c')
  /\ NoDup (glob w (corpus_pattern c))
  /\ In fp (glob w (corpus_pattern c))
  /\ forall fp', fp' <> fp -> os_stat w fp' = os_stat w' fp'.

(** One input has changed, and it is not a file name. *)
Inductive one_input_changed (w : World) (c : Config) (w' : World) (c' : Config)
  : Prop :=
| changed_model_name :
    model_name c <> model_name c' ->
    chunk_chars c = chunk_chars c' -> chunk_overlap c = chunk_overlap c' ->
    flat_map (file_block w) (sorted_str (glob w (corpus_pattern c)))
    = flat_map (file_block w') (sorted_str (glob w' (corpus_pattern c'))) ->
    one_input_changed w c w' c'
| changed_chunk_chars :
    model_name c = model_name c' ->
    chunk_chars c <> chunk_chars c' -> chunk_overlap c = chunk_overlap c' ->
    flat_map (file_block w) (sorted_str (glob w (corpus_pattern c)))
    = flat_map (file_block w') (sorted_str (glob w' (corpus_pattern c'))) ->
    one_input_changed w c w' c'
| changed_chunk_overlap :
    model_name c = model_name c' ->
    chunk_chars c = chunk_chars c' -> chunk_overlap c <> chunk_overlap c' ->
    flat_map (file_block w) (sorted_str (glob w (corpus_pattern c)))
    = flat_map (file_block w') (sorted_str (glob w' (corpus_pattern c'))) ->
    one_input_changed w c w' c'
| changed_file_size fp st st' :
    model_name c = model_name c' ->
    chunk_chars c = chunk_chars c' -> chunk_overlap c = chunk_overlap c' ->
    same_files_but fp w c w' c' ->
    os_stat w fp = Ok st -> os_stat w' fp = Ok st' ->
    st_size st <> st_size st' ->
    int_of_float (st_mtime st) = int_of_float (st_mtime st') ->
    one_input_changed w c w' c'
| changed_file_mtime fp st st' :
    model_name c = model_name c' ->
    chunk_chars c = chunk_chars c' -> chunk_overlap c = chunk_overlap c' ->
    same_files_but fp w c w' c' ->
    os_stat w fp = Ok st -> os_stat w' fp = Ok st' ->
    st_size st = st_size st' ->
    int_of_float (st_mtime st) <> int_of_float (st_mtime st') ->
    one_input_changed w c w' c'.

(** Two different byte strings on which the first 16 hexadecimal digits of
    SHA-256 agree. *)
Definition sha256_collision16 (a b : Sha256.bytes) : Prop :=
  a <> b /\ slice_to (Sha256.hexdigest a) 16 = slice_to (Sha256.hexdigest b) 16.

(* ================================================================== *)
(** * A small world to run the engine in *)
(* ================================================================== *)

Module Demo.

Definition paragraph : str :=
  lit "O programa oferece medicamentos gratuitos para hipertens"
  ++ [chr 227] ++ lit "o e diabetes.".

(** An encoder that maps a text to the vector (length, 1). *)
Definition encoder : Encoder :=
  {| encode := fun texts => Ok (map (fun t => [inject_Z (len t); 1%Q]) texts) |}.

Definition unavailable {A} : Res A := Err (Exception (lit "unavailable")).

(** One file [farmacia.txt], no cache, no QA model, no reranker. *)
Definition world : World :=
  {| glob := fun _ => [lit "knowledge_base/farmacia.txt"];
     read_text := fun _ => Ok (paragraph ++ [chr 10]);
     os_stat := fun _ => Ok {| st_size := 70; st_mtime := 3400000001 # 2 |};
     makedirs := fun _ => Ok tt;
     path_exists := fun _ => false;
     json_load := fun _ => unavailable;
     np_load := fun _ => unavailable;
     np_save := fun _ _ => Ok tt;
     json_dump := fun _ _ => Ok tt;
     SentenceTransformer := fun _ => Ok encoder;
     pipeline := fun _ => unavailable;
     CrossEncoder := fun _ => unavailable;
     argsort := argsort_stable |}.

Definition engine0 : Engine :=
  init (lit "knowledge_base") None None 700 80 32 5 None None (lit "cache").

Definition start : Proc := {| self := engine0; trace := [] |}.

Definition chunk0 : Chunk :=
  {| id := 0; title := lit "farmacia.txt"; text := paragraph |}.

(** The engine after [initialize()] in [world]. *)
Definition ready : Engine :=
  {| cfg := cfg engine0;
     documents := [{| doc_title := lit "farmacia.txt"; content := paragraph |}];
     chunks := [chunk0];
     embeddings := Some [[70 # 1; 1]]%Q;
     model := Some encoder;
     qa := None;
     reranker := None;
     _fingerprint := Some (_compute_fingerprint world (cfg engine0));
     initialized := true |}.

(** A world whose cache holds, under the fingerprint of [ready], a chunk
    file with one chunk and an embedding file with two rows. *)
Definition stale_world : World :=
  {| glob := glob world;
     read_text := read_text world;
     os_stat := os_stat world;
     makedirs := makedirs world;
     path_exists := fun _ => true;
     json_load := fun _ => Ok (JList [chunk0]);
     np_load := fun _ => Ok [[1; 0]; [0; 1]]%Q;
     np_save := np_save world;
     json_dump := json_dump world;
     SentenceTransformer := SentenceTransformer world;
     pipeline := pipeline world;
     CrossEncoder := CrossEncoder world;
     argsort := argsort world |}.

(** [ready] as it is when [_load_cache] is called: no embeddings yet. *)
Definition before_cache : Proc :=
  {| self := set_initialized false (set_embeddings None ready); trace := [] |}.

(** [ready] with a model that raises on every call. *)
Definition broken : Proc :=
  {| self := set_model (Some {| encode := fun _ => unavailable |}) ready;
     trace := [] |}.

(** A question-answering model that answers "medicamentos gratuitos"
    with the score it is built with. *)
Definition qa_scoring (score : Q) : QAPipeline :=
  {| run_qa := fun _ _ =>
       Ok {| qa_answer := Some (lit " medicamentos gratuitos ");
             qa_score := Some score |} |}.

Definition with_qa (score : Q) : Proc :=
  {| self := set_qa (Some (qa_scoring score)) ready; trace := [] |}.

Definition question : str := lit "quais medicamentos gratuitos".

(** Two chunks of the same length, which [encoder] maps to the same
    vector: their similarity to any question is the same. *)
Definition chunk_a : Chunk :=
  {| id := 0; title := lit "a.txt"; text := lit "primeiro" |}.
Definition chunk_b : Chunk :=
  {| id := 1; title := lit "b.txt"; text := lit ", segundo" |}.

Definition tied : Proc :=
  {| self := set_embeddings (Some [[8 # 1; 1]; [8 # 1; 1]]%Q)
               (set_chunks [chunk_a; chunk_b] ready);
     trace := [] |}.

(** [world] with other files in the knowledge base, each of size 1 and
    of modification time 1. *)
Definition with_files (names : list str) : World :=
  {| glob := fun _ => names;
     read_text := read_text world;
     os_stat := fun _ => Ok {| st_size := 1; st_mtime := 1 |};
     makedirs := makedirs world;
     path_exists := path_exists world;
     json_load := json_load world;
     np_load := np_load world;
     np_save := np_save world;
     json_dump := json_dump world;
     SentenceTransformer := SentenceTransformer world;
     pipeline := pipeline world;
     CrossEncoder := CrossEncoder world;
     argsort := argsort world |}.

(** Two files, and the same two after the first has been renamed. *)
Definition names_before : list str :=
  [lit "knowledge_base/a.txt11b.txt";
   lit "knowledge_base/a.txt11b.txt11a.txt"].

Definition names_after : list str :=
  [lit "knowledge_base/b.txt11a.txt";
   lit "knowledge_base/a.txt11b.txt11a.txt"].

(** [world] after one more byte has been written to [farmacia.txt]. *)
Definition world_grown : World :=
  {| glob := glob world;
     read_text := read_text world;
     os_stat := fun fp =>
       if str_eqb fp (lit "knowledge_base/farmacia.txt")
       then Ok {| st_size := 71; st_mtime := 3400000001 # 2 |}
       else os_stat world fp;
     makedirs := makedirs world;
     path_exists := path_exists world;
     json_load := json_load world;
     np_load := np_load world;
     np_save := np_save world;
     json_dump := json_dump world;
     SentenceTransformer := SentenceTransformer world;
     pipeline := pipeline world;
     CrossEncoder := CrossEncoder world;
     argsort := argsort world |}.

(** A chunk whose text is one word of 801 letters (a window above 800,
    or a chunk list read from the cache, allows it). *)
Definition long_word : str := repeat (chr 97) 801.

Definition chunk_long_word : Chunk :=
  {| id := 0; title := lit "longo.txt"; text := long_word |}.

(** A corpus of one paragraph of 701 letters, chunked with a window of
    700 and an overlap of 700 ([CHUNK_OVERLAP=700]). *)
Definition long_para : str := repeat (chr 97) 701.

Definition long_world : World :=
  {| glob := fun _ => [lit "knowledge_base/longo.txt"];
     read_text := fun _ => Ok long_para;
     os_stat := os_stat world;
     makedirs := makedirs world;
     path_exists := path_exists world;
     json_load := json_load world;
     np_load := np_load world;
     np_save := np_save world;
     json_dump := json_dump world;
     SentenceTransformer := SentenceTransformer world;
     pipeline := pipeline world;
     CrossEncoder := CrossEncoder world;
     argsort := argsort world |}.

Definition start_700_700 : Proc :=
  {| self := init (lit "knowledge_base") None None 700 700 32 5 None None
                  (lit "cache");
     trace := [] |}.

End Demo.

(* ================================================================== *)
(** * The chunker as a map over the corpus *)
(* ================================================================== *)

(** The chunk records of a list of (title, text) pairs, numbered from
    [chunk_id] on. *)
Fixpoint numbered (chunk_id : Z) (items : list (str * str)) : list Chunk :=
  match items with
  | [] => []
  | (ttl, txt) :: rest =>
      {| id := chunk_id; title := ttl; text := txt |}
      :: numbered (chunk_id + 1) rest
  end.

(** The window of a paragraph that starts at [start]. *)
Definition window_text (chunk_chars : Z) (para : str) (start : Z) : str :=
  slice para start (Z.min (len para) (start + chunk_chars)).

(** The texts one paragraph is cut into. *)
Definition paragraph_texts (fuel : nat) (chunk_chars chunk_overlap : Z)
           (para : str) : list str :=
  if len para <=? chunk_chars then [para]
  else map (window_text chunk_chars para)
           (Chunker.window_starts fuel chunk_chars chunk_overlap para 0).

(** The (title, text) pairs of a corpus, in chunk order. *)
Definition corpus_items (fuel : nat) (chunk_chars chunk_overlap : Z)
           (docs : list Document) : list (str * str) :=
  flat_map
    (fun d =>
       map (pair (doc_title d))
           (flat_map (paragraph_texts fuel chunk_chars chunk_overlap)
                     (Chunker.paragraphs (content d))))
    docs.

(* ================================================================== *)
(** * [app.py]: the keyword answers and the chat endpoint *)
(* ================================================================== *)

(** A literal of the source, written in UTF-8, as code points.  Only the
    one- and two-byte sequences of code points below 256 occur. *)
Fixpoint u_bytes (b : list ascii) : str :=
  match b with
  | [] => []
  | c :: r =>
      if (ord c <? 128)%nat then c :: u_bytes r
      else match r with
           | d :: r' => chr ((ord c - 192) * 64 + (ord d - 128)) :: u_bytes r'
           | [] => [c]
           end
  end.

Definition u (s : String.string) : str :=
  u_bytes (String.list_ascii_of_string s).
Arguments u s%_string_scope.

(** The dictionaries, as the lists of their items in insertion order. *)
Definition RESPOSTAS : list (str * str) :=
  [
   (u "Olá",
    u "Olá! Como posso ajudar você hoje? Posso informar sobre o Programa Farmácia Popular do Brasil.");
   (u "Oi",
    u "Olá! Como posso ajudar você hoje? Posso informar sobre o Programa Farmácia Popular do Brasil.");
   (u "o que é",
    u "O Programa Farmácia Popular do Brasil é uma iniciativa do Governo Federal que oferece medicamentos gratuitos ou com descontos de até 90% para tratamento de doenças comuns na população.");
   (u "como funciona",
    u "O programa funciona em duas modalidades: Rede Própria (unidades próprias) e Sistema de Co-pagamento (parceria com farmácias privadas). Para utilizar, é necessário apresentar documento de identidade, CPF e receita médica válida.");
   (u "medicamentos",
    u "O programa oferece medicamentos para hipertensão, diabetes, asma, dislipidemia, rinite, doença de Parkinson, osteoporose, glaucoma, entre outros. Alguns são totalmente gratuitos, como os para hipertensão e diabetes.");
   (u "quem pode usar",
    u "Qualquer cidadão brasileiro pode utilizar o Programa Farmácia Popular, independentemente da idade ou condição socioeconômica. É necessário apenas apresentar documentos pessoais e receita médica válida nas farmácias credenciadas.");
   (u "onde encontrar",
    u "As farmácias credenciadas podem ser identificadas pela marca do Programa Farmácia Popular do Brasil. Você também pode consultar as unidades mais próximas no site do Ministério da Saúde ou pelo telefone 136.");
   (u "documentos",
    u "Para adquirir medicamentos, é necessário apresentar: documento de identidade com foto, CPF e receita médica válida (do SUS ou particular) dentro do prazo de validade (geralmente 120 dias para medicamentos de uso contínuo).");
   (u "gratuitos",
    u "Os medicamentos gratuitos incluem: Losartana, Captopril, Propranolol, Atenolol, Metformina, Glibenclamida, Insulina NPH, Insulina Regular, Salbutamol e outros para hipertensão, diabetes e asma.")
  ].

Definition SINONIMOS : list (str * str) :=
  [
   (u "oi",
    u "Oi");
   (u "olá",
    u "Olá");
   (u "ola",
    u "Olá");
   (u "bom dia",
    u "Olá");
   (u "boa tarde",
    u "Olá");
   (u "boa noite",
    u "Olá");
   (u "gratuidade",
    u "gratuitos");
   (u "gratis",
    u "gratuitos");
   (u "gratuito",
    u "gratuitos")
  ].

(** [d.get(key)] *)
Fixpoint dict_get (d : list (str * str)) (key : str) : option str :=
  match d with
  | [] => None
  | (k, v) :: d' => if str_eqb k key then Some v else dict_get d' key
  end.

(** The first loop of [match_fallback]: the answer of the first synonym
    found in the question is returned, be it [None]. *)
Fixpoint match_sinonimos (items : list (str * str)) (query_lower : str)
  : option (option str) :=
  match items with
  | [] => None
  | (termo, chave) :: rest =>
      if contains query_lower termo then Some (dict_get RESPOSTAS chave)
      else match_sinonimos rest query_lower
  end.

(** The second loop: the first key whose lower case is in the question. *)
Fixpoint match_respostas (items : list (str * str)) (query_lower : str)
  : option str :=
  match items with
  | [] => None
  | (palavra_chave, texto) :: rest =>
      if contains query_lower (lower palavra_chave) then Some texto
      else match_respostas rest query_lower
  end.

Definition match_fallback (query_lower : str) : option str :=
  match match_sinonimos SINONIMOS query_lower with
  | Some r => r
  | None => match_respostas RESPOSTAS query_lower
  end.

Definition msg_invalid : str := u "Por favor, envie uma pergunta válida.".

Definition ministerio : str :=
  u "Ministério da Saúde - Programa Farmácia Popular do Brasil".

Definition msg_default : str :=
  u "O Programa Farmácia Popular oferece medicamentos gratuitos ou com desconto "
  ++ u "para a população. Para mais informações, pergunte sobre como funciona, "
  ++ u "medicamentos disponíveis, documentos necessários ou onde encontrar.".

(** [chat()], from the value of [data.get('message', '')] and the global
    [rag_engine] to the answer sent back.  The engine is run on its own
    trace; prints are left out. *)
Definition chat (w : World) (rag_engine : option Engine)
           (message : option str) : Answer :=
  let query_ := strip (match message with Some m => m | None => [] end) in
  let query_lower := lower query_ in
  if negb (truthy query_) then {| answer := msg_invalid; source := Sistema |}
  else
    let fallback := {| answer := msg_default; source := ministerio |} in
    let ask_engine :=
      match rag_engine with
      | Some engine =>
          if initialized engine then
            match query w query_ {| self := engine; trace := [] |} with
            | Returns result _ =>
                {| answer := answer result; source := source result |}
            | _ => fallback
            end
          else fallback
      | None => fallback
      end in
    match match_fallback query_lower with
    | Some resposta_fallback =>
        if truthy resposta_fallback
        then {| answer := resposta_fallback; source := ministerio |}
        else ask_engine
    | None => ask_engine
    end.

(** [status()] *)
Definition status (rag_engine : option Engine) : str :=
  match rag_engine with
  | Some engine => if initialized engine then lit "ready" else lit "loading"
  | None => lit "loading"
  end.

(* ================================================================== *)
(** * More sample data *)
(* ================================================================== *)

Module Sample.

(** A document of two paragraphs; the first is longer than a window of
    four characters. *)
Definition docs : list Document :=
  [{| doc_title := lit "a.txt";
      content := lit "abcdefghij" ++ [chr 10] ++ lit "xy" |}].

(** Its chunks for a window of 4 and an overlap of 1. *)
Definition pieces : list Chunk :=
  [{| id := 0; title := lit "a.txt"; text := lit "abcd" |};
   {| id := 1; title := lit "a.txt"; text := lit "defg" |};
   {| id := 2; title := lit "a.txt"; text := lit "ghij" |};
   {| id := 3; title := lit "a.txt"; text := lit "xy" |}].

(** [Demo.world] with a cache directory that cannot be made, a cache that
    is there but cannot be read, and writes that fail. *)
Definition hostile : World :=
  {| glob := glob Demo.world;
     read_text := read_text Demo.world;
     os_stat := os_stat Demo.world;
     makedirs := fun _ => Demo.unavailable;
     path_exists := fun _ => true;
     json_load := fun _ => Demo.unavailable;
     np_load := fun _ => Demo.unavailable;
     np_save := fun _ _ => Demo.unavailable;
     json_dump := fun _ _ => Demo.unavailable;
     SentenceTransformer := SentenceTransformer Demo.world;
     pipeline := pipeline Demo.world;
     CrossEncoder := CrossEncoder Demo.world;
     argsort := argsort Demo.world |}.

(** A reranker whose score is the length of the text. *)
Definition by_length : Reranker :=
  {| predict := fun pairs =>
       Ok (map (fun qc => inject_Z (len (snd qc))) pairs) |}.

Definition with_reranker : Proc :=
  {| self := set_reranker (Some by_length)
               (set_chunks [Demo.chunk_a; Demo.chunk_b] Demo.ready);
     trace := [] |}.

(** [Demo.world] without an embedding model to load. *)
Definition no_model : World :=
  {| glob := glob Demo.world;
     read_text := read_text Demo.world;
     os_stat := os_stat Demo.world;
     makedirs := makedirs Demo.world;
     path_exists := path_exists Demo.world;
     json_load := json_load Demo.world;
     np_load := np_load Demo.world;
     np_save := np_save Demo.world;
     json_dump := json_dump Demo.world;
     SentenceTransformer := fun _ => Demo.unavailable;
     pipeline := pipeline Demo.world;
     CrossEncoder := CrossEncoder Demo.world;
     argsort := argsort Demo.world |}.

(** [Demo.tied] of an engine made with [top_k = 0] and no [pre_k]: its
    [pre_k] is [max(0 * 3, 0) = 0]. *)
Definition no_shortlist : Proc :=
  {| self :=
       {| cfg := cfg (init (lit "knowledge_base") None None 700 80 32 0 None
                           None (lit "cache"));
          documents := documents (self Demo.tied);
          chunks := chunks (self Demo.tied);
          embeddings := embeddings (self Demo.tied);
          model := model (self Demo.tied);
          qa := qa (self Demo.tied);
          reranker := reranker (self Demo.tied);
          _fingerprint := _fingerprint (self Demo.tied);
          initialized := initialized (self Demo.tied) |};
     trace := [] |}.

Definition file_a : str := lit "knowledge_base/a.txt".
Definition file_b : str := lit "knowledge_base/b.txt".

End Sample.

(* ================================================================== *)
(** * Predicates used by the statements *)
(* ================================================================== *)

Unset Implicit Arguments.

(** Fuel that is enough for a corpus: one more than its longest
    paragraph. *)
Definition enough_fuel (docs : list Document) : nat :=
  S (list_max (map (@length ascii)
                   (flat_map (fun d => Chunker.paragraphs (content d)) docs))).

(** The method never ends by an exception. *)
Definition never_raises {A} (m : M A) : Prop :=
  forall p e p', m p <> Raises e p'.

(** The method returns from every state. *)
Definition always_returns {A} (m : M A) : Prop :=
  forall p, exists a p', m p = Returns a p'.

(** [wp m Q E p]: run from [p], the method [m] satisfies [Q] if it returns
    and [E] if it raises. *)
Definition wp {A} (m : M A) (Q : A -> Proc -> Prop)
           (E : exn -> Proc -> Prop) (p : Proc) : Prop :=
  match m p with
  | Returns a p' => Q a p'
  | Raises e p' => E e p'
  | Spins => True
  end.

(** No loop in the method: it returns or raises. *)
Definition never_spins {A} (m : M A) : Prop := forall p, m p <> Spins.

(** An answer of the engine itself. *)
Definition system_answer (msg : str) : Answer :=
  {| answer := msg; source := Sistema |}.

(** The documents [_load_documents] reads for a configuration. *)
Definition loaded_documents (w : World) (c : Config) : list Document :=
  flat_map (read_document w)
           (glob w (path_join (knowledge_base_dir c) (lit "*.txt"))).

(** What is in place when every step of [initialize] has been done, from
    the state [s0] it started in to the state [s1] it ends in. *)
Record steps_done (fuel : nat) (w : World) (s0 s1 : Engine) : Prop := {
  done_cfg : cfg s1 = cfg s0;
  done_documents : documents s1 = loaded_documents w (cfg s0);
  done_chunks :
    exists c, Chunker.chunk_documents fuel (chunk_chars (cfg s0))
                (chunk_overlap (cfg s0)) (documents s1) = Some c
              /\ length (chunks s1) = length c;
  done_fingerprint :
    _fingerprint s1 = Some (_compute_fingerprint w (cfg s0));
  done_model :
    exists m, SentenceTransformer w (model_name (cfg s0)) = Ok m
              /\ model s1 = Some m
              /\ exists e, embeddings s1 = Some e
                   /\ (np_load w (fst (_cache_paths s1)) = Ok e
                       \/ encode m (map text (chunks s1)) = Ok e)
}.

(** The fields the later steps of [initialize] leave alone. *)
Definition same_setup (s s' : Engine) : Prop :=
  cfg s' = cfg s /\ documents s' = documents s /\ model s' = model s
  /\ _fingerprint s' = _fingerprint s /\ chunks s' = chunks s
  /\ embeddings s' = embeddings s.

(** The order of the pairs (index, value) by value. *)
Definition le_snd (x y : nat * Q) : Prop := (snd x <= snd y)%Q.

(** The claim in the words of the specification: for every [argsort]
    within the contract of numpy, retrieval returns the chunks at the
    positions of [spec_ranking]. *)
Definition retrieval_as_specified : Prop :=
  forall w question p pre p1 m qv rest emb sims,
    argsort_ok (argsort w) ->
    model (self p) = Some m -> encode m [question] = Ok (qv :: rest) ->
    embeddings (self p) = Some emb ->
    length emb = length (chunks (self p)) ->
    np_dot emb qv = Ok sims ->
    retrieve w question p = Returns pre p1 ->
    map Some pre
    = map (nth_error (chunks (self p)))
          (spec_ranking sims (pre_k (cfg (self p)))).

(** A call to one of the three models (not a file write, not the loading
    of a model). *)
Definition is_model_call (ev : Event) : Prop :=
  match ev with
  | CallEncode _ | CallPredict _ | CallQA _ _ => True
  | _ => False
  end.

(** From [p] to [p'], [self] is the same and at most [n] events were added
    to the trace, all of them calls to a model. *)
Definition only_calls (n : nat) (p p' : Proc) : Prop :=
  self p' = self p
  /\ exists evs, trace p' = trace p ++ evs
                 /\ (length evs <= n)%nat
                 /\ Forall is_model_call evs.

(** The descending order of the keys. *)
Definition ge_key {A} (key : A -> Q) (a b : A) : Prop := (key b <= key a)%Q.

(** The order of [sorted] on strings: by code point, a prefix first. *)
Definition str_le (a b : str) : Prop := str_leb a b = true.

(* ================================================================== *)
(** * Chunking: progress of the window loop *)
(* ================================================================== *)

Module ChunkerFacts.
Import Chunker.

(** When the overlap is at least the window, the loop started at 0 on a
    paragraph longer than the window comes back to 0: it never ends. *)
Lemma window_loop_stuck :
  forall fuel cc co ttl para cid acc,
    0 < cc -> cc <= co -> cc < len para ->
    window_loop fuel cc co ttl para 0 cid acc = None.
Proof.
  induction fuel as [|fuel IH]; intros cc co ttl para cid acc Hcc Hco Hlen.
  - reflexivity.
  - cbn [window_loop].
    destruct (0 <? len para) eqn:E0; [|apply Z.ltb_ge in E0; lia].
    replace (Z.min (len para) (0 + cc)) with cc by lia.
    destruct (cc =? len para) eqn:E1; [apply Z.eqb_eq in E1; lia|].
    replace (Z.max 0 (cc - co)) with 0 by lia.
    now apply IH.
Qed.

Lemma window_starts_stuck :
  forall fuel cc co para,
    0 < cc -> cc <= co -> cc < len para ->
    window_starts fuel cc co para 0 = repeat 0 fuel.
Proof.
  induction fuel as [|fuel IH]; intros cc co para Hcc Hco Hlen.
  - reflexivity.
  - cbn [window_starts repeat].
    destruct (0 <? len para) eqn:E0; [|apply Z.ltb_ge in E0; lia].
    replace (Z.min (len para) (0 + cc)) with cc by lia.
    destruct (cc =? len para) eqn:E1; [apply Z.eqb_eq in E1; lia|].
    replace (Z.max 0 (cc - co)) with 0 by lia.
    f_equal. now apply IH.
Qed.

(** With an overlap below the window the loop ends, within as many
    iterations as the paragraph has characters left. *)
Lemma window_loop_ends :
  forall fuel cc co ttl para start cid acc,
    0 <= co < cc -> 0 <= start ->
    Z.max 0 (len para - start) < Z.of_nat fuel ->
    exists r, window_loop fuel cc co ttl para start cid acc = Some r.
Proof.
  induction fuel as [|fuel IH]; intros cc co ttl para start cid acc Hco Hs Hf.
  - lia.
  - cbn [window_loop].
    destruct (start <? len para) eqn:E0; [|eauto].
    apply Z.ltb_lt in E0.
    destruct (Z.min (len para) (start + cc) =? len para) eqn:E1; [eauto|].
    apply Z.eqb_neq in E1.
    apply IH; lia.
Qed.

(** ... and the starts of its windows go strictly up. *)
Lemma window_starts_increase :
  forall fuel cc co para start,
    0 <= co < cc -> 0 <= start ->
    StronglySorted Z.lt (window_starts fuel cc co para start)
    /\ Forall (fun x => start <= x) (window_starts fuel cc co para start).
Proof.
  induction fuel as [|fuel IH]; intros cc co para start Hco Hs.
  - split; constructor.
  - cbn [window_starts].
    destruct (start <? len para) eqn:E0; [|split; constructor].
    apply Z.ltb_lt in E0.
    destruct (Z.min (len para) (start + cc) =? len para) eqn:E1.
    + split; repeat constructor. lia.
    + apply Z.eqb_neq in E1.
      destruct (IH cc co para (Z.max 0 (Z.min (len para) (start + cc) - co)))
        as [Hsorted Hall]; [lia | lia |].
      split.
      * constructor; [exact Hsorted|].
        eapply Forall_impl; [|exact Hall]. cbn. intros; lia.
      * constructor; [lia|].
        eapply Forall_impl; [|exact Hall]. cbn. intros; lia.
Qed.

Lemma chunk_paragraph_ends :
  forall fuel cc co ttl para cid acc,
    0 <= co < cc -> (length para < fuel)%nat ->
    exists r, chunk_paragraph fuel cc co ttl para cid acc = Some r.
Proof.
  intros. unfold chunk_paragraph.
  destruct (len para <=? cc); [eauto|].
  apply window_loop_ends; unfold len; lia.
Qed.

Lemma chunk_paragraphs_ends :
  forall fuel cc co ttl paras cid acc,
    0 <= co < cc -> Forall (fun para => (length para < fuel)%nat) paras ->
    exists r, chunk_paragraphs fuel cc co ttl paras cid acc = Some r.
Proof.
  intros fuel cc co ttl paras.
  induction paras as [|para rest IH]; intros cid acc Hco Hall.
  - cbn. eauto.
  - inversion Hall as [|? ? Hp Hrest]; subst. cbn [chunk_paragraphs].
    destruct (chunk_paragraph_ends fuel cc co ttl para cid acc Hco Hp)
      as [[acc' cid'] ->].
    now apply IH.
Qed.

Lemma chunk_docs_ends :
  forall fuel cc co docs cid acc,
    0 <= co < cc ->
    Forall (fun para => (length para < fuel)%nat)
           (flat_map (fun d => paragraphs (content d)) docs) ->
    exists r, chunk_docs fuel cc co docs cid acc = Some r.
Proof.
  intros fuel cc co docs.
  induction docs as [|doc rest IH]; intros cid acc Hco Hall.
  - cbn. eauto.
  - cbn [flat_map] in Hall. apply Forall_app in Hall as [Hd Hrest].
    cbn [chunk_docs].
    destruct (chunk_paragraphs_ends fuel cc co (doc_title doc)
                (paragraphs (content doc)) cid acc Hco Hd)
      as [[acc' cid'] ->].
    now apply IH.
Qed.

Lemma chunk_documents_ends :
  forall cc co docs,
    0 <= co < cc ->
    exists c, chunk_documents (enough_fuel docs) cc co docs = Some c.
Proof.
  intros cc co docs Hco. unfold chunk_documents.
  destruct (chunk_docs_ends (enough_fuel docs) cc co docs 0 [] Hco)
    as [[c cid] ->].
  - unfold enough_fuel.
    set (ps := flat_map (fun d => paragraphs (content d)) docs).
    assert (H : Forall (fun k => (k <= list_max (map (@length ascii) ps))%nat)
                       (map (@length ascii) ps))
      by (apply list_max_le; lia).
    rewrite Forall_map in H.
    eapply Forall_impl; [|exact H]. cbn. intros; lia.
  - cbn. eauto.
Qed.

End ChunkerFacts.

(* ================================================================== *)
(** * Reasoning on the monad *)
(* ================================================================== *)

Lemma always_returns_never_raises {A} (m : M A) :
  always_returns m -> never_raises m.
Proof.
  intros H p e p' E. destruct (H p) as (a & p1 & E1). congruence.
Qed.

(** [try ... except Exception] with a handler that returns lets nothing
    out, whatever the body does, unless the body loops. *)
Lemma try_except_never_raises {A} (body : M A) (handler : exn -> M A) :
  (forall e, never_raises (handler e)) ->
  never_raises (try_except body handler).
Proof.
  intros H p e p'. unfold try_except.
  destruct (body p) as [a p1|e1 p1|]; try discriminate.
  apply H.
Qed.

(* ================================================================== *)
(** * C1: a window that does not advance *)
(* ================================================================== *)

Lemma long_para_paragraphs :
  Chunker.paragraphs Demo.long_para = [Demo.long_para].
Proof. vm_compute. reflexivity. Qed.

Lemma long_para_len : len Demo.long_para = 701.
Proof. vm_compute. reflexivity. Qed.

Lemma long_doc_never_chunked :
  forall fuel ttl,
    Chunker.chunk_documents fuel 700 700
      [{| doc_title := ttl; content := Demo.long_para |}] = None.
Proof.
  intros fuel ttl. unfold Chunker.chunk_documents.
  cbn [Chunker.chunk_docs content doc_title].
  rewrite long_para_paragraphs. cbn [Chunker.chunk_paragraphs].
  unfold Chunker.chunk_paragraph. rewrite long_para_len.
  change (701 <=? 700) with false. cbn iota.
  rewrite ChunkerFacts.window_loop_stuck; [reflexivity | lia | lia |].
  rewrite long_para_len. lia.
Qed.

(** C1 (the code at the failing input).  With [chunk_chars = 700] and
    [chunk_overlap = 700], on a corpus of one file holding one paragraph
    of 701 characters, [initialize()] is still inside the [while] loop of
    [_chunk_documents] after any number of iterations, and every window of
    that loop starts at position 0: the start positions do not increase. *)
Theorem chunking_overlap_700_700_never_ends :
  forall fuel,
    initialize fuel Demo.long_world Demo.start_700_700 = Spins
    /\ Chunker.window_starts fuel 700 700 Demo.long_para 0 = repeat 0 fuel.
Proof.
  intros fuel. split.
  - unfold initialize, initialize_body, try_except, bind at 1.
    change (_load_documents Demo.long_world Demo.start_700_700)
      with (Returns tt
              {| self := set_documents
                           [{| doc_title := basename (lit "knowledge_base/longo.txt");
                               content := Demo.long_para |}]
                           (self Demo.start_700_700);
                 trace := [] |}).
    cbn iota beta. unfold bind at 1. unfold _chunk_documents.
    cbn [self set_documents documents cfg chunk_chars chunk_overlap
         Demo.start_700_700 init].
    rewrite long_doc_never_chunked. reflexivity.
  - apply ChunkerFacts.window_starts_stuck; [lia | lia |].
    rewrite long_para_len. lia.
Qed.

(* ================================================================== *)
(** * A small program logic for the methods *)
(* ================================================================== *)

Section Rules.
Context {A B : Type}.
Implicit Types (Q : A -> Proc -> Prop) (E : exn -> Proc -> Prop).

Lemma wp_ret a Q E p : Q a p -> wp (ret a) Q E p.
Proof. exact (fun H => H). Qed.

Lemma wp_raise e Q E p : E e p -> wp (@raise A e) Q E p.
Proof. exact (fun H => H). Qed.

Lemma wp_lift (r : Res A) Q E p :
  match r with Ok a => Q a p | Err e => E e p end -> wp (lift r) Q E p.
Proof. destruct r; exact (fun H => H). Qed.

Lemma wp_bind (m : M A) (k : A -> M B) (Q : B -> Proc -> Prop) E p :
  wp m (fun a p1 => wp (k a) Q E p1) E p -> wp (bind m k) Q E p.
Proof. unfold wp, bind. destruct (m p); auto. Qed.

Lemma wp_try (body : M A) (h : exn -> M A) Q E p :
  wp body Q (fun e p1 => wp (h e) Q E p1) p -> wp (try_except body h) Q E p.
Proof. unfold wp, try_except. destruct (body p); auto. Qed.

Lemma wp_conseq (m : M A) Q Q' E E' p :
  wp m Q E p ->
  (forall a p', Q a p' -> Q' a p') -> (forall e p', E e p' -> E' e p') ->
  wp m Q' E' p.
Proof. unfold wp. destruct (m p); auto. Qed.

Lemma wp_returns (m : M A) Q p :
  never_spins m -> wp m Q (fun _ _ => False) p ->
  exists a p', m p = Returns a p' /\ Q a p'.
Proof.
  unfold wp. intros Hs H. specialize (Hs p).
  destruct (m p) as [a p'| |]; [eauto | contradiction | congruence].
Qed.

Lemma wp_of_returns (m : M A) Q E p a p' :
  wp m Q E p -> m p = Returns a p' -> Q a p'.
Proof. unfold wp. intros H Eq. now rewrite Eq in H. Qed.

Lemma wp_of_raises (m : M A) Q E p e p' :
  wp m Q E p -> m p = Raises e p' -> E e p'.
Proof. unfold wp. intros H Eq. now rewrite Eq in H. Qed.

Lemma ns_ret (a : A) : never_spins (ret a).
Proof. discriminate. Qed.

Lemma ns_raise e : never_spins (@raise A e).
Proof. discriminate. Qed.

Lemma ns_lift (r : Res A) : never_spins (lift r).
Proof. destruct r; discriminate. Qed.

Lemma ns_bind (m : M A) (k : A -> M B) :
  never_spins m -> (forall a, never_spins (k a)) -> never_spins (bind m k).
Proof.
  intros Hm Hk p. unfold bind. specialize (Hm p).
  destruct (m p); [apply Hk | discriminate | congruence].
Qed.

Lemma ns_try (body : M A) (h : exn -> M A) :
  never_spins body -> (forall e, never_spins (h e)) ->
  never_spins (try_except body h).
Proof.
  intros Hb Hh p. unfold try_except. specialize (Hb p).
  destruct (body p); [discriminate | apply Hh | congruence].
Qed.

End Rules.

Lemma wp_get Q E p : Q (self p) p -> wp get Q E p.
Proof. exact (fun H => H). Qed.

Lemma wp_update f (Q : unit -> Proc -> Prop) E p :
  Q tt {| self := f (self p); trace := trace p |} -> wp (update f) Q E p.
Proof. exact (fun H => H). Qed.

Lemma wp_emit ev (Q : unit -> Proc -> Prop) E p :
  Q tt {| self := self p; trace := trace p ++ [ev] |} -> wp (emit ev) Q E p.
Proof. exact (fun H => H). Qed.

Lemma ns_get : never_spins get.
Proof. discriminate. Qed.

Lemma ns_update f : never_spins (update f).
Proof. discriminate. Qed.

Lemma ns_emit ev : never_spins (emit ev).
Proof. discriminate. Qed.

Create HintDb spin.
#[local] Hint Resolve ns_ret ns_raise ns_lift ns_get ns_update ns_emit : spin.

(** Walk down a method made of the combinators, splitting on the tests. *)
Ltac no_spin :=
  repeat (intros; cbv zeta;
          first [ apply ns_bind | apply ns_try
                | solve [auto with spin]
                | match goal with
                  | |- never_spins (match ?x with _ => _ end) => destruct x
                  end ]).

Ltac wp_step :=
  cbv beta zeta;
  lazymatch goal with
  | |- wp (bind _ _) _ _ _ => apply wp_bind
  | |- wp (try_except _ _) _ _ _ => apply wp_try
  | |- wp get _ _ _ => apply wp_get
  | |- wp (update _) _ _ _ => apply wp_update
  | |- wp (emit _) _ _ _ => apply wp_emit
  | |- wp (lift _) _ _ _ => apply wp_lift
  | |- wp (ret _) _ _ _ => apply wp_ret
  | |- wp (raise _) _ _ _ => apply wp_raise
  end.

Lemma ns_load_documents w : never_spins (_load_documents w).
Proof. unfold _load_documents. no_spin. Qed.

Lemma ns_ensure_cache_dir w : never_spins (_ensure_cache_dir w).
Proof. unfold _ensure_cache_dir. no_spin. Qed.

Lemma ns_load_cache w : never_spins (_load_cache w).
Proof. unfold _load_cache. no_spin. Qed.

Lemma ns_save_cache w : never_spins (_save_cache w).
Proof. unfold _save_cache. no_spin. Qed.

Lemma ns_load_or_compute w m : never_spins (load_or_compute_embeddings w m).
Proof.
  unfold load_or_compute_embeddings.
  apply ns_bind; [apply ns_load_cache|]. intros hit.
  destruct (negb hit); no_spin.
Qed.

Lemma ns_load_qa w : never_spins (load_qa w).
Proof. unfold load_qa. no_spin. Qed.

Lemma ns_load_reranker w : never_spins (load_reranker w).
Proof. unfold load_reranker. no_spin. Qed.

Lemma ns_retrieve w q : never_spins (retrieve w q).
Proof. unfold retrieve. no_spin. Qed.

Lemma ns_rerank q pre : never_spins (rerank q pre).
Proof. unfold rerank. no_spin. Qed.

Lemma ns_focused_answer q top : never_spins (focused_answer q top).
Proof. unfold focused_answer. no_spin. Qed.

Lemma ns_extract q top : never_spins (extract q top).
Proof.
  unfold extract. apply ns_bind; [apply ns_focused_answer|]. no_spin.
Qed.

Lemma ns_query_body w q : never_spins (query_body w q).
Proof.
  unfold query_body. apply ns_bind; [apply ns_get|]. intros s.
  destruct (negb (truthy (chunks s))); [apply ns_ret|].
  apply ns_bind; [apply ns_retrieve|]. intros pre.
  apply ns_bind; [apply ns_rerank|]. intros top. apply ns_extract.
Qed.

Lemma ns_query w q : never_spins (query w q).
Proof.
  unfold query. apply ns_bind; [apply ns_get|]. intros s.
  destruct (negb (initialized s)); [apply ns_ret|].
  apply ns_try; [apply ns_query_body | intros; apply ns_ret].
Qed.

(** Shared by the claims on [query]: it returns, whatever the state and
    whatever the models do. *)
Lemma query_always_returns w q : always_returns (query w q).
Proof.
  intros p. pose proof (ns_query w q p) as Hs.
  destruct (query w q p) as [a p'|e p'|] eqn:E; [eauto | | congruence].
  exfalso. revert E. unfold query, bind, get.
  destruct (negb (initialized (self p))); [discriminate|].
  unfold try_except. destruct (query_body w q p); discriminate.
Qed.

(* ================================================================== *)
(** * C2: [query] always answers *)
(* ================================================================== *)

Lemma query_not_initialized w q p :
  initialized (self p) = false ->
  query w q p = Returns (system_answer msg_not_initialized) p.
Proof. intros H. unfold query, bind, get. now rewrite H. Qed.

Lemma query_initialized w q p :
  initialized (self p) = true ->
  query w q p =
  try_except (query_body w q)
    (fun e => ret (system_answer (msg_error e))) p.
Proof. intros H. unfold query, bind, get. now rewrite H. Qed.

(** C2.  [query] returns an answer record from every state and for every
    question and never raises.  When the engine is not initialized, or is
    initialized with an empty chunk list, the answer is a fixed message with
    source "Sistema" and the state and the trace of calls are unchanged: no
    model is invoked.  An exception raised by the body of the pipeline
    becomes the answer "Erro ao processar: ..." with source "Sistema". *)
Theorem query_never_raises :
  forall w question p,
    (exists a p', query w question p = Returns a p')
    /\ (initialized (self p) = false ->
        query w question p
        = Returns (system_answer msg_not_initialized) p)
    /\ (initialized (self p) = true -> chunks (self p) = [] ->
        query w question p = Returns (system_answer msg_no_content) p)
    /\ (forall e p1,
           initialized (self p) = true ->
           query_body w question p = Raises e p1 ->
           query w question p = Returns (system_answer (msg_error e)) p1).
Proof.
  intros w question p. repeat split.
  - apply query_always_returns.
  - apply query_not_initialized.
  - intros Hi Hc. rewrite query_initialized by exact Hi.
    unfold try_except, query_body, bind, get. now rewrite Hc.
  - intros e p1 Hi Hb. rewrite query_initialized by exact Hi.
    unfold try_except. now rewrite Hb.
Qed.

(* ================================================================== *)
(** * The steps of [initialize] *)
(* ================================================================== *)

Lemma len_eqb_length {A B} (a : list A) (b : list B) :
  (len a =? len b) = true <-> length a = length b.
Proof. unfold len. rewrite Z.eqb_eq. lia. Qed.

(** What [_load_cache] does, case by case: a hit installs the cached chunk
    list and the matrix of the embedding file; a miss leaves the state as it
    was, except that a failing [np.load] comes after the chunk list has been
    replaced. *)
Lemma load_cache_cases w p :
  let emb_path := fst (_cache_paths (self p)) in
  let chunks_path := snd (_cache_paths (self p)) in
  (exists cached e,
      path_exists w emb_path = true /\ path_exists w chunks_path = true
      /\ json_load w chunks_path = Ok (JList cached)
      /\ length cached = length (chunks (self p))
      /\ np_load w emb_path = Ok e
      /\ _load_cache w p
         = Returns true
             {| self := set_embeddings (Some e) (set_chunks cached (self p));
                trace := trace p |})
  \/ _load_cache w p = Returns false p
  \/ (exists cached e,
         json_load w chunks_path = Ok (JList cached)
         /\ length cached = length (chunks (self p))
         /\ np_load w emb_path = Err e
         /\ _load_cache w p
            = Returns false
                {| self := set_chunks cached (self p); trace := trace p |}).
Proof.
  cbv zeta. unfold _load_cache, bind, get.
  destruct (path_exists w (fst (_cache_paths (self p)))) eqn:E1;
    [|right; left; now destruct p].
  destruct (path_exists w (snd (_cache_paths (self p)))) eqn:E2;
    [|right; left; now destruct p].
  cbn [andb]. unfold try_except, bind, lift.
  destruct (json_load w (snd (_cache_paths (self p)))) as [[cached|]|e] eqn:E3;
    cbn [ret raise]; try (right; left; now destruct p).
  destruct (len cached =? len (chunks (self p))) eqn:E4;
    [|right; left; now destruct p].
  apply len_eqb_length in E4. unfold update. cbn [self trace].
  destruct (np_load w (fst (_cache_paths (self p)))) as [e|e] eqn:E5;
    cbn [ret raise self trace].
  - left. exists cached, e. repeat split; auto.
  - right; right. exists cached, e. repeat split; auto.
Qed.

Lemma same_setup_refl s : same_setup s s.
Proof. repeat split. Qed.

Lemma cache_paths_frame s s' :
  cfg s' = cfg s -> _fingerprint s' = _fingerprint s ->
  _cache_paths s' = _cache_paths s.
Proof. intros H1 H2. unfold _cache_paths. now rewrite H1, H2. Qed.

Lemma save_cache_spec w p :
  exists t, _save_cache w p = Returns tt {| self := self p; trace := t |}.
Proof.
  unfold _save_cache, bind, get, try_except, emit, lift. cbn.
  destruct (np_save w _ _) as [[]|]; cbn; [|eauto].
  destruct (json_dump w _ _) as [[]|]; cbn; eauto.
Qed.

Lemma ensure_cache_dir_spec w p :
  exists t, _ensure_cache_dir w p = Returns tt {| self := self p; trace := t |}.
Proof.
  unfold _ensure_cache_dir, bind, get, try_except, emit, lift. cbn.
  destruct (makedirs w _) as [[]|]; cbn; eauto.
Qed.

Lemma load_qa_spec w p :
  exists s' t, load_qa w p = Returns tt {| self := s'; trace := t |}
               /\ same_setup (self p) s' /\ initialized s' = initialized (self p).
Proof.
  unfold load_qa, bind, get, try_except, emit, lift. cbn.
  destruct (pipeline w _); cbn; do 2 eexists; repeat split.
Qed.

Lemma load_reranker_spec w p :
  exists s' t, load_reranker w p = Returns tt {| self := s'; trace := t |}
               /\ same_setup (self p) s' /\ initialized s' = initialized (self p).
Proof.
  unfold load_reranker, bind, get, try_except, emit, lift. cbn.
  destruct (CrossEncoder w _); cbn; do 2 eexists; repeat split.
Qed.

(** Lines 44-51 return only with embeddings in place, read from the cache
    file or computed by the model from the current chunk list. *)
Lemma load_or_compute_spec w m p :
  wp (load_or_compute_embeddings w m)
     (fun _ p' =>
        cfg (self p') = cfg (self p)
        /\ documents (self p') = documents (self p)
        /\ model (self p') = model (self p)
        /\ _fingerprint (self p') = _fingerprint (self p)
        /\ initialized (self p') = initialized (self p)
        /\ length (chunks (self p')) = length (chunks (self p))
        /\ exists e, embeddings (self p') = Some e
             /\ (np_load w (fst (_cache_paths (self p'))) = Ok e
                 \/ encode m (map text (chunks (self p'))) = Ok e))
     (fun _ p' => initialized (self p') = initialized (self p)) p.
Proof.
  unfold load_or_compute_embeddings. apply wp_bind.
  destruct (load_cache_cases w p)
    as [(cached & e & _ & _ & _ & Hlen & Hnp & Hrun)
       | [Hrun | (cached & e & _ & Hlen & _ & Hrun)]];
    unfold wp at 1; rewrite Hrun; cbn [negb].
  - apply wp_ret. cbn [self]. repeat split; auto. exists e. split; auto.
  - unfold wp, bind, get, emit, lift, update. cbn [self trace].
    destruct (encode m (map text (chunks (self p)))) as [e|e] eqn:Eenc;
      cbn [ret raise self trace]; [|reflexivity].
    destruct (save_cache_spec w
                {| self := set_embeddings (Some e) (self p);
                   trace := trace p ++ [CallEncode (map text (chunks (self p)))] |})
      as [t ->].
    cbn [self]. repeat split; auto. exists e. split; auto.
  - unfold wp, bind, get, emit, lift, update. cbn [self trace].
    change (chunks (set_chunks cached (self p))) with cached.
    destruct (encode m (map text cached)) as [e'|e'] eqn:Eenc;
      cbn [ret raise self trace]; [|reflexivity].
    destruct (save_cache_spec w
                {| self := set_embeddings (Some e') (set_chunks cached (self p));
                   trace := trace p ++ [CallEncode (map text cached)] |})
      as [t ->].
    cbn [self]. repeat split; auto. exists e'. split; auto.
Qed.

Lemma load_documents_run w p :
  _load_documents w p
  = Returns tt {| self := set_documents (loaded_documents w (cfg (self p)))
                                         (self p);
                  trace := trace p |}.
Proof. reflexivity. Qed.

Lemma chunk_documents_run fuel p :
  _chunk_documents fuel p
  = match Chunker.chunk_documents fuel (chunk_chars (cfg (self p)))
            (chunk_overlap (cfg (self p))) (documents (self p)) with
    | Some c => Returns tt {| self := set_chunks c (self p); trace := trace p |}
    | None => Spins
    end.
Proof. unfold _chunk_documents. now destruct (Chunker.chunk_documents _ _ _ _). Qed.

(** The body of the [try] returns only with the flag set and every step
    done. *)
Lemma initialize_body_spec fuel w p :
  wp (initialize_body fuel w)
     (fun _ p' => initialized (self p') = true
                  /\ steps_done fuel w (self p) (self p'))
     (fun _ _ => True) p.
Proof.
  unfold initialize_body.
  apply wp_bind. unfold wp at 1. rewrite load_documents_run.
  apply wp_bind. unfold wp at 1. rewrite chunk_documents_run. cbn [self trace].
  change (cfg (set_documents ?d ?s)) with (cfg s).
  change (documents (set_documents ?d ?s)) with d.
  destruct (Chunker.chunk_documents fuel _ _ _) as [c|] eqn:Ec; [|exact I].
  apply wp_bind.
  match goal with |- wp _ _ _ ?q => destruct (ensure_cache_dir_spec w q) as [t Ht] end.
  unfold wp at 1. rewrite Ht. cbn [self trace].
  do 8 wp_step. cbn [self trace].
  change (cfg (set_fingerprint ?f ?s)) with (cfg s).
  change (cfg (set_chunks ?f ?s)) with (cfg s).
  change (cfg (set_documents ?f ?s)) with (cfg s).
  destruct (SentenceTransformer w (model_name (cfg (self p)))) as [m|e] eqn:Em;
    [|exact I].
  do 2 wp_step. cbn [self trace].
  apply wp_bind. eapply wp_conseq; [apply load_or_compute_spec | | auto].
  cbn [self]. intros _ p3 (Hcfg & Hdoc & Hmod & Hfp & _ & Hlen & e & Hemb & Hsrc).
  cbn [cfg documents model _fingerprint chunks set_model set_fingerprint
       set_chunks set_documents] in Hcfg, Hdoc, Hmod, Hfp, Hlen.
  apply wp_bind.
  destruct (load_qa_spec w p3) as (s4 & t4 & Hrun4 & Hs4 & _).
  unfold wp at 1. rewrite Hrun4.
  apply wp_bind.
  destruct (load_reranker_spec w {| self := s4; trace := t4 |})
    as (s5 & t5 & Hrun5 & Hs5 & _).
  unfold wp at 1. rewrite Hrun5.
  apply wp_update. cbn [self trace] in *.
  destruct Hs4 as (A1 & A2 & A3 & A4 & A5 & A6).
  destruct Hs5 as (B1 & B2 & B3 & B4 & B5 & B6).
  split; [reflexivity|].
  constructor; cbn [cfg documents chunks model embeddings _fingerprint
                    set_initialized].
  - congruence.
  - rewrite B2, A2, Hdoc. reflexivity.
  - exists c. rewrite B2, A2, Hdoc, B5, A5, Hlen. split; [exact Ec|reflexivity].
  - rewrite B4, A4, Hfp. reflexivity.
  - exists m. split; [exact Em|]. split; [congruence|].
    exists e. split; [congruence|].
    rewrite B5, A5.
    rewrite (cache_paths_frame (self p3)); [exact Hsrc | | ]; cbn; congruence.
Qed.

(** What is left of [initialize] once [_chunk_documents] has returned has
    no loop. *)
Lemma initialize_returns fuel w p c :
  Chunker.chunk_documents fuel (chunk_chars (cfg (self p)))
    (chunk_overlap (cfg (self p))) (loaded_documents w (cfg (self p)))
  = Some c ->
  exists p', initialize fuel w p = Returns tt p'.
Proof.
  intros Hc. unfold initialize, try_except, initialize_body.
  unfold bind at 1. rewrite load_documents_run.
  unfold bind at 1. rewrite chunk_documents_run. cbn [self trace].
  change (cfg (set_documents ?d ?s)) with (cfg s).
  change (documents (set_documents ?d ?s)) with d.
  rewrite Hc.
  match goal with
  | |- exists p', match ?rest ?q with _ => _ end = _ =>
      assert (Hs : never_spins rest); [|specialize (Hs q); destruct (rest q) as [[] p1|e p1|]]
  end.
  - apply ns_bind; [apply ns_ensure_cache_dir|]. intros _.
    apply ns_bind; [apply ns_get|]. intros s.
    apply ns_bind; [apply ns_update|]. intros _.
    apply ns_bind; [apply ns_emit|]. intros _.
    apply ns_bind; [apply ns_lift|]. intros m.
    apply ns_bind; [apply ns_update|]. intros _.
    apply ns_bind; [apply ns_load_or_compute|]. intros _.
    apply ns_bind; [apply ns_load_qa|]. intros _.
    apply ns_bind; [apply ns_load_reranker|]. intros _.
    apply ns_update.
  - eauto.
  - unfold update. eauto.
  - congruence.
Qed.

Lemma initialize_cases fuel w p :
  match initialize_body fuel w p with
  | Returns _ p1 => initialize fuel w p = Returns tt p1
  | Raises _ p1 =>
      initialize fuel w p
      = Returns tt {| self := set_initialized false (self p1);
                      trace := trace p1 |}
  | Spins => initialize fuel w p = Spins
  end.
Proof.
  unfold initialize, try_except.
  destruct (initialize_body fuel w p) as [[] p1|e p1|]; reflexivity.
Qed.

(* ================================================================== *)
(** * C9 and C10: the flag and the exceptions of [initialize] *)
(* ================================================================== *)

(** C9.  When [initialize()] returns with [initialized] true, the body of
    its [try] has run to its end and every step has been done: the
    documents are the loaded ones, the chunks were built, the fingerprint
    was computed, the embedding model was loaded, and the embeddings were
    read from the cache or computed.  When anything raises inside the body,
    which can only be before the flag assignment that ends it,
    [initialize()] returns with [initialized] false; so it does when the
    embedding model fails to load. *)
Theorem initialized_only_after_all_steps :
  forall fuel w p,
    (forall p', initialize fuel w p = Returns tt p' ->
                initialized (self p') = true ->
                initialize_body fuel w p = Returns tt p'
                /\ steps_done fuel w (self p) (self p'))
    /\ (forall e p1, initialize_body fuel w p = Raises e p1 ->
                     exists p', initialize fuel w p = Returns tt p'
                                /\ initialized (self p') = false)
    /\ (forall e p', SentenceTransformer w (model_name (cfg (self p))) = Err e ->
                     initialize fuel w p = Returns tt p' ->
                     initialized (self p') = false).
Proof.
  intros fuel w p.
  pose proof (initialize_cases fuel w p) as Hc.
  pose proof (initialize_body_spec fuel w p) as Hs. unfold wp in Hs.
  assert (H1 : forall p', initialize fuel w p = Returns tt p' ->
                          initialized (self p') = true ->
                          initialize_body fuel w p = Returns tt p'
                          /\ steps_done fuel w (self p) (self p')).
  { intros p' Hr Hi.
    destruct (initialize_body fuel w p) as [[] p1|e p1|].
    - rewrite Hc in Hr. injection Hr as <-. now split.
    - rewrite Hc in Hr. injection Hr as <-. discriminate Hi.
    - congruence. }
  split; [exact H1|]. split.
  - intros e p1 Hb. rewrite Hb in Hc. eexists. split; [exact Hc|reflexivity].
  - intros e p' He Hr.
    destruct (initialized (self p')) eqn:Hi; [|reflexivity].
    destruct (H1 p' Hr Hi) as [_ Hd].
    destruct (done_model _ _ _ _ Hd) as (m & Hm & _). congruence.
Qed.

(** C10.  [initialize()] never raises: from no state, in no world and
    with no fuel does it end by an exception.  With an overlap below the
    window size it returns; and when the embedding model fails to load it
    returns all the same, with [initialized] false. *)
Theorem initialize_never_raises :
  forall w p,
    (forall fuel e p', initialize fuel w p <> Raises e p')
    /\ (0 <= chunk_overlap (cfg (self p)) < chunk_chars (cfg (self p)) ->
        exists fuel p', initialize fuel w p = Returns tt p')
    /\ (forall fuel e c,
           SentenceTransformer w (model_name (cfg (self p))) = Err e ->
           Chunker.chunk_documents fuel (chunk_chars (cfg (self p)))
             (chunk_overlap (cfg (self p)))
             (loaded_documents w (cfg (self p))) = Some c ->
           exists p', initialize fuel w p = Returns tt p'
                      /\ initialized (self p') = false).
Proof.
  intros w p. split; [|split].
  - intros fuel e p'. unfold initialize.
    apply try_except_never_raises. intros e0 q e1 q'. discriminate.
  - intros Hco.
    destruct (ChunkerFacts.chunk_documents_ends _ _
                (loaded_documents w (cfg (self p))) Hco) as [c Hc].
    exists (enough_fuel (loaded_documents w (cfg (self p)))).
    eapply initialize_returns; exact Hc.
  - intros fuel e c He Hc.
    destruct (initialize_returns fuel w p c Hc) as [p' Hr].
    exists p'. split; [exact Hr|].
    destruct (initialized (self p')) eqn:Hi; [|reflexivity].
    pose proof (initialize_cases fuel w p) as Hcase.
    pose proof (initialize_body_spec fuel w p) as Hs. unfold wp in Hs.
    destruct (initialize_body fuel w p) as [[] p1|e1 p1|].
    + rewrite Hcase in Hr. injection Hr as <-.
      destruct Hs as [_ Hd].
      destruct (done_model _ _ _ _ Hd) as (m & Hm & _). congruence.
    + rewrite Hcase in Hr. injection Hr as <-. discriminate Hi.
    + congruence.
Qed.

(* ================================================================== *)
(** * C4: what a cache hit checks *)
(* ================================================================== *)

(** C4 (as stated, refuted).  [_load_cache] reports a hit on a cache whose
    chunk file has one chunk, as the corpus has, and whose embedding file
    has two rows: after the hit the matrix has two rows for one chunk. *)
Lemma load_cache_hit_rows_unchecked :
  ~ (forall w p p',
        _load_cache w p = Returns true p' ->
        exists e, embeddings (self p') = Some e
                  /\ length e = length (chunks (self p'))).
Proof.
  intros H.
  destruct (H Demo.stale_world Demo.before_cache
              {| self := set_embeddings (Some [[1; 0]; [0; 1]]%Q)
                           (set_chunks [Demo.chunk0] (self Demo.before_cache));
                 trace := [] |} eq_refl)
    as (e & He & Hlen).
  cbn in He. injection He as <-. discriminate Hlen.
Qed.

(** C4 (amended).  On every hit of [_load_cache] both cache files exist,
    the chunk file holds a list with as many chunks as the freshly computed
    chunk list, that list becomes [self.chunks], and [self.embeddings]
    becomes the matrix of the embedding file as it is: its rows are not
    counted. *)
Theorem load_cache_hit_checks_chunk_count :
  forall w p p',
    _load_cache w p = Returns true p' ->
    exists cached e,
      path_exists w (fst (_cache_paths (self p))) = true
      /\ path_exists w (snd (_cache_paths (self p))) = true
      /\ json_load w (snd (_cache_paths (self p))) = Ok (JList cached)
      /\ np_load w (fst (_cache_paths (self p))) = Ok e
      /\ length cached = length (chunks (self p))
      /\ chunks (self p') = cached
      /\ length (chunks (self p')) = length (chunks (self p))
      /\ embeddings (self p') = Some e.
Proof.
  intros w p p' Hrun.
  destruct (load_cache_cases w p)
    as [(cached & e & H1 & H2 & H3 & H4 & H5 & H6)
       | [H6 | (cached & e & _ & _ & _ & H6)]];
    rewrite H6 in Hrun; try discriminate.
  injection Hrun as <-. exists cached, e. cbn [self chunks embeddings
    set_embeddings set_chunks]. repeat split; assumption.
Qed.

Lemma load_cache_hit_checks_chunk_count_witness :
  exists cached e,
    json_load Demo.stale_world (snd (_cache_paths (self Demo.before_cache)))
    = Ok (JList cached)
    /\ np_load Demo.stale_world (fst (_cache_paths (self Demo.before_cache)))
       = Ok e
    /\ length cached = 1%nat /\ length e = 2%nat.
Proof.
  destruct (load_cache_hit_checks_chunk_count Demo.stale_world Demo.before_cache
              {| self := set_embeddings (Some [[1; 0]; [0; 1]]%Q)
                           (set_chunks [Demo.chunk0] (self Demo.before_cache));
                 trace := [] |} eq_refl)
    as (cached & e & _ & _ & Hj & Hn & Hl & _).
  exists cached, e. repeat split; try assumption.
  cbn in Hn. injection Hn as <-. reflexivity.
Defined.

(* ================================================================== *)
(** * The stages of [query] *)
(* ================================================================== *)

Lemma slice_to_firstn {A} (l : list A) (k : Z) :
  0 <= k -> slice_to l k = firstn (Z.to_nat k) l.
Proof.
  intros Hk. unfold slice_to, norm_index, len.
  destruct (k <? 0) eqn:E; [apply Z.ltb_lt in E; lia|].
  destruct (Z.le_ge_cases k (Z.of_nat (length l))) as [H|H].
  - now rewrite Z.min_l.
  - rewrite Z.min_r by lia. rewrite Nat2Z.id.
    rewrite firstn_all. symmetry. apply firstn_all2. lia.
Qed.

(** The stages of [query] read [self] and never write it. *)
Lemma retrieve_keeps_self w q p :
  wp (retrieve w q) (fun _ p' => self p' = self p)
     (fun _ p' => self p' = self p) p.
Proof.
  unfold retrieve. do 3 wp_step.
  destruct (model (self p)) as [m|]; wp_step; [|reflexivity].
  do 4 wp_step. cbn [self trace].
  destruct (encode m [q]) as [vs|e]; [|reflexivity].
  wp_step. destruct vs as [|v vs]; wp_step; [reflexivity|].
  wp_step. destruct (embeddings (self p)) as [emb|]; wp_step; [|reflexivity].
  do 2 wp_step. destruct (np_dot emb v) as [sims|e]; [|reflexivity].
  wp_step. cbn [self]. destruct (index_all _ _); reflexivity.
Qed.

Lemma rerank_keeps_self q pre p :
  wp (rerank q pre) (fun _ p' => self p' = self p)
     (fun _ p' => self p' = self p) p.
Proof.
  unfold rerank. do 2 wp_step.
  destruct (reranker (self p)) as [r|]; [|wp_step; reflexivity].
  do 4 wp_step. cbn [self trace].
  destruct (predict r _) as [scores|e]; wp_step; reflexivity.
Qed.

(** Without a reranker, or with one that raises, the top chunks are the
    first [top_k] of the pre-shortlist. *)
Lemma rerank_fallback q pre p :
  0 <= top_k (cfg (self p)) ->
  reranker (self p) = None
  \/ (exists r e, reranker (self p) = Some r
                  /\ predict r (map (fun c => (q, text c)) pre) = Err e) ->
  exists t,
    rerank q pre p
    = Returns (firstn (Z.to_nat (top_k (cfg (self p)))) pre)
              {| self := self p; trace := t |}.
Proof.
  intros Hk [Hr | (r & e & Hr & He)]; unfold rerank, bind, get; rewrite Hr.
  - rewrite slice_to_firstn by exact Hk. unfold ret. destruct p; eauto.
  - unfold try_except, bind, emit, lift. cbn [self trace]. rewrite He.
    unfold raise, ret. rewrite slice_to_firstn by exact Hk. eauto.
Qed.

Lemma query_runs_stages w q p pre p1 top p2 :
  initialized (self p) = true -> chunks (self p) <> [] ->
  retrieve w q p = Returns pre p1 ->
  rerank q pre p1 = Returns top p2 ->
  query w q p
  = try_except (extract q top)
      (fun e => ret (system_answer (msg_error e))) p2.
Proof.
  intros Hi Hc Hret Hrr. rewrite query_initialized by exact Hi.
  unfold try_except, query_body, bind at 1, get.
  destruct (chunks (self p)) as [|c0 cs]; [contradiction|]. cbn [truthy negb].
  unfold bind at 1. rewrite Hret. unfold bind at 1. rewrite Hrr. reflexivity.
Qed.

(* ================================================================== *)
(** * C6: [query] without a working reranker *)
(* ================================================================== *)

(** C6.  In an initialized engine with chunks, when retrieval has returned
    its pre-shortlist and the reranker is absent or raises on the pairs,
    the top chunks are the first [top_k] chunks of the pre-shortlist in
    their order, [query] goes on to extract its answer from them, and it
    returns an answer record: the exception of the reranker does not get
    out. *)
Theorem rerank_degrades_gracefully :
  forall w question p pre p1,
    initialized (self p) = true -> chunks (self p) <> [] ->
    retrieve w question p = Returns pre p1 ->
    0 <= top_k (cfg (self p)) ->
    reranker (self p) = None
    \/ (exists r e, reranker (self p) = Some r
                    /\ predict r (map (fun c => (question, text c)) pre)
                       = Err e) ->
    exists p2,
      rerank question pre p1
      = Returns (firstn (Z.to_nat (top_k (cfg (self p)))) pre) p2
      /\ self p2 = self p
      /\ query w question p
         = try_except
             (extract question (firstn (Z.to_nat (top_k (cfg (self p)))) pre))
             (fun e => ret (system_answer (msg_error e))) p2
      /\ exists a p', query w question p = Returns a p'.
Proof.
  intros w question p pre p1 Hi Hc Hret Hk Hrr.
  pose proof (wp_of_returns _ _ _ _ _ _ (retrieve_keeps_self w question p) Hret)
    as Hself.
  cbn beta in Hself. rewrite <- Hself in Hk, Hrr.
  destruct (rerank_fallback question pre p1 Hk Hrr) as [t Hrun].
  rewrite Hself in Hrun.
  eexists. split; [exact Hrun|]. split; [reflexivity|]. split.
  - eapply query_runs_stages; eassumption.
  - apply query_always_returns.
Qed.

Lemma rerank_degrades_gracefully_witness :
  exists p2,
    rerank Demo.question [Demo.chunk0]
      {| self := Demo.ready; trace := [CallEncode [Demo.question]] |}
    = Returns (firstn 5 [Demo.chunk0]) p2
    /\ self p2 = Demo.ready.
Proof.
  destruct (rerank_degrades_gracefully Demo.world Demo.question
              {| self := Demo.ready; trace := [] |} [Demo.chunk0]
              {| self := Demo.ready; trace := [CallEncode [Demo.question]] |}
              eq_refl ltac:(discriminate) ltac:(vm_compute; reflexivity)
              ltac:(cbn; lia) (or_introl eq_refl))
    as (p2 & H1 & H2 & _).
  exists p2. split; assumption.
Defined.

(* ================================================================== *)
(** * C5: the confidence gate *)
(* ================================================================== *)

Lemma truthy_false {A} (l : list A) : truthy l = false <-> l = [].
Proof. destruct l; split; intros H; try reflexivity; discriminate. Qed.

(** C5.  In an initialized engine with chunks, once retrieval and
    reranking have returned the top chunks and the question-answering
    model has returned its output, [query] returns an answer whose source
    is the list of the titles of the top chunks and whose text is:
    the trimmed candidate itself when it is non-empty, scored at least 0.15
    and at least 40 characters long; the extractive answer built with the
    candidate as its seed when it is non-empty, scored at least 0.15 and
    shorter than 40 characters; the extractive fallback without a seed when
    the candidate is empty or scored below 0.15 (0.15 being the double of
    the source, [threshold]). *)
Theorem confidence_gating :
  forall w question p pre p1 top p2 q qa_out,
    initialized (self p) = true -> chunks (self p) <> [] ->
    retrieve w question p = Returns pre p1 ->
    rerank question pre p1 = Returns top p2 ->
    qa (self p) = Some q ->
    run_qa q question (context_of top) = Ok qa_out ->
    exists a p3,
      query w question p = Returns a p3
      /\ source a = sources_of top
      /\ (qa_candidate qa_out <> [] ->
          (threshold <= qa_confidence qa_out)%Q ->
          40 <= len (qa_candidate qa_out) ->
          answer a = qa_candidate qa_out)
      /\ (qa_candidate qa_out <> [] ->
          (threshold <= qa_confidence qa_out)%Q ->
          len (qa_candidate qa_out) < 40 ->
          answer a = _build_answer question top (qa_candidate qa_out))
      /\ (qa_candidate qa_out = []
          \/ (qa_confidence qa_out < threshold)%Q ->
          answer a = _build_answer question top []).
Proof.
  intros w question p pre p1 top p2 q qa_out Hi Hc Hret Hrr Hqa Hrun.
  pose proof (wp_of_returns _ _ _ _ _ _ (retrieve_keeps_self w question p) Hret)
    as Hs1.
  pose proof (wp_of_returns _ _ _ _ _ _ (rerank_keeps_self question pre p1) Hrr)
    as Hs2.
  cbn beta in Hs1, Hs2.
  rewrite (query_runs_stages w question p pre p1 top p2 Hi Hc Hret Hrr).
  unfold try_except at 1, extract, bind at 1, focused_answer, bind at 1, get.
  rewrite Hs2, Hs1, Hqa.
  unfold try_except, bind, emit, lift. cbn [self trace]. rewrite Hrun.
  unfold ret at 1. cbv beta iota zeta.
  destruct (truthy (qa_candidate qa_out)) eqn:Et;
    [destruct (Qle_bool threshold (qa_confidence qa_out)) eqn:Es|];
    cbn [andb];
    [destruct (len (qa_candidate qa_out) <? 40) eqn:El|..];
    unfold ret; cbv beta iota; do 2 eexists; (split; [reflexivity|]);
    (split; [reflexivity|]); cbn [answer].
  - apply Z.ltb_lt in El. repeat split; intros; try reflexivity; try lia.
    destruct H as [H|H]; [rewrite H in Et; discriminate|].
    apply Qle_bool_iff in Es. apply Qlt_not_le in H. contradiction.
  - apply Z.ltb_ge in El. repeat split; intros; try reflexivity; try lia.
    destruct H as [H|H]; [rewrite H in Et; discriminate|].
    apply Qle_bool_iff in Es. apply Qlt_not_le in H. contradiction.
  - assert (Hn : ~ (threshold <= qa_confidence qa_out)%Q).
    { intros H. apply Qle_bool_iff in H. congruence. }
    repeat split; intros; try reflexivity; contradiction.
  - apply truthy_false in Et.
    repeat split; intros; try reflexivity; contradiction.
Qed.

Lemma confidence_gating_witness :
  exists a p3,
    query Demo.world Demo.question (Demo.with_qa (10 # 100)) = Returns a p3
    /\ answer a = _build_answer Demo.question [Demo.chunk0] [].
Proof.
  destruct (confidence_gating Demo.world Demo.question
              (Demo.with_qa (10 # 100)) [Demo.chunk0]
              {| self := self (Demo.with_qa (10 # 100));
                 trace := [CallEncode [Demo.question]] |}
              [Demo.chunk0]
              {| self := self (Demo.with_qa (10 # 100));
                 trace := [CallEncode [Demo.question]] |}
              (Demo.qa_scoring (10 # 100))
              {| qa_answer := Some (lit " medicamentos gratuitos ");
                 qa_score := Some (10 # 100) |}
              eq_refl ltac:(discriminate) ltac:(vm_compute; reflexivity)
              ltac:(vm_compute; reflexivity) eq_refl eq_refl)
    as (a & p3 & Hq & _ & _ & _ & Hlow).
  exists a, p3. split; [exact Hq|].
  apply Hlow. right. reflexivity.
Defined.

(* ================================================================== *)
(** * C3: the order of the pre-shortlist *)
(* ================================================================== *)

Section SortedLists.
Context {A : Type}.
Implicit Types (R : A -> A -> Prop) (l : list A).

Lemma skipn_incl (n : nat) (l : list A) : incl (skipn n l) l.
Proof.
  rewrite <- (firstn_skipn n l) at 2. apply incl_appr, incl_refl.
Qed.

Lemma NoDup_skipn (n : nat) (l : list A) : NoDup l -> NoDup (skipn n l).
Proof.
  revert l. induction n as [|n IH]; intros [|x l] H; cbn; auto.
  apply IH. now inversion H.
Qed.

Lemma StronglySorted_skipn R (n : nat) (l : list A) :
  StronglySorted R l -> StronglySorted R (skipn n l).
Proof.
  revert l. induction n as [|n IH]; intros [|x l] H; cbn; auto.
  apply IH. now inversion H.
Qed.

Lemma StronglySorted_snoc R (l : list A) (x : A) :
  StronglySorted R l -> Forall (fun y => R y x) l ->
  StronglySorted R (l ++ [x]).
Proof.
  induction l as [|y l IH]; intros Hs Hf; cbn.
  - repeat constructor.
  - inversion Hs; subst. inversion Hf; subst.
    constructor; [now apply IH|].
    apply Forall_app. split; [assumption|]. now repeat constructor.
Qed.

Lemma StronglySorted_rev R (l : list A) :
  StronglySorted R l -> StronglySorted (fun x y => R y x) (rev l).
Proof.
  induction 1 as [|x l Hs IH Hf]; cbn.
  - constructor.
  - apply StronglySorted_snoc.
    + exact IH.
    + apply Forall_rev. exact Hf.
Qed.

Lemma StronglySorted_weaken R R' (P : A -> Prop) (l : list A) :
  (forall x y, P x -> P y -> R x y -> R' x y) ->
  Forall P l -> StronglySorted R l -> StronglySorted R' l.
Proof.
  intros Himp Hp Hs. induction Hs as [|x l Hs IH Hf].
  - constructor.
  - inversion Hp as [|? ? Hx Hl]; subst.
    constructor; [now apply IH|].
    rewrite Forall_forall in *. intros y Hy. apply Himp; auto.
Qed.

End SortedLists.

Lemma StronglySorted_map {A B} (f : A -> B) (R : B -> B -> Prop) (l : list A) :
  StronglySorted (fun x y => R (f x) (f y)) l -> StronglySorted R (map f l).
Proof.
  induction 1 as [|x l Hs IH Hf]; cbn; constructor; auto.
  apply Forall_map. exact Hf.
Qed.

(** [[l[i] for i in idx]] succeeds when every index is in range. *)
Lemma index_all_in_range {A} (l : list A) (idx : list nat) :
  Forall (fun i => (i < length l)%nat) idx ->
  exists xs, index_all l idx = Ok xs
             /\ length xs = length idx
             /\ map Some xs = map (nth_error l) idx.
Proof.
  induction 1 as [|i idx Hi Hrest IH]; cbn.
  - exists []. repeat split.
  - destruct IH as (xs & -> & Hlen & Hmap).
    destruct (nth_error l i) as [x|] eqn:E;
      [|apply nth_error_None in E; lia].
    exists (x :: xs). cbn. repeat split; congruence.
Qed.

Lemma np_dot_ok (emb : Matrix) (v : Vector) (sims : list Q) :
  np_dot emb v = Ok sims ->
  sims = map (fun row => dot row v) emb /\ length sims = length emb.
Proof.
  unfold np_dot.
  destruct (forallb (fun row => (length row =? length v)%nat) emb);
    [|discriminate].
  intros [= <-]. split; [reflexivity|apply length_map].
Qed.

(** The indices kept by lines 170-171, for a positive [pre_k]: the last
    [min(pre_k, n)] of the ascending order, turned round. *)
Lemma pre_indices_ranked w (sims : list Q) (k : Z) :
  is_argsort_of sims (argsort w sims) -> 1 <= k ->
  let idx := pre_indices_of w sims (len sims) k in
  length idx = Z.to_nat (Z.min k (len sims))
  /\ NoDup idx
  /\ Forall (fun i => (i < length sims)%nat) idx
  /\ StronglySorted (fun i j => (nth j sims 0 <= nth i sims 0)%Q) idx.
Proof.
  intros [Hperm Hsorted] Hk. cbv zeta. unfold pre_indices_of, slice_from.
  set (a := argsort w sims) in *.
  assert (Hlen : length a = length sims)
    by (rewrite (Permutation_length Hperm); apply length_seq).
  assert (Hnd : NoDup a)
    by (eapply Permutation_NoDup; [apply Permutation_sym; exact Hperm|];
        apply seq_NoDup).
  assert (Hrange : Forall (fun i => (i < length sims)%nat) a).
  { apply Forall_forall. intros i Hi.
    apply (Permutation_in _ Hperm) in Hi. apply in_seq in Hi. lia. }
  repeat split.
  - rewrite length_rev, length_skipn. unfold norm_index, len. rewrite Hlen.
    destruct (- Z.min (Z.of_nat (length sims)) k <? 0) eqn:E.
    + apply Z.ltb_lt in E. lia.
    + apply Z.ltb_ge in E. lia.
  - apply NoDup_rev, NoDup_skipn, Hnd.
  - apply Forall_rev. eapply incl_Forall; [apply skipn_incl|exact Hrange].
  - apply (StronglySorted_rev (ascending_on sims)).
    apply StronglySorted_skipn. exact Hsorted.
Qed.

(** ** A stable [argsort] meets the contract *)

Lemma insert_asc_perm x l : Permutation (insert_asc x l) (x :: l).
Proof.
  induction l as [|y l IH]; cbn.
  - apply Permutation_refl.
  - destruct (Qle_bool (snd x) (snd y)).
    + apply Permutation_refl.
    + eapply Permutation_trans; [apply perm_skip, IH|apply perm_swap].
Qed.

Lemma insert_asc_sorted x l :
  StronglySorted le_snd l -> StronglySorted le_snd (insert_asc x l).
Proof.
  induction 1 as [|y l Hs IH Hf]; cbn.
  - repeat constructor.
  - destruct (Qle_bool (snd x) (snd y)) eqn:E.
    + apply Qle_bool_iff in E.
      constructor; [now constructor|].
      constructor; [exact E|].
      eapply Forall_impl; [|exact Hf].
      intros z Hz. unfold le_snd in *. eapply Qle_trans; eassumption.
    + assert (Hyx : le_snd y x).
      { unfold le_snd. apply Qlt_le_weak, Qnot_le_lt.
        intros H. apply Qle_bool_iff in H. congruence. }
      constructor; [exact IH|].
      eapply Permutation_Forall;
        [apply Permutation_sym, insert_asc_perm|].
      now constructor.
Qed.

Lemma sort_asc_perm l : Permutation (fold_right insert_asc [] l) l.
Proof.
  induction l as [|x l IH]; cbn.
  - constructor.
  - eapply Permutation_trans; [apply insert_asc_perm|]. now apply perm_skip.
Qed.

Lemma sort_asc_sorted l : StronglySorted le_snd (fold_right insert_asc [] l).
Proof.
  induction l as [|x l IH]; cbn.
  - constructor.
  - now apply insert_asc_sorted.
Qed.

Lemma map_fst_combine {A B} (l : list A) (l' : list B) :
  length l = length l' -> map fst (combine l l') = l.
Proof.
  revert l'. induction l as [|x l IH]; intros [|y l'] H; cbn in *;
    try discriminate; [reflexivity|].
  f_equal. apply IH. lia.
Qed.

Lemma enumerate_nth (a : list Q) (s : nat) :
  Forall (fun x => (s <= fst x)%nat /\ nth (fst x - s) a 0%Q = snd x)
         (combine (seq s (length a)) a).
Proof.
  revert s. induction a as [|v a IH]; intros s; cbn.
  - constructor.
  - constructor.
    + cbn. rewrite Nat.sub_diag. split; [lia|reflexivity].
    + eapply Forall_impl; [|apply (IH (S s))].
      intros [i x] [Hle Hnth]. cbn in *. split; [lia|].
      replace (i - s)%nat with (S (i - S s)) by lia. exact Hnth.
Qed.

Lemma argsort_stable_ok : argsort_ok argsort_stable.
Proof.
  intros a. unfold is_argsort_of, argsort_stable.
  set (pairs := combine (seq 0 (length a)) a).
  split.
  - eapply Permutation_trans;
      [apply Permutation_map, sort_asc_perm|].
    unfold pairs. rewrite map_fst_combine by apply length_seq.
    apply Permutation_refl.
  - apply StronglySorted_map.
    apply (StronglySorted_weaken le_snd _
             (fun x => nth (fst x) a 0%Q = snd x)).
    + intros x y Hx Hy Hxy. unfold ascending_on, le_snd in *.
      now rewrite Hx, Hy.
    + eapply Permutation_Forall;
        [apply Permutation_sym, sort_asc_perm|].
      eapply Forall_impl; [|apply (enumerate_nth a 0)].
      intros x [_ H]. now rewrite Nat.sub_0_r in H.
    + apply sort_asc_sorted.
Qed.

(** ** Retrieval *)

Lemma retrieve_run w question p m qv rest emb sims :
  model (self p) = Some m -> encode m [question] = Ok (qv :: rest) ->
  embeddings (self p) = Some emb -> np_dot emb qv = Ok sims ->
  retrieve w question p
  = lift (index_all (chunks (self p))
            (pre_indices_of w sims (len (chunks (self p)))
               (pre_k (cfg (self p)))))
      {| self := self p; trace := trace p ++ [CallEncode [question]] |}.
Proof.
  intros Hm He Hemb Hdot.
  unfold retrieve, bind at 1, get, bind at 1. rewrite Hm.
  unfold ret at 1, bind at 1, emit, bind at 1, lift at 1.
  cbn [self trace]. rewrite He.
  unfold ret at 1, bind at 1, ret at 1, bind at 1. rewrite Hemb.
  unfold ret at 1, bind at 1, lift at 1. rewrite Hdot. reflexivity.
Qed.

(** C3 (as stated, refuted).  With a stable [argsort], two chunks of equal
    similarity come out of retrieval in the reverse of their chunk order:
    chunk 1 before chunk 0. *)
Lemma retrieve_ties_not_in_chunk_order : ~ retrieval_as_specified.
Proof.
  intros H.
  specialize (H Demo.world Demo.question Demo.tied
                [Demo.chunk_b; Demo.chunk_a]
                {| self := self Demo.tied;
                   trace := [CallEncode [Demo.question]] |}
                Demo.encoder [28 # 1; 1]%Q [] [[8 # 1; 1]; [8 # 1; 1]]%Q
                (map (fun row => dot row [28 # 1; 1]%Q)
                     [[8 # 1; 1]; [8 # 1; 1]]%Q)
                argsort_stable_ok eq_refl eq_refl eq_refl eq_refl eq_refl).
  assert (Hrun : retrieve Demo.world Demo.question Demo.tied
                 = Returns [Demo.chunk_b; Demo.chunk_a]
                     {| self := self Demo.tied;
                        trace := [CallEncode [Demo.question]] |})
    by (vm_compute; reflexivity).
  specialize (H Hrun). vm_compute in H. discriminate H.
Qed.

(** C3 (amended).  For a positive [pre_k], an embedding matrix with one
    row per chunk and an [argsort] result that is within the contract of
    numpy, retrieval returns [min(pre_k, n)] distinct chunks in
    non-increasing order of similarity; they are the chunks at the last
    [min(pre_k, n)] positions of the ascending order of [argsort], last
    first, so that the order of chunks of equal similarity is the reverse of
    the one [argsort] gives them. *)
Theorem retrieve_ranking :
  forall w question p m qv rest emb sims,
    is_argsort_of sims (argsort w sims) ->
    1 <= pre_k (cfg (self p)) ->
    model (self p) = Some m -> encode m [question] = Ok (qv :: rest) ->
    embeddings (self p) = Some emb ->
    length emb = length (chunks (self p)) ->
    np_dot emb qv = Ok sims ->
    exists pre idx,
      retrieve w question p
      = Returns pre {| self := self p;
                       trace := trace p ++ [CallEncode [question]] |}
      /\ map Some pre = map (nth_error (chunks (self p))) idx
      /\ length pre
         = Z.to_nat (Z.min (pre_k (cfg (self p))) (len (chunks (self p))))
      /\ NoDup idx
      /\ StronglySorted (fun i j => (nth j sims 0 <= nth i sims 0)%Q) idx
      /\ idx = rev (skipn (length sims - length pre) (argsort w sims)).
Proof.
  intros w question p m qv rest emb sims Hsort Hk Hm He Hemb Hrows Hdot.
  destruct (np_dot_ok emb qv sims Hdot) as [_ Hlen].
  assert (Hn : len (chunks (self p)) = len sims)
    by (unfold len; congruence).
  destruct (pre_indices_ranked w sims (pre_k (cfg (self p))) Hsort Hk)
    as (Hcount & Hnd & Hrange & Hsorted).
  rewrite <- Hn in Hcount, Hnd, Hrange, Hsorted.
  set (idx := pre_indices_of w sims (len (chunks (self p)))
                (pre_k (cfg (self p)))) in *.
  assert (Hrange' : Forall (fun i => (i < length (chunks (self p)))%nat) idx).
  { eapply Forall_impl; [|exact Hrange]. cbn. intros i Hi.
    rewrite <- Hrows, <- Hlen. exact Hi. }
  destruct (index_all_in_range (chunks (self p)) idx Hrange')
    as (pre & Hidx & Hlpre & Hmap).
  exists pre, idx. repeat split; auto.
  - rewrite (retrieve_run w question p m qv rest emb sims Hm He Hemb Hdot).
    fold idx. rewrite Hidx. reflexivity.
  - rewrite Hlpre, Hcount. reflexivity.
  - rewrite Hlpre, Hcount. unfold idx, pre_indices_of, slice_from.
    do 2 f_equal.
    assert (Ha : length (argsort w sims) = length sims).
    { destruct Hsort as [Hp _]. rewrite (Permutation_length Hp).
      apply length_seq. }
    unfold norm_index, len in *. rewrite Ha.
    destruct (- Z.min (Z.of_nat (length (chunks (self p))))
                (pre_k (cfg (self p))) <? 0) eqn:E.
    + apply Z.ltb_lt in E. lia.
    + apply Z.ltb_ge in E. lia.
Qed.

Lemma retrieve_ranking_witness :
  exists pre idx,
    retrieve Demo.world Demo.question Demo.tied
    = Returns pre {| self := self Demo.tied;
                     trace := [CallEncode [Demo.question]] |}
    /\ map Some pre = map (nth_error [Demo.chunk_a; Demo.chunk_b]) idx
    /\ length pre = 2%nat.
Proof.
  destruct (retrieve_ranking Demo.world Demo.question Demo.tied
              Demo.encoder [28 # 1; 1]%Q [] [[8 # 1; 1]; [8 # 1; 1]]%Q
              (map (fun row => dot row [28 # 1; 1]%Q)
                   [[8 # 1; 1]; [8 # 1; 1]]%Q)
              (argsort_stable_ok _) ltac:(cbn; lia)
              eq_refl eq_refl eq_refl eq_refl eq_refl)
    as (pre & idx & H1 & H2 & H3 & _).
  exists pre, idx. repeat split; assumption.
Defined.

(* ================================================================== *)
(** * C7: the fingerprint *)
(* ================================================================== *)

Module FingerprintFacts.

Lemma ord_inj a b : ord a = ord b -> a = b.
Proof.
  unfold ord. intros H.
  rewrite <- (ascii_nat_embedding a), <- (ascii_nat_embedding b).
  now rewrite H.
Qed.

Lemma cons_eq_inv {A} (x y : A) (l l' : list A) :
  x :: l = y :: l' -> x = y /\ l = l'.
Proof. intros H. now injection H. Qed.

(** UTF-8 is a prefix code: the first character can be read back. *)
Lemma utf8_char_prefix a b r r' :
  Sha256.utf8_char a ++ r = Sha256.utf8_char b ++ r' -> a = b /\ r = r'.
Proof.
  unfold Sha256.utf8_char.
  pose proof (nat_ascii_bounded a) as Ha.
  pose proof (nat_ascii_bounded b) as Hb.
  fold (ord a) in Ha. fold (ord b) in Hb.
  pose proof (Z.div_mod (Z.of_nat (ord a)) 64 ltac:(lia)) as Da.
  pose proof (Z.div_mod (Z.of_nat (ord b)) 64 ltac:(lia)) as Db.
  pose proof (Z.mod_pos_bound (Z.of_nat (ord a)) 64 ltac:(lia)) as Ma.
  pose proof (Z.mod_pos_bound (Z.of_nat (ord b)) 64 ltac:(lia)) as Mb.
  pose proof (Z.div_pos (Z.of_nat (ord a)) 64 ltac:(lia) ltac:(lia)) as Qa.
  pose proof (Z.div_pos (Z.of_nat (ord b)) 64 ltac:(lia) ltac:(lia)) as Qb.
  destruct (Z.of_nat (ord a) <? 128) eqn:Ea;
    destruct (Z.of_nat (ord b) <? 128) eqn:Eb;
    cbn [app]; intros H.
  - apply cons_eq_inv in H as [H1 H2]. split; [apply ord_inj; lia|exact H2].
  - apply Z.ltb_lt in Ea. apply cons_eq_inv in H as [H1 _]. lia.
  - apply Z.ltb_lt in Eb. apply cons_eq_inv in H as [H1 _]. lia.
  - apply cons_eq_inv in H as [H1 H]. apply cons_eq_inv in H as [H2 H3].
    split; [|exact H3]. apply ord_inj. lia.
Qed.

Lemma encode_inj s s' : Sha256.encode s = Sha256.encode s' -> s = s'.
Proof.
  unfold Sha256.encode.
  revert s'. induction s as [|a s IH]; intros [|b s'] H; cbn in H.
  - reflexivity.
  - unfold Sha256.utf8_char in H.
    destruct (Z.of_nat (ord b) <? 128); discriminate.
  - unfold Sha256.utf8_char in H.
    destruct (Z.of_nat (ord a) <? 128); discriminate.
  - apply utf8_char_prefix in H as [-> H]. f_equal. now apply IH.
Qed.

Lemma to_int_not_nil n :
  Z.to_int n <> Decimal.Pos Decimal.Nil
  /\ Z.to_int n <> Decimal.Neg Decimal.Nil.
Proof.
  split; intros H; pose proof (f_equal Z.of_int H) as H0;
    rewrite DecimalZ.of_to in H0; cbn in H0; subst n; discriminate H.
Qed.

Lemma str_of_int_inj n n' : str_of_int n = str_of_int n' -> n = n'.
Proof.
  unfold str_of_int. intros H.
  apply (f_equal String.string_of_list_ascii) in H.
  rewrite !String.string_of_list_ascii_of_string in H.
  apply (f_equal DecimalString.NilZero.int_of_string) in H.
  destruct (to_int_not_nil n) as [H1 H2].
  destruct (to_int_not_nil n') as [H3 H4].
  rewrite !DecimalString.NilZero.isi in H by assumption.
  injection H as H. now apply DecimalZ.to_int_inj.
Qed.

Lemma insert_str_perm x l : Permutation (insert_str x l) (x :: l).
Proof.
  induction l as [|y l IH]; cbn.
  - apply Permutation_refl.
  - destruct (str_leb x y).
    + apply Permutation_refl.
    + eapply Permutation_trans; [apply perm_skip, IH|apply perm_swap].
Qed.

Lemma sorted_str_perm l : Permutation (sorted_str l) l.
Proof.
  induction l as [|x l IH]; cbn.
  - constructor.
  - eapply Permutation_trans; [apply insert_str_perm|]. now apply perm_skip.
Qed.

Lemma flat_map_agree {A B} (f g : A -> list B) l :
  (forall x, In x l -> f x = g x) -> flat_map f l = flat_map g l.
Proof.
  induction l as [|x l IH]; intros H; cbn; [reflexivity|].
  rewrite (H x) by now left. f_equal. apply IH. intros; apply H. now right.
Qed.

(** The hash input is the same when the inputs are. *)
Lemma stream_same_inputs w c w' c' :
  same_inputs w c w' c' ->
  fingerprint_stream w c = fingerprint_stream w' c'.
Proof.
  intros (Hm & Hcc & Hco & Hg & Hst). unfold fingerprint_stream.
  fold (corpus_pattern c). fold (corpus_pattern c').
  rewrite Hm, Hcc, Hco, <- Hg. do 3 f_equal.
  apply flat_map_agree. intros fp Hin. unfold file_block.
  rewrite Hst; [reflexivity|].
  eapply Permutation_in; [apply sorted_str_perm|exact Hin].
Qed.

(** The bytes one file adds determine its size when the truncated time
    is the same, and its truncated time when the size is the same. *)
Lemma file_block_changes w w' fp st st' :
  os_stat w fp = Ok st -> os_stat w' fp = Ok st' ->
  (st_size st <> st_size st'
   /\ int_of_float (st_mtime st) = int_of_float (st_mtime st'))
  \/ (st_size st = st_size st'
      /\ int_of_float (st_mtime st) <> int_of_float (st_mtime st')) ->
  file_block w fp <> file_block w' fp.
Proof.
  intros H1 H2 Hch Heq. unfold file_block in Heq. rewrite H1, H2 in Heq.
  apply app_inv_head in Heq.
  destruct Hch as [[Hs Ht] | [Hs Ht]].
  - rewrite Ht in Heq. apply app_inv_tail in Heq.
    apply encode_inj, str_of_int_inj in Heq. contradiction.
  - rewrite Hs in Heq. apply app_inv_head in Heq.
    apply encode_inj, str_of_int_inj in Heq. contradiction.
Qed.

Lemma files_part_changes w c w' c' fp :
  same_files_but fp w c w' c' ->
  file_block w fp <> file_block w' fp ->
  flat_map (file_block w) (sorted_str (glob w (corpus_pattern c)))
  <> flat_map (file_block w') (sorted_str (glob w' (corpus_pattern c'))).
Proof.
  intros (Hg & Hnd & Hin & Hst) Hblock. rewrite <- Hg.
  set (names := sorted_str (glob w (corpus_pattern c))).
  assert (Hnd' : NoDup names)
    by (eapply Permutation_NoDup;
        [apply Permutation_sym, sorted_str_perm|exact Hnd]).
  assert (Hin' : In fp names)
    by (eapply Permutation_in;
        [apply Permutation_sym, sorted_str_perm|exact Hin]).
  destruct (in_split _ _ Hin') as (l1 & l2 & Hsplit).
  rewrite Hsplit in *. apply NoDup_remove_2 in Hnd'.
  assert (Hother : forall l, (forall x, In x l -> In x (l1 ++ l2)) ->
                             flat_map (file_block w) l
                             = flat_map (file_block w') l).
  { intros l Hl. apply flat_map_agree. intros x Hx. unfold file_block.
    rewrite Hst; [reflexivity|]. intros ->. apply Hnd', Hl, Hx. }
  rewrite !flat_map_app. cbn [flat_map].
  rewrite (Hother l1) by (intros; apply in_or_app; now left).
  rewrite (Hother l2) by (intros; apply in_or_app; now right).
  intros Heq. apply app_inv_head, app_inv_tail in Heq. contradiction.
Qed.

(** One changed input, a file name apart, changes the hash input. *)
Lemma stream_changes w c w' c' :
  one_input_changed w c w' c' ->
  fingerprint_stream w c <> fingerprint_stream w' c'.
Proof.
  unfold fingerprint_stream. fold (corpus_pattern c) (corpus_pattern c').
  intros [Hm Hcc Hco Hf | Hm Hcc Hco Hf | Hm Hcc Hco Hf
         | fp st st' Hm Hcc Hco Hsame H1 H2 Hs Ht
         | fp st st' Hm Hcc Hco Hsame H1 H2 Hs Ht] Heq.
  - rewrite Hcc, Hco, Hf in Heq. apply app_inv_tail in Heq.
    apply encode_inj in Heq. contradiction.
  - rewrite Hm, Hco, Hf in Heq. apply app_inv_head, app_inv_tail in Heq.
    apply encode_inj, str_of_int_inj in Heq. contradiction.
  - rewrite Hm, Hcc, Hf in Heq.
    apply app_inv_head, app_inv_head, app_inv_tail in Heq.
    apply encode_inj, str_of_int_inj in Heq. contradiction.
  - rewrite Hm, Hcc, Hco in Heq. do 3 apply app_inv_head in Heq.
    revert Heq. apply (files_part_changes w c w' c' fp Hsame).
    apply (file_block_changes w w' fp st st' H1 H2). now left.
  - rewrite Hm, Hcc, Hco in Heq. do 3 apply app_inv_head in Heq.
    revert Heq. apply (files_part_changes w c w' c' fp Hsame).
    apply (file_block_changes w w' fp st st' H1 H2). now right.
Qed.

Lemma hexdigits_are_hex :
  forallb (fun k => is_hex (Sha256.hexdigit (Z.of_nat k))) (seq 0 16) = true.
Proof. reflexivity. Qed.

Lemma hexdigit_is_hex n : 0 <= n < 16 -> is_hex (Sha256.hexdigit n) = true.
Proof.
  intros H. pose proof hexdigits_are_hex as Hall.
  rewrite forallb_forall in Hall.
  rewrite <- (Z2Nat.id n) by lia. apply Hall. apply in_seq. lia.
Qed.

Lemma hex32_shape x :
  length (Sha256.hex32 x) = 8%nat
  /\ Forall (fun c => is_hex c = true) (Sha256.hex32 x).
Proof.
  unfold Sha256.hex32. split; [reflexivity|].
  apply Forall_map. apply Forall_forall. intros k _.
  apply hexdigit_is_hex. apply Z.mod_pos_bound. lia.
Qed.

Lemma hexdigest_shape msg :
  length (Sha256.hexdigest msg) = 64%nat
  /\ Forall (fun c => is_hex c = true) (Sha256.hexdigest msg).
Proof.
  unfold Sha256.hexdigest. cbv zeta. split.
  - rewrite !length_app.
    repeat rewrite (proj1 (hex32_shape _)). reflexivity.
  - repeat (apply Forall_app; split); apply hex32_shape.
Qed.

Lemma fingerprint_shape w c :
  length (_compute_fingerprint w c) = 16%nat
  /\ Forall (fun ch => is_hex ch = true) (_compute_fingerprint w c).
Proof.
  unfold _compute_fingerprint. rewrite slice_to_firstn by lia.
  destruct (hexdigest_shape (fingerprint_stream w c)) as [Hlen Hhex].
  split.
  - rewrite length_firstn, Hlen. reflexivity.
  - apply Forall_forall. intros ch Hin.
    rewrite Forall_forall in Hhex. apply Hhex.
    rewrite <- (firstn_skipn 16 (Sha256.hexdigest _)).
    apply in_or_app. left. exact Hin.
Qed.

End FingerprintFacts.

(** C7 (as stated, refuted).  Renaming one file, [a.txt11b.txt] to
    [b.txt11a.txt], beside a second file that stays, with all sizes, times
    and settings the same, leaves the bytes that are hashed the same, and
    so the fingerprint. *)
Lemma fingerprint_unchanged_by_rename :
  (exists old new rest,
      Demo.names_before = old :: rest /\ Demo.names_after = new :: rest
      /\ basename old <> basename new)
  /\ fingerprint_stream (Demo.with_files Demo.names_before) (cfg Demo.engine0)
     = fingerprint_stream (Demo.with_files Demo.names_after) (cfg Demo.engine0)
  /\ _compute_fingerprint (Demo.with_files Demo.names_before)
       (cfg Demo.engine0)
     = _compute_fingerprint (Demo.with_files Demo.names_after)
         (cfg Demo.engine0).
Proof.
  assert (Hs : fingerprint_stream (Demo.with_files Demo.names_before)
                 (cfg Demo.engine0)
               = fingerprint_stream (Demo.with_files Demo.names_after)
                   (cfg Demo.engine0))
    by (vm_compute; reflexivity).
  split; [|split].
  - do 3 eexists. split; [reflexivity|]. split; [reflexivity|].
    vm_compute. discriminate.
  - exact Hs.
  - unfold _compute_fingerprint. now rewrite Hs.
Qed.

(** C7 (amended).  The fingerprint is 16 hexadecimal characters, the
    start of the SHA-256 digest of the model name, the chunk size, the
    overlap and, for the files in the order of their sorted paths, the name,
    the size and the modification time cut to the second, all written one
    after the other.  It is the same whenever those inputs are the same.
    When exactly one of the model name, the chunk size, the overlap, one
    file's size or one file's cut modification time changes, the hashed bytes
    change, and the fingerprint with them unless the first 16 digits of
    SHA-256 collide on the two byte strings.  Nothing is said of a changed
    file name. *)
Theorem fingerprint_of_inputs :
  forall w c,
    (length (_compute_fingerprint w c) = 16%nat
     /\ Forall (fun ch => is_hex ch = true) (_compute_fingerprint w c))
    /\ (forall w' c', same_inputs w c w' c' ->
                      _compute_fingerprint w c = _compute_fingerprint w' c')
    /\ (forall w' c', one_input_changed w c w' c' ->
                      fingerprint_stream w c <> fingerprint_stream w' c'
                      /\ (_compute_fingerprint w c = _compute_fingerprint w' c'
                          -> sha256_collision16 (fingerprint_stream w c)
                               (fingerprint_stream w' c'))).
Proof.
  intros w c. split; [apply FingerprintFacts.fingerprint_shape|]. split.
  - intros w' c' H. unfold _compute_fingerprint.
    now rewrite (FingerprintFacts.stream_same_inputs w c w' c' H).
  - intros w' c' H.
    pose proof (FingerprintFacts.stream_changes w c w' c' H) as Hs.
    split; [exact Hs|]. intros Heq. split; [exact Hs|exact Heq].
Qed.

Lemma fingerprint_of_inputs_witness :
  fingerprint_stream Demo.world (cfg Demo.engine0)
  <> fingerprint_stream Demo.world_grown (cfg Demo.engine0)
  /\ _compute_fingerprint Demo.world (cfg Demo.engine0)
     <> _compute_fingerprint Demo.world_grown (cfg Demo.engine0).
Proof.
  split.
  - refine (proj1 (proj2 (proj2 (fingerprint_of_inputs Demo.world
                                   (cfg Demo.engine0)))
                      Demo.world_grown (cfg Demo.engine0) _)).
    apply (@changed_file_size Demo.world (cfg Demo.engine0) Demo.world_grown
             (cfg Demo.engine0) (lit "knowledge_base/farmacia.txt")
             {| st_size := 70; st_mtime := 3400000001 # 2 |}
             {| st_size := 71; st_mtime := 3400000001 # 2 |});
      try reflexivity.
    + repeat split.
      * repeat constructor. intros [].
      * now left.
      * intros fp' Hne. cbn [os_stat Demo.world_grown].
        unfold str_eqb.
        destruct (list_eq_dec ascii_dec fp' _) as [E|E];
          [contradiction|reflexivity].
    + cbn. lia.
  - vm_compute. discriminate.
Defined.

(* ================================================================== *)
(** * C8: the summary of the extractive answer *)
(* ================================================================== *)

Module SummaryFacts.

Lemma single_spaced_weaken b s :
  single_spaced b s = true -> single_spaced false s = true.
Proof.
  destruct s as [|c s]; cbn; [trivial|].
  destruct (isspace c); [|trivial].
  destruct b; cbn; [|trivial].
  rewrite andb_false_r. discriminate.
Qed.

Lemma collapse_single_spaced b s : single_spaced b (collapse_ws b s) = true.
Proof.
  revert b. induction s as [|c s IH]; intros b; cbn; [reflexivity|].
  destruct (isspace c) eqn:E.
  - destruct b; [apply IH|]. cbn. apply IH.
  - cbn. destruct b; rewrite E; apply IH.
Qed.

Lemma lstrip_suffix s : exists t, s = t ++ lstrip s.
Proof.
  induction s as [|c s [t IH]]; cbn.
  - now exists [].
  - destruct (isspace c).
    + exists (c :: t). cbn. now f_equal.
    + now exists [].
Qed.

Lemma rstrip_prefix s : exists t, s = rstrip s ++ t.
Proof.
  unfold rstrip. destruct (lstrip_suffix (rev s)) as [t H].
  exists (rev t). rewrite <- rev_app_distr, <- H. symmetry. apply rev_involutive.
Qed.

Lemma single_spaced_lstrip b s :
  single_spaced b s = true -> single_spaced false (lstrip s) = true.
Proof.
  revert b. induction s as [|c s IH]; intros b H; cbn; [reflexivity|].
  destruct (isspace c) eqn:E.
  - cbn in H. rewrite E in H. apply andb_prop in H as [_ H]. now apply (IH true).
  - apply (single_spaced_weaken b). exact H.
Qed.

Lemma single_spaced_prefix b l1 l2 :
  single_spaced b (l1 ++ l2) = true -> single_spaced b l1 = true.
Proof.
  revert b. induction l1 as [|c l1 IH]; intros b H; cbn in *; [reflexivity|].
  destruct (isspace c).
  - apply andb_prop in H as [H1 H2]. rewrite H1. cbn. now apply IH.
  - now apply IH.
Qed.

Lemma collapsed_text_single_spaced selected :
  single_spaced false (collapsed_text selected) = true.
Proof.
  unfold collapsed_text, strip.
  set (t := collapse_ws false (join (lit " ") selected)).
  apply (single_spaced_lstrip false).
  destruct (rstrip_prefix t) as [r Hr].
  apply (single_spaced_prefix false _ r). rewrite <- Hr.
  apply collapse_single_spaced.
Qed.

Lemma slice_prefix {A} (l : list A) (k : Z) :
  0 <= k <= len l -> slice l 0 k = firstn (Z.to_nat k) l.
Proof.
  intros H. unfold slice, norm_index.
  change (0 <? 0) with false. cbv iota.
  destruct (k <? 0) eqn:E; [apply Z.ltb_lt in E; lia|].
  rewrite Z.min_l by lia. rewrite Z.min_l by lia.
  rewrite Z.sub_0_r. reflexivity.
Qed.

Lemma rsplit1_no_sep sep s :
  existsb (Ascii.eqb sep) s = false -> rsplit1_head sep s = s.
Proof.
  destruct s as [|c s]; cbn; [reflexivity|].
  intros H. apply orb_false_elim in H as [H1 H2]. rewrite H2.
  rewrite Ascii.eqb_sym, H1. reflexivity.
Qed.

Lemma rsplit1_sep sep s :
  existsb (Ascii.eqb sep) s = true ->
  exists tail, s = rsplit1_head sep s ++ sep :: tail
               /\ existsb (Ascii.eqb sep) tail = false.
Proof.
  induction s as [|c s IH]; cbn; [discriminate|].
  intros H. destruct (existsb (Ascii.eqb sep) s) eqn:E.
  - destruct (IH eq_refl) as (tail & Hs & Ht).
    exists tail. split; [|exact Ht]. cbn. now f_equal.
  - rewrite orb_false_r in H. rewrite Ascii.eqb_sym, H.
    apply Ascii.eqb_eq in H. subst c. exists s. split; [reflexivity|exact E].
Qed.

End SummaryFacts.

(** C8 (as stated, refuted).  A summary text of one word of 801 letters
    is cut to its first 800 letters, inside the word; and [_build_answer]
    gives that cut for a chunk that holds the word. *)
Lemma summary_cut_inside_a_word :
  ~ (forall selected,
        800 < len (collapsed_text selected) ->
        at_word_end (collapsed_text selected) (summarize selected))
  /\ _build_answer (lit "aaa") [Demo.chunk_long_word] []
     = intro_default ++ repeat (chr 97) 800.
Proof.
  split.
  - intros H. specialize (H [Demo.long_word]).
    destruct H as (rest & Hfull & Hrest); [vm_compute; reflexivity|].
    assert (Hc : collapsed_text [Demo.long_word] = repeat (chr 97) 800 ++ [chr 97])
      by (vm_compute; reflexivity).
    assert (Hs : summarize [Demo.long_word] = repeat (chr 97) 800)
      by (vm_compute; reflexivity).
    rewrite Hc, Hs in Hfull. apply app_inv_head in Hfull. subst rest.
    destruct Hrest as [Hr | (rest' & Hr)]; discriminate Hr.
  - vm_compute. reflexivity.
Qed.

(** C8 (amended).  The summary is built from the sentences joined by
    single spaces, with every run of whitespace collapsed to one space and
    the ends trimmed.  When that text has at most 800 characters it is the
    summary.  When it is longer, the summary is a start of it of at most 800
    characters: if the first 800 characters hold a space, the summary stops
    in front of the last of those spaces, hence at the end of a whole word
    and below 800 characters; if they hold none, the summary is those 800
    characters. *)
Theorem summary_truncation :
  forall selected,
    single_spaced false (collapsed_text selected) = true
    /\ (len (collapsed_text selected) <= 800 ->
        summarize selected = collapsed_text selected)
    /\ (800 < len (collapsed_text selected) ->
        len (summarize selected) <= 800
        /\ (has_space (firstn 800 (collapsed_text selected)) = true ->
            at_word_end (collapsed_text selected) (summarize selected)
            /\ len (summarize selected) < 800
            /\ exists tail,
                firstn 800 (collapsed_text selected)
                = summarize selected ++ chr 32 :: tail
                /\ has_space tail = false)
        /\ (has_space (firstn 800 (collapsed_text selected)) = false ->
            summarize selected = firstn 800 (collapsed_text selected))).
Proof.
  intros selected. split; [apply SummaryFacts.collapsed_text_single_spaced|].
  unfold summarize. fold (collapsed_text selected).
  set (full := collapsed_text selected).
  split.
  - intros H. destruct (800 <? len full) eqn:E; [apply Z.ltb_lt in E; lia|].
    reflexivity.
  - intros H. destruct (800 <? len full) eqn:E; [|apply Z.ltb_ge in E; lia].
    rewrite SummaryFacts.slice_prefix by lia.
    change (Z.to_nat 800) with 800%nat.
    assert (Hlen : length (firstn 800 full) = 800%nat)
      by (rewrite length_firstn; unfold len in H; lia).
    unfold has_space.
    destruct (existsb (Ascii.eqb (chr 32)) (firstn 800 full)) eqn:Esp.
    + destruct (SummaryFacts.rsplit1_sep (chr 32) (firstn 800 full) Esp)
        as (tail & Hcut & Htail).
      assert (Hl : (length (rsplit1_head (chr 32) (firstn 800 full)) < 800)%nat).
      { rewrite <- Hlen at 2. rewrite Hcut at 2.
        rewrite length_app. cbn [length]. lia. }
      split; [unfold len; lia|]. split; [|discriminate].
      intros _. split; [|split; [unfold len; lia|]].
      * exists (chr 32 :: tail ++ skipn 800 full). split; [|right; eauto].
        rewrite <- (firstn_skipn 800 full) at 1. rewrite Hcut at 1.
        rewrite <- app_assoc. reflexivity.
      * exists tail. split; [exact Hcut|exact Htail].
    + rewrite (SummaryFacts.rsplit1_no_sep (chr 32) _ Esp).
      split; [unfold len; lia|]. split; [discriminate|reflexivity].
Qed.

Lemma summary_truncation_witness :
  800 < len (collapsed_text [repeat (chr 97) 500; repeat (chr 98) 500])
  /\ has_space (firstn 800 (collapsed_text
                              [repeat (chr 97) 500; repeat (chr 98) 500]))
     = true
  /\ at_word_end (collapsed_text [repeat (chr 97) 500; repeat (chr 98) 500])
       (summarize [repeat (chr 97) 500; repeat (chr 98) 500]).
Proof.
  assert (H1 : 800 < len (collapsed_text
                            [repeat (chr 97) 500; repeat (chr 98) 500]))
    by (vm_compute; reflexivity).
  assert (H2 : has_space (firstn 800 (collapsed_text
                            [repeat (chr 97) 500; repeat (chr 98) 500]))
               = true)
    by (vm_compute; reflexivity).
  split; [exact H1|]. split; [exact H2|].
  exact (proj1 (proj1 (proj2 (proj2 (proj2
           (summary_truncation [repeat (chr 97) 500; repeat (chr 98) 500]))
           H1)) H2)).
Defined.

(* ================================================================== *)
(** * The engine at work in the small world *)
(* ================================================================== *)

(** One file with one paragraph gives one chunk with the whole text, and
    the engine is ready. *)
Example demo_initialize :
  exists t, initialize 1 Demo.world Demo.start
            = Returns tt {| self := Demo.ready; trace := t |}.
Proof. eexists. vm_compute. reflexivity. Qed.

(** Without QA model and reranker the answer is the fallback built from
    the sentence that holds a word of the question, with the file as its
    source. *)
Example demo_query :
  query Demo.world Demo.question {| self := Demo.ready; trace := [] |}
  = Returns {| answer := intro_default ++ Demo.paragraph;
               source := lit "farmacia.txt" |}
            {| self := Demo.ready; trace := [CallEncode [Demo.question]] |}.
Proof. vm_compute. reflexivity. Qed.

(** The fingerprint of the small world, as [hashlib] computes it. *)
Example demo_fingerprint :
  _compute_fingerprint Demo.world (cfg Demo.engine0) = lit "54a9a415b541ddbe".
Proof. vm_compute. reflexivity. Qed.

(** With [top_k = 0] the constructor sets [pre_k] to 0, and the slice
    [[-0:]] keeps every index instead of none. *)
Example pre_k_zero_keeps_all :
  pre_k (cfg (init (lit "knowledge_base") None None 700 80 32 0 None None
                   (lit "cache"))) = 0
  /\ pre_indices_of Demo.world [3; 1; 2]%Q 3 0 = [0; 2; 1]%nat.
Proof. split; vm_compute; reflexivity. Qed.

Lemma query_never_raises_witness :
  query Demo.world Demo.question Demo.start
  = Returns (system_answer msg_not_initialized) Demo.start
  /\ query Demo.world Demo.question Demo.broken
     = Returns (system_answer (msg_error (Exception (lit "unavailable"))))
               {| self := self Demo.broken;
                  trace := [CallEncode [Demo.question]] |}.
Proof.
  split.
  - apply (proj1 (proj2 (query_never_raises Demo.world Demo.question
                           Demo.start))).
    reflexivity.
  - apply (proj2 (proj2 (proj2 (query_never_raises Demo.world Demo.question
                                  Demo.broken)))).
    + reflexivity.
    + vm_compute. reflexivity.
Defined.

Lemma initialized_only_after_all_steps_witness :
  exists p',
    initialize 1 Demo.world Demo.start = Returns tt p'
    /\ initialized (self p') = true
    /\ steps_done 1 Demo.world (self Demo.start) (self p').
Proof.
  destruct demo_initialize as [t Ht].
  exists {| self := Demo.ready; trace := t |}.
  split; [exact Ht|]. split; [reflexivity|].
  exact (proj2 (proj1 (initialized_only_after_all_steps 1 Demo.world Demo.start)
                  {| self := Demo.ready; trace := t |} Ht eq_refl)).
Defined.

Lemma initialize_never_raises_witness :
  exists fuel p', initialize fuel Demo.world Demo.start = Returns tt p'.
Proof.
  apply (proj1 (proj2 (initialize_never_raises Demo.world Demo.start))).
  cbn. lia.
Defined.

(* ================================================================== *)
(** * More on [_chunk_documents]: what the chunks are *)
(* ================================================================== *)

Module ChunkerMap.
Import Chunker.

Lemma slice_in_range {A} (l : list A) (lo hi : Z) :
  0 <= lo <= hi -> hi <= len l ->
  slice l lo hi = firstn (Z.to_nat (hi - lo)) (skipn (Z.to_nat lo) l).
Proof.
  intros H1 H2. unfold slice, norm_index.
  destruct (lo <? 0) eqn:E1; [apply Z.ltb_lt in E1; lia|].
  destruct (hi <? 0) eqn:E2; [apply Z.ltb_lt in E2; lia|].
  rewrite !Z.min_l by lia. reflexivity.
Qed.

Lemma slice_length {A} (l : list A) (lo hi : Z) :
  0 <= lo <= hi -> hi <= len l -> len (slice l lo hi) = hi - lo.
Proof.
  intros H1 H2. rewrite slice_in_range by assumption. unfold len in *.
  rewrite length_firstn, length_skipn. lia.
Qed.

Lemma firstn_sub {A} (n : nat) (l : list A) : incl (firstn n l) l.
Proof.
  rewrite <- (firstn_skipn n l) at 2. apply incl_appl, incl_refl.
Qed.

Lemma slice_incl {A} (l : list A) (lo hi : Z) : incl (slice l lo hi) l.
Proof.
  unfold slice. intros x Hx. apply firstn_sub, skipn_incl in Hx. exact Hx.
Qed.

Lemma numbered_app cid a b :
  numbered cid (a ++ b) = numbered cid a ++ numbered (cid + len a) b.
Proof.
  revert cid. induction a as [|[t x] a IH]; intros cid; cbn [app numbered].
  - unfold len. cbn. now rewrite Z.add_0_r.
  - rewrite IH. do 3 f_equal. unfold len. cbn [length]. lia.
Qed.

(** The loop appends one chunk for each start it goes through. *)
Lemma window_loop_texts fuel cc co ttl para :
  forall start cid acc chunks' cid',
    window_loop fuel cc co ttl para start cid acc = Some (chunks', cid') ->
    chunks'
    = acc ++ numbered cid (map (fun s => (ttl, window_text cc para s))
                               (window_starts fuel cc co para start))
    /\ cid' = cid + len (window_starts fuel cc co para start).
Proof.
  induction fuel as [|fuel IH]; intros start cid acc chunks' cid' H.
  - discriminate.
  - cbn [window_loop window_starts] in *.
    destruct (start <? len para).
    + destruct (Z.min (len para) (start + cc) =? len para).
      * injection H as <- <-. cbn. split; reflexivity.
      * apply IH in H as [-> ->]. cbn [map numbered]. split.
        -- rewrite <- app_assoc. reflexivity.
        -- unfold len. cbn [length]. lia.
    + injection H as <- <-. cbn. rewrite app_nil_r. split; [reflexivity|lia].
Qed.

Lemma chunk_paragraph_texts fuel cc co ttl para cid acc chunks' cid' :
  chunk_paragraph fuel cc co ttl para cid acc = Some (chunks', cid') ->
  chunks' = acc ++ numbered cid (map (pair ttl) (paragraph_texts fuel cc co para))
  /\ cid' = cid + len (paragraph_texts fuel cc co para).
Proof.
  unfold chunk_paragraph, paragraph_texts.
  destruct (len para <=? cc).
  - intros [= <- <-]. split; reflexivity.
  - intros H. apply window_loop_texts in H as [-> ->].
    rewrite map_map. unfold len. rewrite length_map. split; reflexivity.
Qed.

Lemma chunk_paragraphs_texts fuel cc co ttl :
  forall paras cid acc chunks' cid',
    chunk_paragraphs fuel cc co ttl paras cid acc = Some (chunks', cid') ->
    chunks'
    = acc ++ numbered cid
               (map (pair ttl) (flat_map (paragraph_texts fuel cc co) paras))
    /\ cid' = cid + len (flat_map (paragraph_texts fuel cc co) paras).
Proof.
  induction paras as [|para rest IH]; intros cid acc chunks' cid' H.
  - injection H as <- <-. cbn. rewrite app_nil_r. split; [reflexivity|lia].
  - cbn [chunk_paragraphs] in H.
    destruct (chunk_paragraph fuel cc co ttl para cid acc) as [[a1 c1]|] eqn:E;
      [|discriminate].
    apply chunk_paragraph_texts in E as [-> ->].
    apply IH in H as [-> ->]. cbn [flat_map].
    rewrite map_app, numbered_app, <- app_assoc.
    unfold len. rewrite !length_app, !length_map. split; [reflexivity|lia].
Qed.

Lemma chunk_docs_texts fuel cc co :
  forall docs cid acc chunks' cid',
    chunk_docs fuel cc co docs cid acc = Some (chunks', cid') ->
    chunks' = acc ++ numbered cid (corpus_items fuel cc co docs)
    /\ cid' = cid + len (corpus_items fuel cc co docs).
Proof.
  induction docs as [|doc rest IH]; intros cid acc chunks' cid' H.
  - injection H as <- <-. cbn. rewrite app_nil_r. split; [reflexivity|lia].
  - cbn [chunk_docs] in H.
    destruct (chunk_paragraphs fuel cc co (doc_title doc)
                (paragraphs (content doc)) cid acc) as [[a1 c1]|] eqn:E;
      [|discriminate].
    apply chunk_paragraphs_texts in E as [-> ->].
    apply IH in H as [-> ->]. unfold corpus_items. cbn [flat_map].
    rewrite numbered_app, <- app_assoc.
    unfold len. rewrite !length_app, !length_map. split; [reflexivity|lia].
Qed.

(** When [_chunk_documents] returns, the chunk list is the list of the
    window texts of the paragraphs, in order, numbered from 0. *)
Lemma chunk_documents_items fuel cc co docs chunks :
  chunk_documents fuel cc co docs = Some chunks ->
  chunks = numbered 0 (corpus_items fuel cc co docs).
Proof.
  unfold chunk_documents.
  destruct (chunk_docs fuel cc co docs 0 []) as [[c n]|] eqn:E; [|discriminate].
  intros [= <-]. apply chunk_docs_texts in E as [-> _]. reflexivity.
Qed.

Lemma numbered_ids cid items :
  map id (numbered cid items)
  = map (fun i => cid + Z.of_nat i) (seq 0 (length items)).
Proof.
  revert cid. induction items as [|[t x] items IH]; intros cid; cbn.
  - reflexivity.
  - rewrite Z.add_0_r. f_equal. rewrite IH, <- seq_shift, map_map.
    apply map_ext. intros i. lia.
Qed.

Lemma numbered_length cid items : length (numbered cid items) = length items.
Proof.
  revert cid. induction items as [|[t x] items IH]; intros cid; cbn; auto.
Qed.

Lemma numbered_pairs cid items :
  map (fun c => (title c, text c)) (numbered cid items) = items.
Proof.
  revert cid. induction items as [|[t x] items IH]; intros cid; cbn.
  - reflexivity.
  - now rewrite IH.
Qed.

Lemma window_starts_range fuel cc co para :
  forall start, 0 <= start ->
    Forall (fun s => 0 <= s < len para) (window_starts fuel cc co para start).
Proof.
  induction fuel as [|fuel IH]; intros start Hs; cbn [window_starts].
  - constructor.
  - destruct (start <? len para) eqn:E; [|constructor].
    apply Z.ltb_lt in E. constructor; [lia|].
    destruct (_ =? _); [constructor|]. apply IH. lia.
Qed.

(** What every text of a paragraph satisfies, for a property [P] of lists
    that holds of the paragraph and goes down to its slices. *)
Lemma paragraph_texts_bound fuel cc co para :
  0 <= cc ->
  Forall (fun t => len t <= cc) (paragraph_texts fuel cc co para).
Proof.
  intros Hcc. unfold paragraph_texts.
  destruct (len para <=? cc) eqn:E.
  - apply Z.leb_le in E. repeat constructor. exact E.
  - apply Forall_map.
    eapply Forall_impl; [|apply (window_starts_range fuel cc co para 0); lia].
    cbn. intros s Hs. unfold window_text.
    rewrite slice_length by lia. lia.
Qed.

Lemma paragraph_texts_nonempty fuel cc co para :
  0 < cc -> para <> [] ->
  Forall (fun t => t <> []) (paragraph_texts fuel cc co para).
Proof.
  intros Hcc Hp. unfold paragraph_texts.
  destruct (len para <=? cc) eqn:E.
  - repeat constructor. exact Hp.
  - apply Forall_map.
    eapply Forall_impl; [|apply (window_starts_range fuel cc co para 0); lia].
    cbn. intros s Hs. unfold window_text. intros Hnil.
    apply (f_equal len) in Hnil. rewrite slice_length in Hnil by lia.
    cbn in Hnil. lia.
Qed.

Lemma paragraph_texts_incl fuel cc co para :
  Forall (fun t => incl t para) (paragraph_texts fuel cc co para).
Proof.
  unfold paragraph_texts. destruct (len para <=? cc).
  - repeat constructor. apply incl_refl.
  - apply Forall_map, Forall_forall. intros s _. apply slice_incl.
Qed.

End ChunkerMap.

Module ChunkerProps.
Import Chunker.

Lemma split_no_sep sep s : Forall (fun p => ~ In sep p) (split sep s).
Proof.
  induction s as [|c s IH]; cbn [split].
  - repeat constructor. intros [].
  - destruct (Ascii.eqb c sep) eqn:E.
    + constructor; [intros []|exact IH].
    + apply Ascii.eqb_neq in E.
      destruct (split sep s) as [|p ps]; inversion IH; subst.
      * repeat constructor. intros [H|[]]. congruence.
      * constructor; [|assumption]. intros [H|H]; [congruence|contradiction].
Qed.

Lemma strip_incl s : incl (strip s) s.
Proof.
  unfold strip. intros x Hx.
  destruct (SummaryFacts.lstrip_suffix (rstrip s)) as [t Ht].
  destruct (SummaryFacts.rstrip_prefix s) as [t' Ht'].
  rewrite Ht'. apply in_or_app. left. rewrite Ht. apply in_or_app. now right.
Qed.

(** A paragraph is not empty and holds no newline. *)
Lemma paragraphs_clean content0 :
  Forall (fun p => p <> [] /\ ~ In (chr 10) p) (paragraphs content0).
Proof.
  unfold paragraphs. apply Forall_map, Forall_forall. intros q Hq.
  apply filter_In in Hq as [Hin Ht]. split.
  - intros E. rewrite E in Ht. discriminate.
  - intros Hnl. apply strip_incl in Hnl.
    pose proof (split_no_sep (chr 10) content0) as Hs.
    rewrite Forall_forall in Hs. exact (Hs q Hin Hnl).
Qed.

(** The windows of a paragraph overlap by [chunk_overlap] characters and
    leave nothing out: from [start] on, the first window followed by the
    later ones without their first [chunk_overlap] characters is the rest
    of the paragraph. *)
Lemma windows_cover fuel cc co ttl para :
  0 <= co < cc ->
  forall start cid acc r,
    0 <= start < len para -> co < len para - start ->
    window_loop fuel cc co ttl para start cid acc = Some r ->
    exists t ts,
      map (window_text cc para) (window_starts fuel cc co para start) = t :: ts
      /\ t ++ concat (map (skipn (Z.to_nat co)) ts)
         = skipn (Z.to_nat start) para
      /\ co < len t.
Proof.
  intros Hco. induction fuel as [|fuel IH]; intros start cid acc r Hs Hrem H.
  - discriminate.
  - cbn [window_loop window_starts] in *.
    destruct (start <? len para) eqn:E0; [|apply Z.ltb_ge in E0; lia].
    destruct (Z.min (len para) (start + cc) =? len para) eqn:E1.
    + apply Z.eqb_eq in E1. exists (window_text cc para start), [].
      cbn [map concat]. rewrite app_nil_r. unfold window_text.
      rewrite E1. split; [reflexivity|]. split.
      * rewrite ChunkerMap.slice_in_range by lia.
        apply firstn_all2. rewrite length_skipn. unfold len. lia.
      * rewrite ChunkerMap.slice_length by lia. lia.
    + apply Z.eqb_neq in E1.
      assert (Hend : Z.min (len para) (start + cc) = start + cc) by lia.
      rewrite Hend in *.
      replace (Z.max 0 (start + cc - co)) with (start + cc - co) in * by lia.
      destruct (IH (start + cc - co) _ _ _ ltac:(lia) ltac:(lia) H)
        as (t' & ts' & Hmap & Hcat & Hlen).
      exists (window_text cc para start), (t' :: ts').
      cbn [map]. rewrite Hmap. split; [reflexivity|].
      assert (Ht : window_text cc para start
                   = firstn (Z.to_nat cc) (skipn (Z.to_nat start) para)).
      { unfold window_text. rewrite Hend.
        rewrite ChunkerMap.slice_in_range by lia. do 2 f_equal. lia. }
      split.
      * cbn [map concat]. rewrite Ht.
        rewrite <- (firstn_skipn (Z.to_nat cc) (skipn (Z.to_nat start) para))
          at 2.
        f_equal. rewrite skipn_skipn.
        replace (Z.to_nat cc + Z.to_nat start)%nat
          with (Z.to_nat co + Z.to_nat (start + cc - co))%nat by lia.
        rewrite <- skipn_skipn, <- Hcat, skipn_app.
        replace (Z.to_nat co - length t')%nat with 0%nat
          by (unfold len in Hlen; lia).
        reflexivity.
      * rewrite Ht. unfold len in *.
        rewrite length_firstn, length_skipn. lia.
Qed.

End ChunkerProps.

(** X1.  The chunks are numbered 0, 1, 2, ... in the order of the chunk
    list, across the documents. *)
Theorem chunk_ids_dense :
  forall fuel cc co docs chunks,
    Chunker.chunk_documents fuel cc co docs = Some chunks ->
    map id chunks = map Z.of_nat (seq 0 (length chunks)).
Proof.
  intros fuel cc co docs chunks H.
  apply ChunkerMap.chunk_documents_items in H. subst chunks.
  rewrite ChunkerMap.numbered_ids, ChunkerMap.numbered_length.
  apply map_ext. intros i. lia.
Qed.

Lemma chunk_ids_dense_witness :
  Chunker.chunk_documents 20 4 1 Sample.docs = Some Sample.pieces
  /\ map id Sample.pieces = map Z.of_nat (seq 0 (length Sample.pieces)).
Proof.
  split; [vm_compute; reflexivity|].
  apply (chunk_ids_dense 20 4 1 Sample.docs). vm_compute. reflexivity.
Defined.

(** X2.  With a window size that is not negative, no chunk is longer than
    [chunk_chars]. *)
Theorem chunks_within_window :
  forall fuel cc co docs chunks,
    0 <= cc ->
    Chunker.chunk_documents fuel cc co docs = Some chunks ->
    Forall (fun c => len (text c) <= cc) chunks.
Proof.
  intros fuel cc co docs chunks Hcc H.
  apply ChunkerMap.chunk_documents_items in H.
  assert (Hitems : Forall (fun it => len (snd it) <= cc)
                          (corpus_items fuel cc co docs)).
  { unfold corpus_items. apply Forall_flat_map, Forall_forall. intros d _.
    apply Forall_map. cbn [snd]. apply Forall_flat_map, Forall_forall.
    intros para _. now apply ChunkerMap.paragraph_texts_bound. }
  rewrite <- (ChunkerMap.numbered_pairs 0) in Hitems. rewrite <- H in Hitems.
  rewrite Forall_map in Hitems. exact Hitems.
Qed.

Lemma chunks_within_window_witness :
  Forall (fun c => len (text c) <= 4) Sample.pieces.
Proof.
  apply (chunks_within_window 20 4 1 Sample.docs);
    [lia | vm_compute; reflexivity].
Defined.

(** X3.  With a positive window size, no chunk is empty, no chunk holds a
    newline, and every chunk bears the title of a document of the
    corpus. *)
Theorem chunks_clean :
  forall fuel cc co docs chunks,
    0 < cc ->
    Chunker.chunk_documents fuel cc co docs = Some chunks ->
    Forall (fun c => text c <> [] /\ ~ In (chr 10) (text c)
                     /\ In (title c) (map doc_title docs)) chunks.
Proof.
  intros fuel cc co docs chunks Hcc H.
  apply ChunkerMap.chunk_documents_items in H.
  assert (Hitems : Forall (fun it => snd it <> [] /\ ~ In (chr 10) (snd it)
                                     /\ In (fst it) (map doc_title docs))
                          (corpus_items fuel cc co docs)).
  { unfold corpus_items. apply Forall_flat_map, Forall_forall. intros d Hd.
    apply Forall_map. cbn [fst snd]. apply Forall_flat_map, Forall_forall.
    intros para Hpara.
    pose proof (ChunkerProps.paragraphs_clean (content d)) as Hclean.
    rewrite Forall_forall in Hclean. destruct (Hclean para Hpara) as [Hne Hnl].
    pose proof (ChunkerMap.paragraph_texts_nonempty fuel cc co para Hcc Hne) as H1.
    pose proof (ChunkerMap.paragraph_texts_incl fuel cc co para) as H2.
    rewrite Forall_forall in *. intros t Ht. split; [now apply H1|]. split.
    - intros Hin. apply Hnl. exact (H2 t Ht _ Hin).
    - apply in_map. exact Hd. }
  rewrite <- (ChunkerMap.numbered_pairs 0) in Hitems. rewrite <- H in Hitems.
  rewrite Forall_map in Hitems. exact Hitems.
Qed.

Lemma chunks_clean_witness :
  Forall (fun c => text c <> [] /\ ~ In (chr 10) (text c)
                   /\ In (title c) (map doc_title Sample.docs))
         Sample.pieces.
Proof.
  apply (chunks_clean 20 4 1 Sample.docs); [lia | vm_compute; reflexivity].
Defined.

(** X4.  With an overlap that is not negative and below the window size,
    the chunks of one paragraph give the paragraph back: the text of the
    first, followed by the texts of the later ones without their first
    [chunk_overlap] characters, is the paragraph. *)
Theorem paragraph_recovered_from_chunks :
  forall fuel cc co ttl para cid acc chunks' cid',
    0 <= co < cc ->
    Chunker.chunk_paragraph fuel cc co ttl para cid acc = Some (chunks', cid') ->
    exists t ts,
      chunks' = acc ++ numbered cid (map (pair ttl) (t :: ts))
      /\ t ++ concat (map (skipn (Z.to_nat co)) ts) = para.
Proof.
  intros fuel cc co ttl para cid acc chunks' cid' Hco H.
  pose proof (ChunkerMap.chunk_paragraph_texts _ _ _ _ _ _ _ _ _ H) as [-> _].
  unfold Chunker.chunk_paragraph in H. unfold paragraph_texts.
  destruct (len para <=? cc) eqn:E.
  - exists para, []. cbn. rewrite app_nil_r. split; reflexivity.
  - apply Z.leb_gt in E.
    destruct (ChunkerProps.windows_cover fuel cc co ttl para Hco 0 cid acc _
                ltac:(lia) ltac:(lia) H) as (t & ts & Hmap & Hcat & _).
    exists t, ts. rewrite Hmap. split; [reflexivity|exact Hcat].
Qed.

Lemma paragraph_recovered_from_chunks_witness :
  exists t ts,
    firstn 3 Sample.pieces
    = [] ++ numbered 0 (map (pair (lit "a.txt")) (t :: ts))
    /\ t ++ concat (map (skipn (Z.to_nat 1)) ts) = lit "abcdefghij".
Proof.
  apply (paragraph_recovered_from_chunks 20 4 1 (lit "a.txt")
           (lit "abcdefghij") 0 [] (firstn 3 Sample.pieces) 3);
    [lia | vm_compute; reflexivity].
Defined.

(* ================================================================== *)
(** * More on the documents and the cache *)
(* ================================================================== *)

Module StripFacts.

Lemma lstrip_length s : (length (lstrip s) <= length s)%nat.
Proof.
  induction s as [|c s IH]; cbn; [lia|].
  destruct (isspace c); cbn; lia.
Qed.

Lemma lstrip_fixed_head c s : lstrip (c :: s) = c :: s -> isspace c = false.
Proof.
  cbn. destruct (isspace c); [|reflexivity].
  intros H. pose proof (lstrip_length s) as Hl. rewrite H in Hl. cbn in Hl. lia.
Qed.

Lemma lstrip_idem s : lstrip (lstrip s) = lstrip s.
Proof.
  induction s as [|c s IH]; cbn; [reflexivity|].
  destruct (isspace c) eqn:E; [exact IH|]. cbn. now rewrite E.
Qed.

Lemma rstrip_idem s : rstrip (rstrip s) = rstrip s.
Proof. unfold rstrip. now rewrite rev_involutive, lstrip_idem. Qed.

Lemma rstrip_of_suffix t v :
  rstrip (t ++ v) = t ++ v -> rstrip v = v.
Proof.
  unfold rstrip. intros H.
  apply (f_equal (@rev ascii)) in H. rewrite rev_involutive in H.
  rewrite rev_app_distr in H.
  destruct (rev v) as [|x xs] eqn:E.
  - apply (f_equal (@rev ascii)) in E. rewrite rev_involutive in E.
    now subst v.
  - cbn [app] in H. apply lstrip_fixed_head in H.
    cbn [lstrip]. rewrite H. rewrite <- E. apply rev_involutive.
Qed.

(** Trimming a trimmed string changes nothing. *)
Lemma strip_idem s : strip (strip s) = strip s.
Proof.
  unfold strip at 1.
  assert (H : rstrip (strip s) = strip s).
  { unfold strip. destruct (SummaryFacts.lstrip_suffix (rstrip s)) as [t Ht].
    apply (rstrip_of_suffix t). rewrite <- Ht. apply rstrip_idem. }
  rewrite H. unfold strip. apply lstrip_idem.
Qed.

Lemma basename_no_slash p :
  existsb (Ascii.eqb (chr 47)) (basename p) = false.
Proof.
  induction p as [|c p IH]; cbn [basename]; [reflexivity|].
  destruct (existsb (Ascii.eqb (chr 47)) p) eqn:E; [exact IH|].
  destruct (Ascii.eqb c (chr 47)) eqn:Ec; [exact E|].
  cbn [existsb]. rewrite Ascii.eqb_sym, Ec, E. reflexivity.
Qed.

End StripFacts.

(** X5.  [_load_documents] never raises and replaces the document list:
    every document it keeps comes from one listed file, has content that
    is not empty and has no white space at either end, and a title without
    directory part; files that cannot be read and files with only white
    space add nothing. *)
Theorem load_documents_clean :
  forall w p,
    exists docs,
      _load_documents w p
      = Returns tt {| self := set_documents docs (self p); trace := trace p |}
      /\ (length docs
          <= length (glob w (path_join (knowledge_base_dir (cfg (self p)))
                                       (lit "*.txt"))))%nat
      /\ Forall (fun d => content d <> [] /\ strip (content d) = content d
                          /\ existsb (Ascii.eqb (chr 47)) (doc_title d) = false
                          /\ exists fp raw,
                               In fp (glob w (path_join
                                                (knowledge_base_dir (cfg (self p)))
                                                (lit "*.txt")))
                               /\ read_text w fp = Ok raw
                               /\ content d = strip raw
                               /\ doc_title d = basename fp)
                docs.
Proof.
  intros w p. exists (loaded_documents w (cfg (self p))).
  split; [apply load_documents_run|]. unfold loaded_documents.
  set (files := glob w _). split.
  - induction files as [|f files IH]; cbn [flat_map length]; [lia|].
    rewrite length_app. unfold read_document at 1.
    destruct (read_text w f) as [raw|]; [|cbn; lia].
    destruct (truthy (strip raw)); cbn; lia.
  - apply Forall_flat_map, Forall_forall. intros fp Hfp.
    unfold read_document. destruct (read_text w fp) as [raw|] eqn:E;
      [|constructor].
    destruct (truthy (strip raw)) eqn:Et; [|constructor].
    repeat constructor; cbn [content doc_title].
    + intros Hnil. rewrite Hnil in Et. discriminate.
    + apply StripFacts.strip_idem.
    + apply StripFacts.basename_no_slash.
    + exists fp, raw. repeat split; assumption.
Qed.

(** X6.  [_load_cache] never raises, calls no model, writes no file and
    keeps the number of chunks; a miss leaves the embeddings as they were.
    When one of the two cache files is absent, or the chunk file cannot be
    read, does not hold a list, or holds a list of another length, it is a
    miss that leaves the whole state as it was. *)
Theorem load_cache_miss_is_safe :
  forall w p,
    (exists hit s',
        _load_cache w p = Returns hit {| self := s'; trace := trace p |}
        /\ length (chunks s') = length (chunks (self p))
        /\ cfg s' = cfg (self p) /\ _fingerprint s' = _fingerprint (self p)
        /\ (hit = false -> embeddings s' = embeddings (self p)))
    /\ (path_exists w (fst (_cache_paths (self p))) = false
        \/ path_exists w (snd (_cache_paths (self p))) = false
        \/ (exists e, json_load w (snd (_cache_paths (self p))) = Err e)
        \/ json_load w (snd (_cache_paths (self p))) = Ok JOther
        \/ (exists cached,
               json_load w (snd (_cache_paths (self p))) = Ok (JList cached)
               /\ length cached <> length (chunks (self p))) ->
        _load_cache w p = Returns false p).
Proof.
  intros w p. split.
  - destruct (load_cache_cases w p)
      as [(cached & e & _ & _ & _ & Hlen & _ & Hrun)
         | [Hrun | (cached & e & _ & Hlen & _ & Hrun)]]; rewrite Hrun.
    + do 2 eexists. split; [reflexivity|]. cbn. repeat split; auto.
      discriminate.
    + exists false, (self p). destruct p. cbn. repeat split.
    + do 2 eexists. split; [reflexivity|]. cbn. repeat split; auto.
  - unfold _load_cache, bind, get.
    intros [H | [H | [(e & H) | [H | (cached & H & Hlen)]]]].
    + rewrite H. now destruct p.
    + rewrite H, andb_false_r. now destruct p.
    + destruct (path_exists w _ && path_exists w _); [|now destruct p].
      unfold try_except, bind, lift. rewrite H. now destruct p.
    + destruct (path_exists w _ && path_exists w _); [|now destruct p].
      unfold try_except, bind, lift. rewrite H. now destruct p.
    + destruct (path_exists w _ && path_exists w _); [|now destruct p].
      unfold try_except, bind, lift. rewrite H. cbn [ret].
      destruct (len cached =? len (chunks (self p))) eqn:E;
        [apply len_eqb_length in E; contradiction|]. now destruct p.
Qed.

(** X7.  [_save_cache] never raises and leaves [self] as it is, whatever
    fails: it tries to write the embedding file, and tries to write the
    chunk file only when the first write has succeeded. *)
Theorem save_cache_best_effort :
  forall w p,
    _save_cache w p
    = Returns tt
        {| self := self p;
           trace := trace p
                    ++ WriteFile (fst (_cache_paths (self p)))
                    :: match np_save w (fst (_cache_paths (self p)))
                               (embeddings (self p)) with
                       | Ok _ => [WriteFile (snd (_cache_paths (self p)))]
                       | Err _ => []
                       end |}.
Proof.
  intros w p. unfold _save_cache, bind, get, try_except, emit, lift.
  cbn [self trace].
  destruct (np_save w _ _) as [[]|]; cbn [ret raise self trace];
    [|reflexivity].
  rewrite <- app_assoc.
  destruct (json_dump w _ _) as [[]|]; reflexivity.
Qed.

(* ================================================================== *)
(** * More on [initialize]: when the engine becomes ready *)
(* ================================================================== *)

Lemma load_qa_run w p :
  exists t,
    load_qa w p
    = Returns tt
        {| self := set_qa (match pipeline w (qa_model_name (cfg (self p))) with
                           | Ok q => Some q
                           | Err _ => None
                           end) (self p);
           trace := t |}.
Proof.
  unfold load_qa, bind, get, try_except, emit, lift, update. cbn [self trace].
  destruct (pipeline w _); cbn [ret raise self trace]; eauto.
Qed.

Lemma load_reranker_run w p :
  exists t,
    load_reranker w p
    = Returns tt
        {| self := set_reranker
                     (match CrossEncoder w (reranker_model_name (cfg (self p))) with
                      | Ok r => Some r
                      | Err _ => None
                      end) (self p);
           trace := t |}.
Proof.
  unfold load_reranker, bind, get, try_except, emit, lift, update.
  cbn [self trace].
  destruct (CrossEncoder w _); cbn [ret raise self trace]; eauto.
Qed.

(** The state [initialize] has built when it calls lines 44-51. *)
Lemma initialize_body_wp fuel w p c m (R : Engine -> Prop) :
  Chunker.chunk_documents fuel (chunk_chars (cfg (self p)))
    (chunk_overlap (cfg (self p))) (loaded_documents w (cfg (self p)))
  = Some c ->
  SentenceTransformer w (model_name (cfg (self p))) = Ok m ->
  (forall t2,
      wp (load_or_compute_embeddings w m)
         (fun _ p3 => R (self p3) /\ cfg (self p3) = cfg (self p))
         (fun _ _ => False)
         {| self := set_model (Some m)
                      (set_fingerprint
                         (Some (_compute_fingerprint w (cfg (self p))))
                         (set_chunks c
                            (set_documents (loaded_documents w (cfg (self p)))
                               (self p))));
            trace := t2 |}) ->
  wp (initialize_body fuel w)
     (fun _ p' =>
        exists s3,
          R s3
          /\ self p'
             = set_initialized true
                 (set_reranker
                    (match CrossEncoder w (reranker_model_name (cfg (self p))) with
                     | Ok r => Some r
                     | Err _ => None
                     end)
                    (set_qa
                       (match pipeline w (qa_model_name (cfg (self p))) with
                        | Ok q => Some q
                        | Err _ => None
                        end) s3)))
     (fun _ _ => False) p.
Proof.
  intros Hc Hm Hemb. unfold initialize_body.
  apply wp_bind. unfold wp at 1. rewrite load_documents_run.
  apply wp_bind. unfold wp at 1. rewrite chunk_documents_run. cbn [self trace].
  change (cfg (set_documents ?d ?s)) with (cfg s).
  change (documents (set_documents ?d ?s)) with d.
  rewrite Hc.
  apply wp_bind.
  match goal with
  | |- wp _ _ _ ?q => destruct (ensure_cache_dir_spec w q) as [t Ht]
  end.
  unfold wp at 1. rewrite Ht. cbn [self trace].
  do 8 wp_step. cbn [self trace].
  change (cfg (set_chunks ?f ?s)) with (cfg s).
  change (cfg (set_documents ?f ?s)) with (cfg s).
  rewrite Hm. do 2 wp_step. cbn [self trace].
  apply wp_bind. eapply wp_conseq; [apply Hemb | | auto].
  cbn beta. intros _ p3 [HR Hcfg].
  apply wp_bind. destruct (load_qa_run w p3) as [t4 Hrun4].
  unfold wp at 1. rewrite Hrun4.
  apply wp_bind.
  match goal with
  | |- wp _ _ _ ?q => destruct (load_reranker_run w q) as [t5 Hrun5]
  end.
  unfold wp at 1. rewrite Hrun5.
  apply wp_update. cbn [self trace].
  change (cfg (set_qa ?f ?s)) with (cfg s). rewrite Hcfg.
  exists (self p3). split; [exact HR|reflexivity].
Qed.

Lemma initialize_outcome fuel w p c (Q : Proc -> Prop) :
  Chunker.chunk_documents fuel (chunk_chars (cfg (self p)))
    (chunk_overlap (cfg (self p))) (loaded_documents w (cfg (self p)))
  = Some c ->
  wp (initialize_body fuel w) (fun _ p' => Q p') (fun _ _ => False) p ->
  exists p', initialize fuel w p = Returns tt p' /\ Q p'.
Proof.
  intros Hc Hwp. destruct (initialize_returns fuel w p c Hc) as [p' Hr].
  exists p'. split; [exact Hr|].
  pose proof (initialize_cases fuel w p) as Hcase. unfold wp in Hwp.
  destruct (initialize_body fuel w p) as [[] p1|e p1|].
  - rewrite Hcase in Hr. injection Hr as <-. exact Hwp.
  - contradiction.
  - congruence.
Qed.

Lemma load_or_compute_total w m p :
  (forall texts, exists e, encode m texts = Ok e) ->
  wp (load_or_compute_embeddings w m)
     (fun _ p3 => True /\ cfg (self p3) = cfg (self p))
     (fun _ _ => False) p.
Proof.
  intros Htot.
  pose proof (load_or_compute_spec w m p) as H. unfold wp in *.
  unfold load_or_compute_embeddings, bind in *.
  destruct (load_cache_cases w p)
    as [(cached & e & _ & _ & _ & _ & _ & Hrun)
       | [Hrun | (cached & e & _ & _ & _ & Hrun)]];
    rewrite Hrun in *; cbn [negb] in *.
  - cbn. split; reflexivity.
  - unfold get, emit, lift in *. cbn [self trace] in *.
    destruct (Htot (map text (chunks (self p)))) as [e He].
    rewrite He in *. cbn [ret] in *.
    destruct (save_cache_spec w
                {| self := set_embeddings (Some e) (self p);
                   trace := trace p ++ [CallEncode (map text (chunks (self p)))] |})
      as [t Ht].
    unfold update in *. cbn [self trace] in *. rewrite Ht. split; reflexivity.
  - unfold get, emit, lift in *. cbn [self trace] in *.
    change (chunks (set_chunks cached (self p))) with cached in *.
    destruct (Htot (map text cached)) as [e' He].
    rewrite He in *. cbn [ret] in *.
    destruct (save_cache_spec w
                {| self := set_embeddings (Some e') (set_chunks cached (self p));
                   trace := trace p ++ [CallEncode (map text cached)] |})
      as [t Ht].
    unfold update in *. cbn [self trace] in *. rewrite Ht. split; reflexivity.
Qed.

Lemma load_or_compute_cold w m p e :
  path_exists w (fst (_cache_paths (self p))) = false ->
  encode m (map text (chunks (self p))) = Ok e ->
  wp (load_or_compute_embeddings w m)
     (fun _ p3 => self p3 = set_embeddings (Some e) (self p)
                  /\ cfg (self p3) = cfg (self p))
     (fun _ _ => False) p.
Proof.
  intros Hex Henc. unfold wp, load_or_compute_embeddings, bind at 1.
  assert (Hmiss : _load_cache w p = Returns false p).
  { unfold _load_cache, bind, get. rewrite Hex. now destruct p. }
  rewrite Hmiss. cbn [negb]. unfold bind, get, emit, lift, update.
  cbn [self trace]. rewrite Henc. cbn [ret self trace].
  destruct (save_cache_spec w
              {| self := set_embeddings (Some e) (self p);
                 trace := trace p ++ [CallEncode (map text (chunks (self p)))] |})
    as [t Ht].
  rewrite Ht. split; reflexivity.
Qed.

(** X8.  Once chunking has ended and the embedding model has loaded, an
    encoder that does not raise is enough for [initialize()] to return with
    [initialized] true: a cache directory that cannot be made, a cache that
    cannot be read or written, a question-answering model or a reranker that
    cannot be loaded do not prevent it.  [self.qa] and [self.reranker] are
    the loaded models, or [None] for those that failed to load. *)
Theorem optional_failures_do_not_block_readiness :
  forall fuel w p c m,
    Chunker.chunk_documents fuel (chunk_chars (cfg (self p)))
      (chunk_overlap (cfg (self p))) (loaded_documents w (cfg (self p)))
    = Some c ->
    SentenceTransformer w (model_name (cfg (self p))) = Ok m ->
    (forall texts, exists e, encode m texts = Ok e) ->
    exists p',
      initialize fuel w p = Returns tt p'
      /\ initialized (self p') = true
      /\ qa (self p')
         = match pipeline w (qa_model_name (cfg (self p))) with
           | Ok q => Some q
           | Err _ => None
           end
      /\ reranker (self p')
         = match CrossEncoder w (reranker_model_name (cfg (self p))) with
           | Ok r => Some r
           | Err _ => None
           end.
Proof.
  intros fuel w p c m Hc Hm Htot.
  apply (initialize_outcome fuel w p c _ Hc).
  eapply wp_conseq;
    [apply (initialize_body_wp fuel w p c m (fun _ => True) Hc Hm) | | auto].
  - intros t2.
    eapply wp_conseq; [apply (load_or_compute_total w m _ Htot) | | auto].
    cbn [self]. intros _ p3 [_ H]. split; [exact I|exact H].
  - cbn beta. intros _ p' (s3 & _ & ->). repeat split.
Qed.

Lemma optional_failures_do_not_block_readiness_witness :
  exists p',
    initialize 10 Sample.hostile Demo.start = Returns tt p'
    /\ initialized (self p') = true
    /\ qa (self p') = None
    /\ reranker (self p') = None.
Proof.
  destruct (optional_failures_do_not_block_readiness 10 Sample.hostile
              Demo.start [Demo.chunk0] Demo.encoder)
    as (p' & H1 & H2 & H3 & H4).
  - vm_compute. reflexivity.
  - reflexivity.
  - intros texts. eexists. reflexivity.
  - exists p'. repeat split; [exact H1|exact H2|exact H3|exact H4].
Defined.

(** X9.  A cold start.  When no embedding file is in the cache under the
    fingerprint, chunking has ended, the embedding model has loaded and it
    encodes the chunk texts, [initialize()] returns with the loaded
    documents, the chunks of the chunker, the fingerprint, and the
    embeddings the model gave for the chunk texts, and with [initialized]
    true. *)
Theorem cold_start :
  forall fuel w p c m e,
    Chunker.chunk_documents fuel (chunk_chars (cfg (self p)))
      (chunk_overlap (cfg (self p))) (loaded_documents w (cfg (self p)))
    = Some c ->
    SentenceTransformer w (model_name (cfg (self p))) = Ok m ->
    (forall path, path_exists w path = false) ->
    encode m (map text c) = Ok e ->
    exists p',
      initialize fuel w p = Returns tt p'
      /\ initialized (self p') = true
      /\ documents (self p') = loaded_documents w (cfg (self p))
      /\ chunks (self p') = c
      /\ embeddings (self p') = Some e
      /\ model (self p') = Some m
      /\ _fingerprint (self p') = Some (_compute_fingerprint w (cfg (self p)))
      /\ cfg (self p') = cfg (self p).
Proof.
  intros fuel w p c m e Hc Hm Hex Henc.
  apply (initialize_outcome fuel w p c _ Hc).
  eapply wp_conseq;
    [apply (initialize_body_wp fuel w p c m
              (fun s3 =>
                 s3 = set_embeddings (Some e)
                        (set_model (Some m)
                           (set_fingerprint
                              (Some (_compute_fingerprint w (cfg (self p))))
                              (set_chunks c
                                 (set_documents
                                    (loaded_documents w (cfg (self p)))
                                    (self p))))))
              Hc Hm)
    | | auto].
  - intros t2.
    eapply wp_conseq;
      [apply (load_or_compute_cold w m _ e); [apply Hex|exact Henc] | | auto].
    cbn [self]. intros _ p3 [H1 H2]. split; [exact H1|exact H2].
  - cbn beta. intros _ p' (s3 & -> & ->). repeat split.
Qed.

Lemma cold_start_witness :
  exists p',
    initialize 10 Demo.world Demo.start = Returns tt p'
    /\ initialized (self p') = true
    /\ chunks (self p') = [Demo.chunk0]
    /\ embeddings (self p') = Some [[70 # 1; 1]]%Q.
Proof.
  destruct (cold_start 10 Demo.world Demo.start [Demo.chunk0] Demo.encoder
              [[70 # 1; 1]]%Q)
    as (p' & H1 & H2 & _ & H4 & H5 & _).
  - vm_compute. reflexivity.
  - reflexivity.
  - reflexivity.
  - vm_compute. reflexivity.
  - exists p'. repeat split; [exact H1|exact H2|exact H4|exact H5].
Defined.

(* ================================================================== *)
(** * More on [query]: reranking, sources, size of the answer *)
(* ================================================================== *)

Module RerankFacts.

Section Desc.
Context {A : Type} (key : A -> Q).

Lemma insert_desc_perm x l : Permutation (insert_desc key x l) (x :: l).
Proof.
  induction l as [|y l IH]; cbn.
  - apply Permutation_refl.
  - destruct (Qle_bool (key y) (key x)).
    + apply Permutation_refl.
    + eapply Permutation_trans; [apply perm_skip, IH|apply perm_swap].
Qed.

Lemma insert_desc_sorted x l :
  StronglySorted (ge_key key) l -> StronglySorted (ge_key key) (insert_desc key x l).
Proof.
  induction 1 as [|y l Hs IH Hf]; cbn.
  - repeat constructor.
  - destruct (Qle_bool (key y) (key x)) eqn:E.
    + apply Qle_bool_iff in E.
      constructor; [now constructor|].
      constructor; [exact E|].
      eapply Forall_impl; [|exact Hf].
      intros z Hz. unfold ge_key in *. eapply Qle_trans; eassumption.
    + assert (Hxy : ge_key key y x).
      { unfold ge_key. apply Qlt_le_weak, Qnot_le_lt.
        intros H. apply Qle_bool_iff in H. congruence. }
      constructor; [exact IH|].
      eapply Permutation_Forall;
        [apply Permutation_sym, insert_desc_perm|].
      now constructor.
Qed.

Lemma sorted_desc_perm l : Permutation (sorted_desc key l) l.
Proof.
  induction l as [|x l IH]; cbn.
  - constructor.
  - eapply Permutation_trans; [apply insert_desc_perm|]. now apply perm_skip.
Qed.

Lemma sorted_desc_sorted l : StronglySorted (ge_key key) (sorted_desc key l).
Proof.
  induction l as [|x l IH]; cbn.
  - constructor.
  - now apply insert_desc_sorted.
Qed.

(** A list that is already in descending order, ties included, is left
    as it is. *)
Lemma sorted_desc_fixed l : StronglySorted (ge_key key) l -> sorted_desc key l = l.
Proof.
  induction 1 as [|x l Hs IH Hf]; cbn; [reflexivity|].
  unfold sorted_desc in IH. rewrite IH.
  destruct l as [|y l]; cbn; [reflexivity|].
  inversion Hf as [|? ? Hy _]; subst.
  apply Qle_bool_iff in Hy. now rewrite Hy.
Qed.

End Desc.

Lemma rerank_run q pre p r scores :
  reranker (self p) = Some r ->
  predict r (map (fun c => (q, text c)) pre) = Ok scores ->
  rerank q pre p
  = Returns (map fst (slice_to (sorted_desc snd (combine pre scores))
                               (top_k (cfg (self p)))))
      {| self := self p;
         trace := trace p ++ [CallPredict (map (fun c => (q, text c)) pre)] |}.
Proof.
  intros Hr Hp. unfold rerank, bind at 1, get. rewrite Hr.
  unfold try_except, bind, emit, lift. cbn [self trace]. rewrite Hp.
  reflexivity.
Qed.

Lemma combine_sorted {A} (l : list A) (scores : list Q) :
  length scores = length l ->
  StronglySorted (fun a b => (b <= a)%Q) scores ->
  StronglySorted (ge_key (@snd A Q)) (combine l scores).
Proof.
  revert scores. induction l as [|x l IH]; intros [|s scores] Hlen Hs;
    cbn in *; try discriminate; [constructor|].
  inversion Hs as [|? ? Hs' Hf]; subst.
  constructor; [apply IH; [lia|exact Hs']|].
  apply Forall_forall. intros [y t] Hin. unfold ge_key. cbn [snd].
  apply in_combine_r in Hin. rewrite Forall_forall in Hf. now apply Hf.
Qed.

End RerankFacts.

(** X10.  With a reranker that answers, the top chunks are the first
    [top_k] of the pairs (chunk, score) put in non-increasing order of
    score; chunks beyond the number of scores are dropped with the pairing,
    so there are [min(top_k, len(pre_chunks), len(scores))] top chunks, all
    taken from the pre-shortlist. *)
Theorem rerank_orders_by_score :
  forall q pre p r scores,
    reranker (self p) = Some r ->
    predict r (map (fun c => (q, text c)) pre) = Ok scores ->
    0 <= top_k (cfg (self p)) ->
    exists ranked top p',
      rerank q pre p = Returns top p'
      /\ self p' = self p
      /\ top = map fst (firstn (Z.to_nat (top_k (cfg (self p)))) ranked)
      /\ Permutation ranked (combine pre scores)
      /\ StronglySorted (fun a b => (snd b <= snd a)%Q) ranked
      /\ length top
         = Nat.min (Z.to_nat (top_k (cfg (self p))))
                   (Nat.min (length pre) (length scores))
      /\ incl top pre.
Proof.
  intros q pre p r scores Hr Hp Hk.
  exists (sorted_desc snd (combine pre scores)).
  do 2 eexists. split; [apply (RerankFacts.rerank_run q pre p r scores Hr Hp)|].
  rewrite slice_to_firstn by exact Hk.
  pose proof (RerankFacts.sorted_desc_perm (@snd Chunk Q) (combine pre scores))
    as Hperm.
  repeat split.
  - exact Hperm.
  - apply (RerankFacts.sorted_desc_sorted (@snd Chunk Q)).
  - rewrite length_map, length_firstn, (Permutation_length Hperm),
      length_combine. reflexivity.
  - intros c Hc. apply in_map_iff in Hc as ([c' s] & <- & Hin).
    apply ChunkerMap.firstn_sub in Hin.
    apply (Permutation_in _ Hperm) in Hin.
    apply in_combine_l in Hin. exact Hin.
Qed.

Lemma rerank_orders_by_score_witness :
  exists ranked top p',
    rerank Demo.question [Demo.chunk_a; Demo.chunk_b] Sample.with_reranker
    = Returns top p'
    /\ top = map fst (firstn 5 ranked)
    /\ Permutation ranked
         (combine [Demo.chunk_a; Demo.chunk_b] [8 # 1; 9 # 1]%Q)
    /\ StronglySorted (fun a b => (snd b <= snd a)%Q) ranked.
Proof.
  destruct (rerank_orders_by_score Demo.question [Demo.chunk_a; Demo.chunk_b]
              Sample.with_reranker Sample.by_length [8 # 1; 9 # 1]%Q)
    as (ranked & top & p' & H1 & _ & H3 & H4 & H5 & _).
  - reflexivity.
  - vm_compute. reflexivity.
  - vm_compute. discriminate.
  - exists ranked, top, p'. repeat split; [exact H1|exact H3|exact H4|exact H5].
Defined.

(** X11.  A reranker that gives one score per chunk, in an order that is
    already non-increasing (equal scores included), changes nothing: the
    top chunks are the first [top_k] chunks of the pre-shortlist in their
    order. *)
Theorem rerank_keeps_descending_order :
  forall q pre p r scores,
    reranker (self p) = Some r ->
    predict r (map (fun c => (q, text c)) pre) = Ok scores ->
    0 <= top_k (cfg (self p)) ->
    length scores = length pre ->
    StronglySorted (fun a b => (b <= a)%Q) scores ->
    exists p',
      rerank q pre p
      = Returns (firstn (Z.to_nat (top_k (cfg (self p)))) pre) p'
      /\ self p' = self p.
Proof.
  intros q pre p r scores Hr Hp Hk Hlen Hs.
  rewrite (RerankFacts.rerank_run q pre p r scores Hr Hp).
  rewrite slice_to_firstn by exact Hk.
  rewrite (RerankFacts.sorted_desc_fixed (@snd Chunk Q))
    by (apply RerankFacts.combine_sorted; assumption).
  rewrite <- firstn_map, map_fst_combine by (symmetry; exact Hlen).
  eexists. split; reflexivity.
Qed.

Lemma rerank_keeps_descending_order_witness :
  exists p',
    rerank Demo.question [Demo.chunk_b; Demo.chunk_a] Sample.with_reranker
    = Returns (firstn 5 [Demo.chunk_b; Demo.chunk_a]) p'
    /\ self p' = self Sample.with_reranker.
Proof.
  apply (rerank_keeps_descending_order Demo.question
           [Demo.chunk_b; Demo.chunk_a] Sample.with_reranker Sample.by_length
           [9 # 1; 8 # 1]%Q).
  - reflexivity.
  - vm_compute. reflexivity.
  - vm_compute. discriminate.
  - reflexivity.
  - repeat constructor. vm_compute. discriminate.
Defined.

Module SourceFacts.

Lemma str_eqb_true a b : str_eqb a b = true <-> a = b.
Proof.
  unfold str_eqb. destruct (list_eq_dec ascii_dec a b); split;
    intros H; try reflexivity; try assumption; try discriminate; contradiction.
Qed.

Lemma seen_iff x seen : existsb (str_eqb x) seen = true <-> In x seen.
Proof.
  rewrite existsb_exists. split.
  - intros (y & Hy & E). apply str_eqb_true in E. now subst.
  - intros H. exists x. split; [exact H|]. now apply str_eqb_true.
Qed.


End SourceFacts.


Module AnswerFacts.

Lemma rsplit1_length sep s :
  (length (rsplit1_head sep s) <= length s)%nat.
Proof.
  induction s as [|c s IH]; cbn [rsplit1_head]; [lia|].
  destruct (existsb (Ascii.eqb sep) s); [cbn; lia|].
  destruct (Ascii.eqb c sep); cbn; lia.
Qed.

Lemma summarize_length selected : len (summarize selected) <= 800.
Proof.
  unfold summarize. fold (collapsed_text selected).
  destruct (800 <? len (collapsed_text selected)) eqn:E.
  - apply Z.ltb_lt in E. rewrite SummaryFacts.slice_prefix by lia.
    pose proof (rsplit1_length (chr 32)
                  (firstn (Z.to_nat 800) (collapsed_text selected))) as H.
    rewrite length_firstn in H. unfold len. lia.
  - apply Z.ltb_ge in E. exact E.
Qed.

End AnswerFacts.

(** X13.  The answer built by [_build_answer] is an introduction followed
    by at most 800 characters: with a seed it is at most 802 characters
    longer than the seed, without one it has at most 843 characters,
    however long the chunks are. *)
Theorem build_answer_bounded :
  forall question top_chunks base_answer,
    len (_build_answer question top_chunks base_answer)
    <= (if truthy base_answer then len base_answer + 2 else 43) + 800.
Proof.
  intros question top_chunks base_answer. unfold _build_answer. cbv zeta.
  match goal with
  | |- len (_ ++ summarize ?sel) <= _ =>
      pose proof (AnswerFacts.summarize_length sel) as Hs
  end.
  unfold len in *. rewrite length_app.
  destruct (truthy base_answer).
  - destruct (endswith base_answer (chr 46)); rewrite length_app; cbn [length lit];
      cbn; lia.
  - change (length intro_default) with 43%nat. lia.
Qed.

Module QueryFrame.

Lemma only_calls_refl n p : only_calls n p p.
Proof.
  split; [reflexivity|]. exists []. rewrite app_nil_r.
  repeat split; [cbn; lia|constructor].
Qed.

Lemma only_calls_one ev p :
  is_model_call ev ->
  only_calls 1 p {| self := self p; trace := trace p ++ [ev] |}.
Proof.
  intros H. split; [reflexivity|]. exists [ev].
  repeat split; [cbn; lia|]. now repeat constructor.
Qed.

Lemma only_calls_trans a b p p1 p2 :
  only_calls a p p1 -> only_calls b p1 p2 -> only_calls (a + b) p p2.
Proof.
  intros (Hs1 & e1 & Ht1 & Hl1 & Hf1) (Hs2 & e2 & Ht2 & Hl2 & Hf2).
  split; [congruence|]. exists (e1 ++ e2).
  rewrite Ht2, Ht1, app_assoc, length_app. repeat split; [lia|].
  apply Forall_app. now split.
Qed.

Lemma only_calls_weaken a b p p' :
  (a <= b)%nat -> only_calls a p p' -> only_calls b p p'.
Proof.
  intros Hab (Hs & e & Ht & Hl & Hf). split; [exact Hs|].
  exists e. repeat split; [exact Ht|lia|exact Hf].
Qed.

Lemma retrieve_calls w q p :
  wp (retrieve w q) (fun _ p' => only_calls 1 p p')
     (fun _ p' => only_calls 1 p p') p.
Proof.
  unfold retrieve. do 3 wp_step.
  destruct (model (self p)) as [m|]; wp_step; [|apply only_calls_refl].
  do 4 wp_step. cbn [self trace].
  assert (H1 : only_calls 1 p
                 {| self := self p; trace := trace p ++ [CallEncode [q]] |})
    by (apply only_calls_one; exact I).
  destruct (encode m [q]) as [vs|e]; [|exact H1].
  wp_step. destruct vs as [|v vs]; wp_step; [exact H1|].
  wp_step. destruct (embeddings (self p)) as [emb|]; wp_step; [|exact H1].
  do 2 wp_step. destruct (np_dot emb v) as [sims|e]; [|exact H1].
  wp_step. cbn [self]. destruct (index_all _ _); exact H1.
Qed.

Lemma rerank_calls q pre p :
  wp (rerank q pre) (fun _ p' => only_calls 1 p p')
     (fun _ p' => only_calls 1 p p') p.
Proof.
  unfold rerank. do 2 wp_step.
  destruct (reranker (self p)) as [r|]; [|wp_step; apply only_calls_refl].
  do 5 wp_step. cbn [self trace].
  destruct (predict r _) as [scores|e]; wp_step;
    apply only_calls_one; exact I.
Qed.

Lemma focused_answer_calls q top p :
  wp (focused_answer q top) (fun _ p' => only_calls 1 p p')
     (fun _ p' => only_calls 1 p p') p.
Proof.
  unfold focused_answer. do 2 wp_step.
  destruct (qa (self p)) as [qq|]; [|wp_step; apply only_calls_refl].
  do 5 wp_step. cbn [self trace].
  destruct (run_qa qq q (context_of top)) as [out|e];
    [|wp_step; apply only_calls_one; exact I].
  cbv beta zeta.
  destruct (truthy (qa_candidate out) && Qle_bool threshold (qa_confidence out));
    [destruct (len (qa_candidate out) <? 40)|];
    wp_step; apply only_calls_one; exact I.
Qed.

Lemma extract_calls q top p :
  wp (extract q top) (fun _ p' => only_calls 1 p p')
     (fun _ p' => only_calls 1 p p') p.
Proof.
  unfold extract. apply wp_bind.
  eapply wp_conseq; [apply focused_answer_calls| |auto].
  intros [a|] p' H; wp_step; exact H.
Qed.

Lemma query_body_calls w q p :
  wp (query_body w q) (fun _ p' => only_calls 3 p p')
     (fun _ p' => only_calls 3 p p') p.
Proof.
  unfold query_body. do 2 wp_step.
  destruct (negb (truthy (chunks (self p))));
    [wp_step; apply only_calls_refl|].
  apply wp_bind.
  eapply wp_conseq; [apply retrieve_calls| |].
  - intros pre p1 H1. apply wp_bind.
    eapply wp_conseq; [apply rerank_calls| |].
    + intros top p2 H2.
      eapply wp_conseq; [apply extract_calls| |];
        intros ? p3 H3;
        apply (only_calls_trans 2 1 p p2 p3);
        try exact H3; apply (only_calls_trans 1 1 p p1 p2); assumption.
    + intros e p2 H2. apply (only_calls_weaken 2 3); [lia|].
      apply (only_calls_trans 1 1 p p1 p2); assumption.
  - intros e p1 H1. apply (only_calls_weaken 1 3); [lia|exact H1].
Qed.

End QueryFrame.

(** X14.  [query] only reads the engine: whatever it returns, [self] is
    as before, and what it did to the outside is at most three calls, each
    to one of the models; it writes no file and loads no model. *)
Theorem query_reads_only :
  forall w question p a p',
    query w question p = Returns a p' ->
    self p' = self p
    /\ exists evs, trace p' = trace p ++ evs
                   /\ (length evs <= 3)%nat
                   /\ Forall is_model_call evs.
Proof.
  intros w question p a p' H.
  assert (Hwp : wp (query w question) (fun _ q => only_calls 3 p q)
                   (fun _ _ => True) p).
  { unfold query. do 2 wp_step.
    destruct (negb (initialized (self p)));
      [wp_step; apply QueryFrame.only_calls_refl|].
    apply wp_try.
    eapply wp_conseq; [apply QueryFrame.query_body_calls| |].
    - intros ? q Hq. exact Hq.
    - intros e q Hq. wp_step. exact Hq. }
  exact (wp_of_returns _ _ _ _ _ _ Hwp H).
Qed.

Lemma query_reads_only_witness :
  exists a p',
    query Demo.world Demo.question {| self := Demo.ready; trace := [] |}
    = Returns a p'
    /\ self p' = Demo.ready
    /\ exists evs, trace p' = [] ++ evs
                   /\ (length evs <= 3)%nat
                   /\ Forall is_model_call evs.
Proof.
  destruct (query Demo.world Demo.question
              {| self := Demo.ready; trace := [] |}) as [a p'| |] eqn:E;
    [|vm_compute in E; discriminate E..].
  exists a, p'. split; [reflexivity|].
  exact (query_reads_only Demo.world Demo.question
           {| self := Demo.ready; trace := [] |} a p' E).
Defined.

(* ================================================================== *)
(** * More on the fingerprint: the order of the directory listing *)
(* ================================================================== *)

Module SortFacts.

Lemma str_leb_total a : forall b, str_le a b \/ str_le b a.
Proof.
  unfold str_le. induction a as [|x a IH]; intros [|y b]; cbn [str_leb]; auto.
  destruct (Nat.ltb_spec (ord x) (ord y)), (Nat.ltb_spec (ord y) (ord x));
    auto.
Qed.

Lemma str_leb_trans a : forall b c, str_le a b -> str_le b c -> str_le a c.
Proof.
  unfold str_le.
  induction a as [|x a IH]; intros [|y b] [|z c]; cbn [str_leb]; auto;
    try discriminate.
  destruct (Nat.ltb_spec (ord x) (ord y)), (Nat.ltb_spec (ord y) (ord x)),
    (Nat.ltb_spec (ord y) (ord z)), (Nat.ltb_spec (ord z) (ord y)),
    (Nat.ltb_spec (ord x) (ord z)), (Nat.ltb_spec (ord z) (ord x));
    try discriminate; try lia; auto.
  apply IH.
Qed.

Lemma str_leb_antisym a : forall b, str_le a b -> str_le b a -> a = b.
Proof.
  unfold str_le. induction a as [|x a IH]; intros [|y b]; cbn [str_leb]; auto;
    try discriminate.
  destruct (Nat.ltb_spec (ord x) (ord y)), (Nat.ltb_spec (ord y) (ord x));
    try discriminate; try lia.
  intros H1 H2. f_equal; [apply FingerprintFacts.ord_inj; lia|now apply IH].
Qed.

Lemma insert_str_sorted x l :
  StronglySorted str_le l -> StronglySorted str_le (insert_str x l).
Proof.
  induction 1 as [|y l Hs IH Hf]; cbn.
  - repeat constructor.
  - destruct (str_leb x y) eqn:E.
    + constructor; [now constructor|]. constructor; [exact E|].
      eapply Forall_impl; [|exact Hf]. intros z Hz.
      eapply str_leb_trans; eassumption.
    + assert (Hyx : str_le y x).
      { destruct (str_leb_total x y) as [H|H]; [unfold str_le in H; congruence|exact H]. }
      constructor; [exact IH|].
      eapply Permutation_Forall;
        [apply Permutation_sym, FingerprintFacts.insert_str_perm|].
      now constructor.
Qed.

Lemma sorted_str_sorted l : StronglySorted str_le (sorted_str l).
Proof.
  induction l as [|x l IH]; cbn; [constructor|]. now apply insert_str_sorted.
Qed.

(** Two sorted lists with the same elements are the same list. *)
Lemma sorted_unique l :
  forall l', StronglySorted str_le l -> StronglySorted str_le l' ->
             Permutation l l' -> l = l'.
Proof.
  induction l as [|x l IH]; intros [|y l'] Hs Hs' Hp.
  - reflexivity.
  - apply Permutation_nil in Hp. discriminate.
  - apply Permutation_sym, Permutation_nil in Hp. discriminate.
  - inversion Hs as [|? ? Hs1 Hf1]; subst.
    inversion Hs' as [|? ? Hs2 Hf2]; subst.
    assert (Hxy : x = y).
    { assert (Hx : In x (y :: l')) by (apply (Permutation_in _ Hp); now left).
      assert (Hy : In y (x :: l))
        by (apply (Permutation_in _ (Permutation_sym Hp)); now left).
      rewrite Forall_forall in Hf1, Hf2.
      destruct Hx as [->|Hx]; [reflexivity|].
      destruct Hy as [->|Hy]; [reflexivity|].
      apply str_leb_antisym; [now apply Hf1|now apply Hf2]. }
    subst y. f_equal. apply IH; try assumption.
    eapply Permutation_cons_inv. exact Hp.
Qed.

Lemma sorted_str_of_permutation l l' :
  Permutation l l' -> sorted_str l = sorted_str l'.
Proof.
  intros Hp. apply sorted_unique; try apply sorted_str_sorted.
  eapply Permutation_trans; [apply FingerprintFacts.sorted_str_perm|].
  eapply Permutation_trans; [exact Hp|].
  apply Permutation_sym, FingerprintFacts.sorted_str_perm.
Qed.

End SortFacts.

(** X15.  The fingerprint does not depend on the order in which the
    directory is listed: two listings of the same files, with the same
    sizes and times and the same settings, give the same fingerprint. *)
Theorem fingerprint_ignores_listing_order :
  forall w c w' c',
    model_name c = model_name c' ->
    chunk_chars c = chunk_chars c' ->
    chunk_overlap c = chunk_overlap c' ->
    Permutation (glob w (corpus_pattern c)) (glob w' (corpus_pattern c')) ->
    (forall fp, os_stat w fp = os_stat w' fp) ->
    _compute_fingerprint w c = _compute_fingerprint w' c'.
Proof.
  intros w c w' c' Hm Hcc Hco Hperm Hstat.
  unfold _compute_fingerprint, fingerprint_stream.
  fold (corpus_pattern c) (corpus_pattern c').
  rewrite Hm, Hcc, Hco, (SortFacts.sorted_str_of_permutation _ _ Hperm).
  do 5 f_equal. apply FingerprintFacts.flat_map_agree.
  intros fp _. unfold file_block. now rewrite Hstat.
Qed.

Lemma fingerprint_ignores_listing_order_witness :
  _compute_fingerprint (Demo.with_files [Sample.file_a; Sample.file_b])
    (cfg Demo.engine0)
  = _compute_fingerprint (Demo.with_files [Sample.file_b; Sample.file_a])
      (cfg Demo.engine0).
Proof.
  apply (fingerprint_ignores_listing_order
           (Demo.with_files [Sample.file_a; Sample.file_b]) (cfg Demo.engine0)
           (Demo.with_files [Sample.file_b; Sample.file_a]) (cfg Demo.engine0));
    try reflexivity.
  apply perm_swap.
Defined.

(* ================================================================== *)
(** * [app.py]: keyword answers and the chat endpoint *)
(* ================================================================== *)

Module AppFacts.

Lemma match_sinonimos_none items q :
  match_sinonimos items q = None
  <-> Forall (fun kv => contains q (fst kv) = false) items.
Proof.
  induction items as [|[termo chave] items IH]; cbn [match_sinonimos].
  - split; [constructor|reflexivity].
  - destruct (contains q termo) eqn:E.
    + split; [discriminate|]. intros H. inversion H; subst. cbn [fst] in *. congruence.
    + rewrite IH. split; intros H; [now constructor|now inversion H].
Qed.

Lemma match_sinonimos_some items q r :
  match_sinonimos items q = Some r ->
  exists kv, In kv items /\ r = dict_get RESPOSTAS (snd kv).
Proof.
  induction items as [|[termo chave] items IH]; cbn [match_sinonimos];
    [discriminate|].
  destruct (contains q termo).
  - intros [= <-]. exists (termo, chave). split; [now left|reflexivity].
  - intros H. destruct (IH H) as (kv & Hin & Hr). exists kv. split; [now right|exact Hr].
Qed.

Lemma match_respostas_none items q :
  match_respostas items q = None
  <-> Forall (fun kv => contains q (lower (fst kv)) = false) items.
Proof.
  induction items as [|[k v] items IH]; cbn [match_respostas].
  - split; [constructor|reflexivity].
  - destruct (contains q (lower k)) eqn:E.
    + split; [discriminate|]. intros H. inversion H; subst. cbn [fst] in *. congruence.
    + rewrite IH. split; intros H; [now constructor|now inversion H].
Qed.

Lemma match_respostas_some items q r :
  match_respostas items q = Some r -> In r (map snd items).
Proof.
  induction items as [|[k v] items IH]; cbn [match_respostas]; [discriminate|].
  destruct (contains q (lower k)).
  - intros [= <-]. now left.
  - intros H. right. now apply IH.
Qed.

(** Every synonym leads to a key of [RESPOSTAS]. *)
Lemma sinonimos_have_answers :
  Forall (fun kv => exists r, dict_get RESPOSTAS (snd kv) = Some r
                              /\ In r (map snd RESPOSTAS))
         SINONIMOS.
Proof.
  assert (H : forallb (fun kv =>
                match dict_get RESPOSTAS (snd kv) with
                | Some r => existsb (str_eqb r) (map snd RESPOSTAS)
                | None => false
                end) SINONIMOS = true) by (vm_compute; reflexivity).
  rewrite forallb_forall in H. apply Forall_forall. intros kv Hin.
  specialize (H kv Hin).
  destruct (dict_get RESPOSTAS (snd kv)) as [r|]; [|discriminate].
  exists r. split; [reflexivity|]. now apply SourceFacts.seen_iff.
Qed.

Lemma respostas_not_empty : Forall (fun r => r <> []) (map snd RESPOSTAS).
Proof.
  assert (H : forallb truthy (map snd RESPOSTAS) = true)
    by (vm_compute; reflexivity).
  rewrite forallb_forall in H. apply Forall_forall. intros r Hin Hr.
  specialize (H r Hin). rewrite Hr in H. discriminate H.
Qed.

Lemma strip_blank s : forallb isspace s = true -> strip s = [].
Proof.
  assert (Hl : forall t, forallb isspace t = true -> lstrip t = []).
  { induction t as [|c t IH]; cbn; [reflexivity|].
    intros H. apply andb_prop in H as [-> H]. now apply IH. }
  intros H. unfold strip, rstrip. rewrite (Hl (rev s)); [reflexivity|].
  rewrite forallb_forall in *. intros x Hx. apply H. now apply in_rev.
Qed.

End AppFacts.

(** X16.  [match_fallback] gives no answer exactly when the question holds
    no synonym and no key (in lower case); an answer it gives is never
    missing or empty: it is one of the texts of [RESPOSTAS]. *)
Theorem match_fallback_answers :
  forall query_lower,
    (match_fallback query_lower = None
     <-> Forall (fun kv => contains query_lower (fst kv) = false) SINONIMOS
         /\ Forall (fun kv => contains query_lower (lower (fst kv)) = false)
                   RESPOSTAS)
    /\ (forall r, match_fallback query_lower = Some r ->
                  r <> [] /\ In r (map snd RESPOSTAS)).
Proof.
  intros q.
  pose proof AppFacts.sinonimos_have_answers as Hsyn.
  pose proof AppFacts.respostas_not_empty as Hne.
  rewrite Forall_forall in Hsyn, Hne.
  unfold match_fallback. split.
  - destruct (match_sinonimos SINONIMOS q) as [r|] eqn:E.
    + destruct (AppFacts.match_sinonimos_some _ _ _ E) as (kv & Hin & ->).
      destruct (Hsyn kv Hin) as (r & Hr & _). rewrite Hr.
      split; [discriminate|]. intros [H _].
      apply AppFacts.match_sinonimos_none in H. congruence.
    + rewrite AppFacts.match_respostas_none.
      apply AppFacts.match_sinonimos_none in E. tauto.
  - intros r. destruct (match_sinonimos SINONIMOS q) as [r0|] eqn:E.
    + destruct (AppFacts.match_sinonimos_some _ _ _ E) as (kv & Hin & ->).
      destruct (Hsyn kv Hin) as (r1 & Hr & Hin1). rewrite Hr.
      intros [= <-]. split; [now apply Hne|exact Hin1].
    + intros H. apply AppFacts.match_respostas_some in H.
      split; [now apply Hne|exact H].
Qed.

(** X17.  A message that holds "oi" anywhere once trimmed and put in
    lower case, inside a word too, is answered by the greeting (the text
    under the key "Oi") with the ministry as source, whatever the state of
    the engine and whatever else the message holds. *)
Theorem chat_greets_on_oi :
  forall w rag_engine m,
    contains (lower (strip m)) (lit "oi") = true ->
    Some (answer (chat w rag_engine (Some m))) = dict_get RESPOSTAS (lit "Oi")
    /\ source (chat w rag_engine (Some m)) = ministerio.
Proof.
  intros w rag_engine m Hoi.
  assert (Hf : match_fallback (lower (strip m)) = dict_get RESPOSTAS (lit "Oi")).
  { unfold match_fallback, SINONIMOS. cbn [match_sinonimos].
    change (u "oi") with (lit "oi"). rewrite Hoi. reflexivity. }
  unfold chat. cbv zeta. rewrite Hf.
  assert (Hq : strip m <> []).
  { intros E. rewrite E in Hoi. discriminate Hoi. }
  destruct (strip m) as [|c s] eqn:Es; [contradiction|]. cbn [truthy negb].
  pose proof AppFacts.respostas_not_empty as Hne.
  rewrite Forall_forall in Hne.
  destruct (dict_get RESPOSTAS (lit "Oi")) as [greeting|] eqn:Hg;
    [|discriminate Hg].
  assert (Hin : In greeting (map snd RESPOSTAS)).
  { revert Hg. vm_compute. intros [= <-]. right. left. reflexivity. }
  destruct greeting as [|g0 g]; [now elim (Hne [] Hin)|].
  cbn [truthy answer source]. split; reflexivity.
Qed.

Lemma chat_greets_on_oi_witness :
  Some (answer (chat Demo.world None (Some (lit " Depois de tudo "))))
  = dict_get RESPOSTAS (lit "Oi")
  /\ source (chat Demo.world None (Some (lit " Depois de tudo ")))
     = ministerio.
Proof.
  apply (chat_greets_on_oi Demo.world None (lit " Depois de tudo ")).
  vm_compute. reflexivity.
Defined.

(** X18.  With an engine that is ready and a message that is not blank
    and holds no keyword, the reply is the answer of the engine to the
    trimmed message: the default text is never sent in its place. *)
Theorem chat_asks_ready_engine :
  forall w engine m,
    strip m <> [] ->
    match_fallback (lower (strip m)) = None ->
    initialized engine = true ->
    exists a p',
      query w (strip m) {| self := engine; trace := [] |} = Returns a p'
      /\ chat w (Some engine) (Some m) = a.
Proof.
  intros w engine m Hq Hf Hi.
  destruct (query_always_returns w (strip m) {| self := engine; trace := [] |})
    as (a & p' & Hr).
  exists a, p'. split; [exact Hr|].
  unfold chat. cbv zeta.
  destruct (strip m) as [|c s] eqn:Es; [contradiction|]. cbn [truthy negb].
  rewrite Hf, Hi, Hr. now destruct a.
Qed.

Lemma chat_asks_ready_engine_witness :
  exists a p',
    query Demo.world (strip (lit " qual o prazo? "))
      {| self := Demo.ready; trace := [] |}
    = Returns a p'
    /\ chat Demo.world (Some Demo.ready) (Some (lit " qual o prazo? ")) = a.
Proof.
  apply (chat_asks_ready_engine Demo.world Demo.ready (lit " qual o prazo? "));
    [vm_compute; discriminate | vm_compute; reflexivity | reflexivity].
Defined.

(** X19.  A missing message, or one of white space only, gets the request
    for a valid question; and without a ready engine (none yet, or one that
    is not initialized) a message without keyword gets the default text:
    the engine is not asked. *)
Theorem chat_without_engine :
  forall w rag_engine,
    chat w rag_engine None = {| answer := msg_invalid; source := Sistema |}
    /\ (forall m, forallb isspace m = true ->
                  chat w rag_engine (Some m)
                  = {| answer := msg_invalid; source := Sistema |})
    /\ (forall m, strip m <> [] ->
                  match_fallback (lower (strip m)) = None ->
                  match rag_engine with
                  | Some engine => initialized engine = false
                  | None => True
                  end ->
                  chat w rag_engine (Some m)
                  = {| answer := msg_default; source := ministerio |}).
Proof.
  intros w rag_engine. split; [reflexivity|]. split.
  - intros m Hm. unfold chat. now rewrite (AppFacts.strip_blank m Hm).
  - intros m Hq Hf He. unfold chat. cbv zeta.
    destruct (strip m) as [|c s] eqn:Es; [contradiction|]. cbn [truthy negb].
    rewrite Hf. destruct rag_engine as [engine|]; [|reflexivity].
    now rewrite He.
Qed.

(** X20.  When the embedding model cannot be loaded (and chunking has
    ended), [initialize()] still returns: the documents, the chunks and the
    fingerprint are set, nothing else is, and [initialized] is false.  With
    that engine the status stays "loading" and a message without keyword
    gets the default text. *)
Theorem failed_model_load_keeps_service_loading :
  forall fuel w p c e,
    Chunker.chunk_documents fuel (chunk_chars (cfg (self p)))
      (chunk_overlap (cfg (self p))) (loaded_documents w (cfg (self p)))
    = Some c ->
    SentenceTransformer w (model_name (cfg (self p))) = Err e ->
    exists p',
      initialize fuel w p = Returns tt p'
      /\ self p'
         = set_initialized false
             (set_fingerprint (Some (_compute_fingerprint w (cfg (self p))))
                (set_chunks c
                   (set_documents (loaded_documents w (cfg (self p)))
                      (self p))))
      /\ status (Some (self p')) = lit "loading"
      /\ (forall m,
             strip m <> [] ->
             match_fallback (lower (strip m)) = None ->
             chat w (Some (self p')) (Some m)
             = {| answer := msg_default; source := ministerio |}).
Proof.
  intros fuel w p c e Hc Hm.
  unfold initialize, try_except, initialize_body.
  unfold bind at 1. rewrite load_documents_run.
  unfold bind at 1. rewrite chunk_documents_run. cbn [self trace].
  change (cfg (set_documents ?d ?s)) with (cfg s).
  change (documents (set_documents ?d ?s)) with d.
  rewrite Hc. unfold bind at 1.
  match goal with
  | |- context [_ensure_cache_dir w ?q] =>
      destruct (ensure_cache_dir_spec w q) as [t Ht]; rewrite Ht
  end.
  unfold bind, get, update, emit. cbn [self trace].
  change (cfg (set_chunks ?d ?s)) with (cfg s).
  change (cfg (set_documents ?d ?s)) with (cfg s).
  change (cfg (set_fingerprint ?d ?s)) with (cfg s).
  rewrite Hm. cbn [lift raise self trace].
  eexists. split; [reflexivity|]. cbn [self]. split; [reflexivity|].
  split; [reflexivity|].
  intros m Hq Hf. unfold chat. cbv zeta.
  destruct (strip m) as [|c0 s0] eqn:Es; [contradiction|]. cbn [truthy negb].
  rewrite Hf. reflexivity.
Qed.

Lemma failed_model_load_keeps_service_loading_witness :
  exists p',
    initialize 10 Sample.no_model Demo.start = Returns tt p'
    /\ chunks (self p') = [Demo.chunk0]
    /\ status (Some (self p')) = lit "loading".
Proof.
  destruct (failed_model_load_keeps_service_loading 10 Sample.no_model
              Demo.start [Demo.chunk0] (Exception (lit "unavailable")))
    as (p' & H1 & H2 & H3 & _).
  - vm_compute. reflexivity.
  - reflexivity.
  - exists p'. split; [exact H1|]. split; [|exact H3].
    rewrite H2. reflexivity.
Defined.

(* ================================================================== *)
(** * Retrieval outside the positive case *)
(* ================================================================== *)

Module RetrieveFacts.

Lemma nth_error_all {A} (l : list A) :
  map (nth_error l) (seq 0 (length l)) = map Some l.
Proof.
  induction l as [|x l IH]; [reflexivity|].
  cbn [length seq map nth_error]. f_equal.
  rewrite <- seq_shift, map_map. exact IH.
Qed.

Lemma map_some_inj {A} (l l' : list A) : map Some l = map Some l' -> l = l'.
Proof.
  revert l'. induction l as [|x l IH]; intros [|y l']; cbn;
    try discriminate; [reflexivity|].
  intros [= -> H]. f_equal. now apply IH.
Qed.

Lemma indexed_permutation {A} (l pre : list A) (idx : list nat) :
  Permutation idx (seq 0 (length l)) ->
  map Some pre = map (nth_error l) idx ->
  Permutation pre l.
Proof.
  intros Hperm Hmap.
  apply (Permutation_map (nth_error l)) in Hperm.
  rewrite nth_error_all, <- Hmap in Hperm.
  apply Permutation_sym, Permutation_map_inv in Hperm as (l3 & H3 & Hp).
  apply map_some_inj in H3. subst l3. exact Hp.
Qed.

End RetrieveFacts.

(** X21.  With [pre_k] zero or negative the slice [[-pre_k:]] counts from
    the front of the ascending order: retrieval drops the [-pre_k] least
    similar chunks and returns the others, most similar first.  With
    [pre_k = 0] it returns every chunk. *)
Theorem retrieve_with_nonpositive_pre_k :
  forall w question p m qv rest emb sims,
    is_argsort_of sims (argsort w sims) ->
    pre_k (cfg (self p)) <= 0 ->
    model (self p) = Some m -> encode m [question] = Ok (qv :: rest) ->
    embeddings (self p) = Some emb ->
    length emb = length (chunks (self p)) ->
    np_dot emb qv = Ok sims ->
    exists pre idx,
      retrieve w question p
      = Returns pre {| self := self p;
                       trace := trace p ++ [CallEncode [question]] |}
      /\ map Some pre = map (nth_error (chunks (self p))) idx
      /\ idx = rev (skipn (Z.to_nat (- pre_k (cfg (self p))))
                      (argsort w sims))
      /\ length pre
         = Z.to_nat (len (chunks (self p)) + pre_k (cfg (self p)))
      /\ (pre_k (cfg (self p)) = 0 -> Permutation pre (chunks (self p))).
Proof.
  intros w question p m qv rest emb sims [Hperm Hsorted] Hk Hm He Hemb Hrows
         Hdot.
  destruct (np_dot_ok emb qv sims Hdot) as [_ Hlen].
  assert (Hn : length (chunks (self p)) = length sims) by congruence.
  assert (Ha : length (argsort w sims) = length sims)
    by (rewrite (Permutation_length Hperm); apply length_seq).
  set (k := pre_k (cfg (self p))) in *.
  assert (Hidx : pre_indices_of w sims (len (chunks (self p))) k
                 = rev (skipn (Z.to_nat (- k)) (argsort w sims))).
  { unfold pre_indices_of, slice_from, norm_index, len. f_equal.
    rewrite Ha, Z.min_r by lia.
    destruct (- k <? 0) eqn:E; [apply Z.ltb_lt in E; lia|].
    destruct (Z.le_ge_cases (- k) (Z.of_nat (length sims))) as [H|H].
    - now rewrite Z.min_l by exact H.
    - rewrite Z.min_r by exact H. rewrite Nat2Z.id.
      rewrite !skipn_all2; [reflexivity|lia|lia]. }
  set (idx := rev (skipn (Z.to_nat (- k)) (argsort w sims))) in *.
  assert (Hrange : Forall (fun i => (i < length (chunks (self p)))%nat) idx).
  { apply Forall_forall. intros i Hi. unfold idx in Hi.
    apply in_rev, skipn_incl in Hi.
    apply (Permutation_in _ Hperm), in_seq in Hi. lia. }
  destruct (index_all_in_range (chunks (self p)) idx Hrange)
    as (pre & Hall & Hlpre & Hmap).
  exists pre, idx. split; [|split; [exact Hmap|split; [reflexivity|split]]].
  - rewrite (retrieve_run w question p m qv rest emb sims Hm He Hemb Hdot).
    fold k. rewrite Hidx, Hall. reflexivity.
  - rewrite Hlpre. unfold idx, len. rewrite length_rev, length_skipn. lia.
  - intros H0. apply (RetrieveFacts.indexed_permutation _ _ idx); [|exact Hmap].
    unfold idx. rewrite H0. cbn [Z.opp Z.to_nat skipn].
    rewrite Hn. eapply Permutation_trans; [|exact Hperm].
    apply Permutation_sym, Permutation_rev.
Qed.

Lemma retrieve_with_nonpositive_pre_k_witness :
  exists pre idx,
    retrieve Demo.world Demo.question Sample.no_shortlist
    = Returns pre {| self := self Sample.no_shortlist;
                     trace := [CallEncode [Demo.question]] |}
    /\ map Some pre = map (nth_error [Demo.chunk_a; Demo.chunk_b]) idx
    /\ length pre = 2%nat.
Proof.
  destruct (retrieve_with_nonpositive_pre_k Demo.world Demo.question
              Sample.no_shortlist
              Demo.encoder [28 # 1; 1]%Q [] [[8 # 1; 1]; [8 # 1; 1]]%Q
              (map (fun row => dot row [28 # 1; 1]%Q)
                   [[8 # 1; 1]; [8 # 1; 1]]%Q)
              (argsort_stable_ok _) ltac:(cbn; lia)
              eq_refl eq_refl eq_refl eq_refl eq_refl)
    as (pre & idx & H1 & H2 & _ & H4 & _).
  exists pre, idx. repeat split; assumption.
Defined.

(* ================================================================== *)
(** * The summary after the cut *)
(* ================================================================== *)

Module CutFacts.

Lemma no_adjacent_spaces b l1 c d l2 :
  single_spaced b (l1 ++ c :: d :: l2) = true ->
  isspace c = true -> isspace d = false.
Proof.
  revert b. induction l1 as [|x l1 IH]; intros b H Hc.
  - cbn [app single_spaced] in H. rewrite Hc in H.
    apply andb_prop in H as [_ H].
    destruct (isspace d); [|reflexivity].
    apply andb_prop in H as [H _]. apply andb_prop in H as [_ H].
    discriminate H.
  - cbn [app single_spaced] in H. destruct (isspace x).
    + apply andb_prop in H as [_ H]. exact (IH true H Hc).
    + exact (IH false H Hc).
Qed.

Lemma only_plain_spaces b s :
  single_spaced b s = true ->
  existsb (Ascii.eqb (chr 32)) s = false ->
  forall c, In c s -> isspace c = false.
Proof.
  revert b. induction s as [|x s IH]; intros b H Hno c Hin; [contradiction|].
  cbn [existsb] in Hno. apply orb_false_elim in Hno as [Hx Hno].
  cbn [single_spaced] in H. destruct (isspace x) eqn:Ex.
  - apply andb_prop in H as [H _]. apply andb_prop in H as [H _].
    rewrite Ascii.eqb_sym in H. congruence.
  - destruct Hin as [<-|Hin]; [exact Ex|]. exact (IH false H Hno c Hin).
Qed.

Lemma lstrip_fixed c s : isspace c = false -> lstrip (c :: s) = c :: s.
Proof. intros H. cbn [lstrip]. now rewrite H. Qed.

Lemma rstrip_fixed s c : isspace c = false -> rstrip (s ++ [c]) = s ++ [c].
Proof.
  intros H. unfold rstrip. rewrite rev_app_distr. cbn [rev app].
  rewrite (lstrip_fixed c (rev s) H). cbn [rev].
  now rewrite rev_involutive.
Qed.

(** A text whose first and last characters are not whitespace is its own
    [strip]. *)
Lemma strip_fixed h s :
  isspace h = false ->
  (forall s' c, h :: s = s' ++ [c] -> isspace c = false) ->
  strip (h :: s) = h :: s.
Proof.
  intros Hh Hlast. unfold strip.
  destruct (@exists_last _ (h :: s) ltac:(discriminate)) as (s' & c & E).
  rewrite E, (rstrip_fixed s' c (Hlast s' c E)), <- E.
  apply (lstrip_fixed h s Hh).
Qed.

Lemma strip_fixed_lstrip s : strip s = s -> lstrip s = s.
Proof.
  intros H. rewrite <- H at 1. unfold strip.
  rewrite StripFacts.lstrip_idem. exact H.
Qed.

Lemma two_spaces_absent b s :
  single_spaced b s = true -> contains s [chr 32; chr 32] = false.
Proof.
  revert b. induction s as [|x s IH]; intros b H; [reflexivity|].
  cbn [contains startswith]. cbn [single_spaced] in H.
  destruct (isspace x) eqn:Ex.
  - apply andb_prop in H as [_ H]. rewrite (IH true H), orb_false_r.
    destruct (Ascii.eqb (chr 32) x); [|reflexivity]. cbn [andb].
    destruct s as [|y s]; [reflexivity|]. cbn [startswith].
    destruct (Ascii.eqb (chr 32) y) eqn:Ey; [|reflexivity].
    apply Ascii.eqb_eq in Ey. subst y. cbn [single_spaced] in H.
    change (isspace (chr 32)) with true in H. cbv iota in H.
    apply andb_prop in H as [H _]. apply andb_prop in H as [_ H].
    discriminate H.
  - rewrite (IH false H), orb_false_r.
    destruct (Ascii.eqb (chr 32) x) eqn:Ey; [|reflexivity].
    apply Ascii.eqb_eq in Ey. subst x. discriminate Ex.
Qed.

End CutFacts.

(** X22.  The summary is in normal form also after the cut at 800
    characters: it has no whitespace at either end, its only whitespace
    characters are plain spaces, and no two of them are adjacent. *)
Theorem summary_stays_trimmed :
  forall selected,
    strip (summarize selected) = summarize selected
    /\ single_spaced false (summarize selected) = true
    /\ contains (summarize selected) [chr 32; chr 32] = false.
Proof.
  intros selected.
  pose proof (SummaryFacts.collapsed_text_single_spaced selected) as Hss.
  assert (Hfix : strip (collapsed_text selected) = collapsed_text selected)
    by (unfold collapsed_text; apply StripFacts.strip_idem).
  assert (Hgoal : strip (summarize selected) = summarize selected
                  /\ single_spaced false (summarize selected) = true).
  { unfold summarize. fold (collapsed_text selected).
    set (full := collapsed_text selected) in *.
    destruct (800 <? len full) eqn:E; [|split; assumption].
    apply Z.ltb_lt in E. rewrite SummaryFacts.slice_prefix by lia.
    change (Z.to_nat 800) with 800%nat.
    set (f := firstn 800 full).
    assert (Hf : single_spaced false f = true).
    { apply (SummaryFacts.single_spaced_prefix false f (skipn 800 full)).
      unfold f. rewrite firstn_skipn. exact Hss. }
    destruct full as [|h rest] eqn:Efull; [cbn in E; lia|].
    assert (Hh : isspace h = false)
      by (apply (StripFacts.lstrip_fixed_head h rest),
            CutFacts.strip_fixed_lstrip, Hfix).
    change f with (h :: firstn 799 rest) in *.
    destruct (existsb (Ascii.eqb (chr 32)) (h :: firstn 799 rest)) eqn:Esp.
    - destruct (SummaryFacts.rsplit1_sep (chr 32) _ Esp) as (tail & Hcut & _).
      set (r := rsplit1_head (chr 32) (h :: firstn 799 rest)) in *.
      assert (Hr : single_spaced false r = true).
      { apply (SummaryFacts.single_spaced_prefix false r (chr 32 :: tail)).
        rewrite <- Hcut. exact Hf. }
      split; [|exact Hr].
      destruct r as [|h' r'] eqn:Er.
      + cbn [app] in Hcut. injection Hcut as Hcut _. subst h. discriminate Hh.
      + cbn [app] in Hcut. injection Hcut as Hh' Hrest. subst h'.
        apply CutFacts.strip_fixed; [exact Hh|].
        intros s' c Hs'. destruct (isspace c) eqn:Ec; [|reflexivity].
        assert (H2 : single_spaced false (s' ++ c :: chr 32 :: tail) = true).
        { replace (s' ++ c :: chr 32 :: tail)
            with ((s' ++ [c]) ++ chr 32 :: tail)
            by (rewrite <- app_assoc; reflexivity).
          rewrite <- Hs'. cbn [app]. rewrite <- Hrest. exact Hf. }
        pose proof (CutFacts.no_adjacent_spaces _ _ _ _ _ H2 Ec) as H3.
        discriminate H3.
    - rewrite (SummaryFacts.rsplit1_no_sep _ _ Esp). split; [|exact Hf].
      pose proof (CutFacts.only_plain_spaces false _ Hf Esp) as Hall.
      apply CutFacts.strip_fixed; [exact Hh|].
      intros s' c Hs'. apply Hall. rewrite Hs'. apply in_or_app. right.
      now left. }
  destruct Hgoal as [H1 H2]. repeat split; [exact H1|exact H2|].
  exact (CutFacts.two_spaces_absent false _ H2).
Qed.

(* ================================================================== *)
(** * The words of the question and the sentences they select *)
(* ================================================================== *)

Module TokenFacts.

Lemma split_nonword_words b s :
  Forall (fun t => Forall (fun c => isword c = true /\ In c s) t)
         (split_nonword b s).
Proof.
  revert b. induction s as [|x s IH]; intros b; cbn [split_nonword].
  - repeat constructor.
  - assert (Hw : forall b',
               Forall (fun t => Forall (fun c => isword c = true
                                                 /\ In c (x :: s)) t)
                      (split_nonword b' s)).
    { intros b'. eapply Forall_impl; [|apply (IH b')].
      intros t Ht. eapply Forall_impl; [|exact Ht].
      intros c [H1 H2]. split; [exact H1|now right]. }
    destruct (isword x) eqn:Ex.
    + pose proof (Hw false) as H.
      destruct (split_nonword false s) as [|p ps].
      * repeat constructor. exact Ex.
      * inversion H as [|? ? Hp Hps]; subst.
        constructor; [|exact Hps].
        constructor; [split; [exact Ex|now left]|exact Hp].
    + destruct b; [apply Hw|]. constructor; [constructor|apply Hw].
Qed.

Lemma lower_char_idem c : lower_char (lower_char c) = lower_char c.
Proof.
  destruct c as [[] [] [] [] [] [] [] []]; vm_compute; reflexivity.
Qed.

End TokenFacts.

(** X23.  The words taken from the question have at least three
    characters, all of them word characters, and are in lower case.  Every
    sentence they select is trimmed, not empty, and holds one of these
    words when put in lower case. *)
Theorem selected_sentences_share_a_word :
  forall question top_chunks,
    Forall (fun tok => 3 <= len tok
                       /\ Forall (fun c => isword c = true) tok
                       /\ lower tok = tok)
           (question_tokens question)
    /\ Forall (fun s => s <> [] /\ strip s = s
                        /\ exists tok, In tok (question_tokens question)
                                       /\ contains (lower s) tok = true)
              (select_sentences (question_tokens question) top_chunks).
Proof.
  intros question top_chunks. split.
  - unfold question_tokens. apply Forall_forall. intros tok Hin.
    apply filter_In in Hin as [Hin Hlen]. apply Z.ltb_lt in Hlen.
    pose proof (TokenFacts.split_nonword_words false (lower question)) as H.
    rewrite Forall_forall in H. specialize (H tok Hin).
    split; [lia|]. split.
    + eapply Forall_impl; [|exact H]. intros c [Hc _]. exact Hc.
    + unfold lower. rewrite <- (map_id tok) at 2. apply map_ext_in.
      intros c Hc. rewrite Forall_forall in H. destruct (H c Hc) as [_ Hq].
      unfold lower in Hq. apply in_map_iff in Hq as (c' & <- & _).
      apply TokenFacts.lower_char_idem.
  - unfold select_sentences. apply Forall_flat_map, Forall_forall.
    intros c _. apply Forall_flat_map, Forall_forall. intros s _. cbv zeta.
    destruct (strip s) as [|h t] eqn:Es; cbn [truthy negb]; [constructor|].
    destruct (existsb _ _) eqn:Ex; [|constructor].
    constructor; [|constructor]. split; [discriminate|]. split.
    + rewrite <- Es. apply StripFacts.strip_idem.
    + apply existsb_exists in Ex as (tok & Hin & Hc). now exists tok.
Qed.
